(** * programista-magazyn: the download scheduler, the link extractor and
      the Slack notifier of [src/prog.ts], embedded and verified.

    The program is single-threaded JavaScript.  Every asynchronous function
    runs without interruption between two of its [await]s, so a run is a
    sequence of atomic handler executions.  The embedding makes that explicit:
    a [World] holds the scraper object, the activations of the download
    closures and the settlement of the batch promise; an [Event] resumes one
    suspended activation.

    A run is one call of [scrape]: the cap [maxRequests] is set before it and
    not changed while it lasts, and no second call of [scrape] overlaps it.
    Output on the console is left out. *)

From Stdlib Require Import String Ascii.
From Stdlib Require Import List ZArith QArith Lia Bool Arith PeanoNat Permutation.
Import ListNotations.
Local Open Scope Z_scope.

(** ** JavaScript strings

    A JavaScript string is a sequence of UTF-16 code units. *)

Definition jsstring := list N.

Definition js (s : string) : jsstring :=
  map N_of_ascii (list_ascii_of_string s).

Definition jsstring_eqb (a b : jsstring) : bool :=
  if list_eq_dec N.eq_dec a b then true else false.

(** ** JavaScript numbers

    [maxRequests] is a number the setter stores unchecked: a finite value, which
    need not be an integer, or NaN or an infinity.  Every double is a rational.
    The two counters start at zero and move by one, so they hold integers. *)
Inductive Number :=
| Finite (q : Q)
| NaN
| Infinity
| NegInfinity.

Definition integer (z : Z) : Number := Finite (inject_Z z).

(** [running >= max] *)
Definition running_ge (running : Z) (max : Number) : bool :=
  match max with
  | Finite q => Qle_bool q (inject_Z running)
  | NaN => false
  | Infinity => false
  | NegInfinity => true
  end.

(** ** The scraper object *)

(** The closure returned by [scraperFactory(uri, folder, filename)]: its
    captured variables. *)
Record Action := mkAction {
  uri : jsstring;
  folder : jsstring;
  filename : jsstring
}.

(** An element of [requestsList]: [{ started: boolean, scrape: () => Promise<void> }]. *)
Record Request := mkRequest {
  started : bool;
  scrape : Action
}.

(** [allRequestsCompleted] is either the no-op installed by [scrapeInit] or the
    [resolve] function of [waitAllPromises]. *)
Inductive Callback := Noop | Resolve.

(** The mutable fields of [ProgrammerMagazineScraper] the scheduler uses. *)
Record Scraper := mkScraper {
  _maxRequests : Number;
  runningRequests : Z;
  completedRequests : Z;
  requestsList : list Request;
  allRequestsCompleted : Callback;
  newMagazines : list jsstring
}.

(** ** The request library

    [request.get({ uri, ... })] either returns a promise, which is settled
    later, or throws inside the call.  [get_throws uri] tells which. *)
Class Network := {
  get_throws : jsstring -> bool
}.

(** ** Activations of the download closure

    Calling [req.scrape()] creates an activation of the async arrow function of
    [scraperFactory].  It runs up to its first [await], the one of
    [request.get].  When [request.get] returns a promise the activation suspends
    there and is resumed when the promise settles; it awaits three promises in
    turn.  When [request.get] throws, the [catch] clause and the [finally] block
    run inside the call of [req.scrape()].  An activation is [Settled] once its
    [finally] block has run. *)
Inductive Stage :=
| AwaitGet      (* await request.get({...}) *)
| AwaitMkdir    (* await fs.mkdir(folder, { recursive: true }) *)
| AwaitWrite    (* await fs.writeFile(filename, content) *)
| Settled (ok : bool). (* ok = the try block ran to its end *)

Record Activation := mkActivation {
  task : nat;          (* index in requestsList of the request that was called *)
  closure : Action;    (* the closure that was called *)
  stage : Stage
}.

Record World := mkWorld {
  this : Scraper;
  activations : list Activation;   (* one per call of a [scrape] closure, in call order *)
  resolveCalls : nat               (* how often [resolve] of waitAllPromises was called *)
}.

Definition settled (a : Activation) : bool :=
  match stage a with Settled _ => true | _ => false end.

Definition succeeded (a : Activation) : bool :=
  match stage a with Settled true => true | _ => false end.

Definition count {A} (p : A -> bool) (l : list A) : nat := length (filter p l).

(** ** [scrapeInit] *)
Definition scrapeInit (s : Scraper) : Scraper :=
  {| _maxRequests := _maxRequests s;
     runningRequests := 0;
     completedRequests := 0;
     requestsList := [];
     allRequestsCompleted := Noop;
     newMagazines := [] |}.

(** ** [startNext] *)

Definition call (cb : Callback) (n : nat) : nat :=
  match cb with Noop => n | Resolve => S n end.

(** [if (this.completedRequests >= this.requestsList.length)
    { this.allRequestsCompleted(); }] *)
Definition completion_test (w : World) : World :=
  if completedRequests (this w) >=? Z.of_nat (length (requestsList (this w)))
  then mkWorld (this w) (activations w)
               (call (allRequestsCompleted (this w)) (resolveCalls w))
  else w.

(** [req.started = true] for the request at index [i]. *)
Definition set_started (i : nat) (reqs : list Request) : list Request :=
  match nth_error reqs i with
  | Some req => firstn i reqs ++ mkRequest true (scrape req) :: skipn (S i) reqs
  | None => reqs
  end.

(** [req.started = true; req.scrape()] up to the point where the call either
    suspends at its first [await] ([st = AwaitGet], counters as they are) or has
    run [catch] and [this.runningRequests--; this.completedRequests++] of its
    [finally] block ([st = Settled false]). *)
Definition called (i : nat) (req : Request) (st : Stage) (less more : Z)
    (w : World) : World :=
  let s := this w in
  mkWorld {| _maxRequests := _maxRequests s;
             runningRequests := runningRequests s - less;
             completedRequests := completedRequests s + more;
             requestsList := set_started i (requestsList s);
             allRequestsCompleted := allRequestsCompleted s;
             newMagazines := newMagazines s |}
          (activations w ++ [mkActivation i (scrape req) st])
          (resolveCalls w).

(** [++this.runningRequests] *)
Definition increment_running (w : World) : World :=
  let s := this w in
  mkWorld {| _maxRequests := _maxRequests s;
             runningRequests := runningRequests s + 1;
             completedRequests := completedRequests s;
             requestsList := requestsList s;
             allRequestsCompleted := allRequestsCompleted s;
             newMagazines := newMagazines s |}
          (activations w) (resolveCalls w).

Section Loop.
Context {net : Network}.

(** [this.startNext()] as called from the [finally] block of a closure whose
    [request.get] throws inside the call. *)
Variable nested : World -> World.

(** The [for (const req of this.requestsList)] loop from index [i], with [k]
    elements left, followed by the completion test when the loop runs to its
    end.  The [return] in the loop leaves the function without the test. *)
Fixpoint startNext_loop (k i : nat) (w : World) : World :=
  match k with
  | O => completion_test w
  | S k' =>
      match nth_error (requestsList (this w)) i with
      | None => completion_test w
      | Some req =>
          if running_ge (runningRequests (this w)) (_maxRequests (this w)) then w
          else if started req then startNext_loop k' (S i) w
          else
            let w1 :=
              if get_throws (uri (scrape req))
              then nested (called i req (Settled false) 1 1 w)
              else called i req AwaitGet 0 0 w in
            startNext_loop k' (S i) (increment_running w1)
      end
  end.

End Loop.

(** [startNext] with at most [depth] calls of itself nested in one another.  A
    nested call is made only after a request has been marked as started. *)
Fixpoint startNext_within {net : Network} (depth : nat) (w : World) : World :=
  startNext_loop
    (match depth with
     | O => fun w' => w'
     | S d => startNext_within d
     end)
    (length (requestsList (this w))) 0 w.

Definition unstarted (s : Scraper) : nat :=
  count (fun r => negb (started r)) (requestsList s).

Definition startNext {net : Network} (w : World) : World :=
  startNext_within (unstarted (this w)) w.

(** ** The closure of [scraperFactory] *)

Definition set_stage (k : nat) (st : Stage) (acts : list Activation) : list Activation :=
  match nth_error acts k with
  | Some a => firstn k acts ++ mkActivation (task a) (closure a) st :: skipn (S k) acts
  | None => acts
  end.

(** The world in which the [finally] block of activation [k] calls
    [startNext]: the activation has settled with outcome [ok],
    [this.runningRequests--; this.completedRequests++] have run, and
    [newMagazines] is [news]. *)
Definition settling (k : nat) (ok : bool) (news : list jsstring) (w : World) : World :=
  mkWorld {| _maxRequests := _maxRequests (this w);
             runningRequests := runningRequests (this w) - 1;
             completedRequests := completedRequests (this w) + 1;
             requestsList := requestsList (this w);
             allRequestsCompleted := allRequestsCompleted (this w);
             newMagazines := news |}
          (set_stage k (Settled ok) (activations w))
          (resolveCalls w).

(** [this.newMagazines.push(filename)] *)
Definition push_newMagazine (f : jsstring) (w : World) : World :=
  let s := this w in
  mkWorld {| _maxRequests := _maxRequests s;
             runningRequests := runningRequests s;
             completedRequests := completedRequests s;
             requestsList := requestsList s;
             allRequestsCompleted := allRequestsCompleted s;
             newMagazines := newMagazines s ++ [f] |}
          (activations w) (resolveCalls w).

Definition suspend_at (k : nat) (st : Stage) (w : World) : World :=
  mkWorld (this w) (set_stage k st (activations w)) (resolveCalls w).

(** An event: the promise awaited by activation [k] is fulfilled ([ok = true])
    or rejected ([ok = false]).  An exception thrown by the call of [fs.mkdir]
    or [fs.writeFile] itself ends the [try] block as the rejection of its
    promise does: it is the event [ok = false] at that stage. *)
Record Event := mkEvent { ev_activation : nat; ev_ok : bool }.

Section Closure.
Context {net : Network}.

(** The [finally] block: [this.runningRequests--; this.completedRequests++;
    this.startNext();], run by activation [k] as it settles with outcome [ok]. *)
Definition finally (k : nat) (ok : bool) (w : World) : World :=
  startNext (settling k ok (newMagazines (this w)) w).

(** One resumption of the closure body, up to its next [await] or its end.
    [None]: the event cannot occur (no such activation, or it has settled). *)
Definition resume (w : World) (e : Event) : option World :=
  let k := ev_activation e in
  match nth_error (activations w) k with
  | None => None
  | Some a =>
      match stage a, ev_ok e with
      | Settled _, _ => None
      | AwaitGet, true => Some (suspend_at k AwaitMkdir w)
      | AwaitMkdir, true => Some (suspend_at k AwaitWrite w)
      | AwaitWrite, true =>
          Some (finally k true (push_newMagazine (filename (closure a)) w))
      | _, false => Some (finally k false w)   (* catch (err) { log }, then finally *)
      end
  end.

Fixpoint run (w : World) (es : list Event) : option World :=
  match es with
  | [] => Some w
  | e :: es' => match resume w e with
                | Some w' => run w' es'
                | None => None
                end
  end.

(** ** The scheduling part of [scrape]

    After the enrollment loop has filled [requestsList]: create
    [waitAllPromises], store its [resolve], call [startNext]. *)
Definition enrolled (maxRequests : Number) (acts : list Action) : World :=
  mkWorld {| _maxRequests := maxRequests;
             runningRequests := 0;
             completedRequests := 0;
             requestsList := map (mkRequest false) acts;
             allRequestsCompleted := Resolve;
             newMagazines := [] |}
          [] 0.

Definition dispatch (maxRequests : Number) (acts : list Action) : World :=
  startNext (enrolled maxRequests acts).

(** Worlds a run can be in: after [dispatch], then any sequence of events. *)
Definition reachable (maxRequests : Number) (acts : list Action) (w : World) : Prop :=
  exists es, run (dispatch maxRequests acts) es = Some w.

End Closure.

(** [await waitAllPromises; return this.newMagazines;] *)
Definition resolved (w : World) : bool := (0 <? resolveCalls w)%nat.

Definition scrape_result (w : World) : option (list jsstring) :=
  if resolved w then Some (newMagazines (this w)) else None.

(** ** Observations on a world *)

Definition unsettled (a : Activation) : bool := negb (settled a).

(** Number of in-flight actions. *)
Definition in_flight (w : World) : nat := count unsettled (activations w).

(** Task [i] has completed: an activation of it has run its [finally] block. *)
Definition completed (w : World) (i : nat) : bool :=
  existsb (fun a => Nat.eqb (task a) i && settled a) (activations w).

Definition is_started (w : World) (i : nat) : bool :=
  match nth_error (requestsList (this w)) i with
  | Some r => started r
  | None => false
  end.

(** Number of tasks whose [started] flag is true and that have not completed. *)
Definition started_not_completed (w : World) : nat :=
  count (fun i => is_started w i && negb (completed w i))
        (seq 0 (length (requestsList (this w)))).

(** How often the closure of task [i] was invoked. *)
Definition invocations (w : World) (i : nat) : nat :=
  count (fun a => Nat.eqb (task a) i) (activations w).

(** How often task [i] completed. *)
Definition completions (w : World) (i : nat) : nat :=
  count (fun a => Nat.eqb (task a) i && settled a) (activations w).

(** The closure of the activation threw inside [request.get]. *)
Definition threw (net : Network) (a : Activation) : bool :=
  get_throws (uri (closure a)).


(** * Link extraction and enrollment *)

(** ** Exceptions

    A computation that may throw: [Ok v] or [Throw e]. *)
Inductive Exception :=
| URIError       (* thrown by decodeURI, and by url.parse, on malformed escapes *)
| TypeError      (* thrown by url.parse on an address it does not accept *)
| RequestError   (* the login request was rejected *)
| UploadError.   (* web.files.upload was rejected *)

Inductive Result (A : Type) :=
| Ok (v : A)
| Throw (e : Exception).
Arguments Ok {A} v.
Arguments Throw {A} e.

Definition bind {A B} (r : Result A) (f : A -> Result B) : Result B :=
  match r with
  | Ok v => f v
  | Throw e => Throw e
  end.

Notation "x <- r ;; k" := (bind r (fun x => k))
  (at level 61, r at next level, right associativity).

(** ** The document

    An element of the page: the properties the extractor reads, and its
    children.  [localName] is the lower-case tag name the parser gives an HTML
    element, [href] the value of the [href] property of an anchor, [id] the
    value of the [id] property (empty when the attribute is missing). *)
#[warnings="-register-all"] Inductive Element :=
| Elem (localName : jsstring) (id : jsstring) (classList : list jsstring)
       (href : jsstring) (children : list Element).

Definition localName (e : Element) := let 'Elem t _ _ _ _ := e in t.
Definition elem_id (e : Element) := let 'Elem _ i _ _ _ := e in i.
Definition classList (e : Element) := let 'Elem _ _ c _ _ := e in c.
Definition href (e : Element) := let 'Elem _ _ _ h _ := e in h.
Definition children (e : Element) := let 'Elem _ _ _ _ c := e in c.

(** What [new JSDOM(body)] gives: the root element of the document and its
    mode.  A page without a doctype is parsed in quirks mode. *)
Record Document := mkDocument {
  quirks : bool;
  documentElement : Element
}.

(** The descendants of an element, in tree order: the order of the
    collections returned by [getElementsByClassName] and [getElementsByTagName].
    Both search all descendants, not only the children. *)
Fixpoint descendants (e : Element) : list Element :=
  match e with
  | Elem _ _ _ _ cs => flat_map (fun c => c :: descendants c) cs
  end.

(** Class names are compared as they are written, except in a document in
    quirks mode, where the letters [A]-[Z] match their lower-case forms. *)
Definition ascii_lower (c : N) : N :=
  (if (65 <=? c) && (c <=? 90) then c + 32 else c)%N.

Definition same_class (quirks : bool) (a b : jsstring) : bool :=
  if quirks then jsstring_eqb (map ascii_lower a) (map ascii_lower b)
  else jsstring_eqb a b.

Definition has_class (quirks : bool) (name : jsstring) (d : Element) : bool :=
  existsb (same_class quirks name) (classList d).

(** [element.getElementsByClassName(name)] in a document of the given mode. *)
Definition getElementsByClassName (quirks : bool) (e : Element) (name : jsstring)
    : list Element :=
  filter (has_class quirks name) (descendants e).

(** [document.getElementsByClassName(name)]: the root element is among the
    descendants of the document. *)
Definition Document_getElementsByClassName (doc : Document) (name : jsstring)
    : list Element :=
  filter (has_class (quirks doc) name)
         (documentElement doc :: descendants (documentElement doc)).

Definition getElementsByTagName (e : Element) (name : jsstring) : list Element :=
  filter (fun d => jsstring_eqb name (localName d)) (descendants e).

(** ** Node and ECMAScript library functions the program calls

    [url.parse] (the fields [path] and [href] of its result), [path.extname],
    [path.basename], [path.join], [decodeURI] and [__dirname].  [url.parse]
    throws on an address it does not accept, a TypeError or a URIError;
    [decodeURI] throws a URIError on a malformed escape sequence: [None]. *)
Record Url := mkUrl {
  url_path : option jsstring;
  url_href : jsstring
}.

Class Platform := {
  url_parse : jsstring -> Result Url;
  path_extname : jsstring -> jsstring;
  path_basename : jsstring -> jsstring;
  path_join : jsstring -> jsstring -> jsstring;
  decodeURI : jsstring -> option jsstring;
  __dirname : jsstring
}.

(** [interface ProgrammerMagazineLink] *)
Record ProgrammerMagazineLink := mkLink {
  id : jsstring;
  url : jsstring;
  link_filename : jsstring
}.

(** JavaScript truthiness of a [string | null] value, as tested by [!x]. *)
Definition truthy (s : option jsstring) : bool :=
  match s with
  | Some (_ :: _) => true
  | _ => false
  end.

Definition is_empty (s : jsstring) : bool :=
  match s with [] => true | _ => false end.

Section Extraction.
Context {node : Platform}.

(** The body of the inner loop of [getLinks] for one anchor [format] of the
    section [section_id]: [Ok None] when the anchor is skipped by a [continue],
    [Ok (Some link)] when a link is pushed. *)
Definition getLinks_anchor (section_id : jsstring) (format : Element)
    : Result (option ProgrammerMagazineLink) :=
  urlParsed <- url_parse (href format) ;;
  if negb (truthy (url_path urlParsed)) || is_empty (url_href urlParsed)
  then Ok None
  else
    let p := match url_path urlParsed with Some p => p | None => [] end in
    let ext := path_extname p in
    if is_empty ext then Ok None
    else match decodeURI (path_basename p) with
         | None => Throw URIError
         | Some f => Ok (Some (mkLink section_id (url_href urlParsed) f))
         end.

(** [for (const format of this.getMagazineLinks(linksTable)) { ... }] *)
Fixpoint getLinks_formats (section_id : jsstring) (formats : list Element)
    (results : list ProgrammerMagazineLink) : Result (list ProgrammerMagazineLink) :=
  match formats with
  | [] => Ok results
  | format :: rest =>
      r <- getLinks_anchor section_id format ;;
      match r with
      | None => getLinks_formats section_id rest results
      | Some link => getLinks_formats section_id rest (results ++ [link])
      end
  end.

Definition getMagazinesSections (dom : Document) : list Element :=
  Document_getElementsByClassName dom (js "section-magazine").

(** [section] is an element of the document [dom]. *)
Definition getMagazineLinksTable (dom : Document) (section : Element) : list Element :=
  getElementsByClassName (quirks dom) section (js "borderless").

Definition getMagazineLinks (table : Element) : list Element :=
  getElementsByTagName table (js "a").

(** [for (const section of this.getMagazinesSections(dom)) { ... }] *)
Fixpoint getLinks_sections (dom : Document) (sections : list Element)
    (results : list ProgrammerMagazineLink) : Result (list ProgrammerMagazineLink) :=
  match sections with
  | [] => Ok results
  | section :: rest =>
      if is_empty (elem_id section) then getLinks_sections dom rest results
      else
        match getMagazineLinksTable dom section with
        | [] => getLinks_sections dom rest results
        | linksTable :: _ =>
            results' <- getLinks_formats (elem_id section)
                                         (getMagazineLinks linksTable) results ;;
            getLinks_sections dom rest results'
        end
  end.

(** [getLinks].  [getMyMagazinesDom] is the login request: its outcome, the
    parsed page or a rejection, is the argument. *)
Definition getLinks (getMyMagazinesDom : Result Document)
    : Result (list ProgrammerMagazineLink) :=
  dom <- getMyMagazinesDom ;;
  getLinks_sections dom (getMagazinesSections dom) [].

(** ** [scrape]: enrollment *)

(** The closure built for one link: [scraperFactory(link.url, magazinefolder, filename)]. *)
Definition download_of (directory : jsstring) (link : ProgrammerMagazineLink) : Action :=
  let baseFolder :=
    if is_empty directory then path_join __dirname (js "programista")
    else directory in
  let magazinefolder := path_join baseFolder (id link) in
  mkAction (url link) magazinefolder (path_join magazinefolder (link_filename link)).

Definition push_request (r : Request) (s : Scraper) : Scraper :=
  {| _maxRequests := _maxRequests s;
     runningRequests := runningRequests s;
     completedRequests := completedRequests s;
     requestsList := requestsList s ++ [r];
     allRequestsCompleted := allRequestsCompleted s;
     newMagazines := newMagazines s |}.

(** [for (const link of links) { ... }].  [fs_access path] tells whether
    [fs.access(path)] is fulfilled, i.e. whether the file exists. *)
Fixpoint enroll (fs_access : jsstring -> bool) (directory : jsstring)
    (skipExisting : bool) (links : list ProgrammerMagazineLink) (s : Scraper) : Scraper :=
  match links with
  | [] => s
  | link :: rest =>
      let a := download_of directory link in
      if skipExisting && fs_access (filename a)
      then enroll fs_access directory skipExisting rest s
      else enroll fs_access directory skipExisting rest
                  (push_request (mkRequest false a) s)
  end.

Definition set_allRequestsCompleted (cb : Callback) (s : Scraper) : Scraper :=
  {| _maxRequests := _maxRequests s;
     runningRequests := runningRequests s;
     completedRequests := completedRequests s;
     requestsList := requestsList s;
     allRequestsCompleted := cb;
     newMagazines := newMagazines s |}.

(** The method [scrape(directory, skipExisting)] up to its
    [await waitAllPromises]: the world in which the downloads then run.  (The
    name [scrape] is the field of [Request].) *)
Definition Scraper_scrape {net : Network} (getMyMagazinesDom : Result Document)
    (fs_access : jsstring -> bool) (s : Scraper)
    (directory : jsstring) (skipExisting : bool) : Result World :=
  let s := scrapeInit s in
  links <- getLinks getMyMagazinesDom ;;
  let s := enroll fs_access directory skipExisting links s in
  let s := set_allRequestsCompleted Resolve s in
  Ok (startNext (mkWorld s [] 0)).

End Extraction.


(** * The notifier: [uploadNewMagazines] *)

(** Code units the regular-expression atom [.] does not match. *)
Definition line_terminator (c : N) : bool :=
  (N.eqb c 10 || N.eqb c 13 || N.eqb c 8232 || N.eqb c 8233)%N.

(** [/.+\.pdf$/] matched at the start of [s]: [.] takes one code unit, then
    either [\.pdf$] matches what is left or [.+] goes on. *)
Fixpoint pdf_match_here (s : jsstring) : bool :=
  match s with
  | [] => false
  | c :: rest =>
      negb (line_terminator c) &&
      (jsstring_eqb rest (js ".pdf") || pdf_match_here rest)
  end.

(** [m.match(/.+\.pdf$/) !== null]: the pattern matches at some position. *)
Fixpoint pdf_match (m : jsstring) : bool :=
  pdf_match_here m ||
  match m with
  | [] => false
  | _ :: rest => pdf_match rest
  end.

(** The argument of one [web.files.upload] call, made on the client built from
    [slackToken]. *)
Record Upload := mkUpload {
  up_token : jsstring;
  up_filename : jsstring;
  up_file : jsstring;      (* createReadStream(file) *)
  up_channels : jsstring
}.

(** The Slack service: given the calls made so far and a new call, whether the
    returned promise is fulfilled. *)
Definition Slack := list Upload -> Upload -> bool.

Section Notifier.
Context {node : Platform}.

(** [for (const file of pdfMagazines) { ... await web.files.upload(...) ... }]:
    the calls made, and how the loop ended. *)
Fixpoint upload_loop (slack : Slack) (slackToken slackChannels : jsstring)
    (files : list jsstring) (calls : list Upload) : list Upload * Result unit :=
  match files with
  | [] => (calls, Ok tt)
  | file :: rest =>
      let filebase := path_basename file in
      let u := mkUpload slackToken filebase file slackChannels in
      if slack calls u
      then upload_loop slack slackToken slackChannels rest (calls ++ [u])
      else (calls ++ [u], Throw UploadError)
  end.

Definition uploadNewMagazines (slack : Slack) (slackToken slackChannels : jsstring)
    (magazines : list jsstring) : list Upload * Result unit :=
  let pdfMagazines := filter pdf_match magazines in
  match pdfMagazines with
  | [] => ([], Ok tt)
  | _ => upload_loop slack slackToken slackChannels pdfMagazines []
  end.

End Notifier.


(** * A model of the library functions

    The functions of [Platform] as Node documents them on a POSIX system, used
    to run the program on concrete pages. *)

Fixpoint takeWhile {A} (p : A -> bool) (l : list A) : list A :=
  match l with
  | x :: l' => if p x then x :: takeWhile p l' else []
  | [] => []
  end.

Fixpoint dropWhile {A} (p : A -> bool) (l : list A) : list A :=
  match l with
  | x :: l' => if p x then dropWhile p l' else l
  | [] => []
  end.

Definition is_slash (c : N) : bool := N.eqb c 47.
Definition is_dot (c : N) : bool := N.eqb c 46.

(** The last non-empty component of a path, trailing separators ignored. *)
Definition last_component (path : jsstring) : jsstring :=
  rev (takeWhile (fun c => negb (is_slash c)) (dropWhile is_slash (rev path))).

(** [path.posix.basename(path)] *)
Definition posix_basename (path : jsstring) : jsstring := last_component path.

(** [path.posix.extname(path)]: from the last dot of the last component to its
    end; empty when there is no dot, when the only dot starts the component, and
    for the component [..]. *)
Definition posix_extname (path : jsstring) : jsstring :=
  let component := last_component path in
  let r := rev component in
  match dropWhile (fun c => negb (is_dot c)) r with
  | [] => []
  | _ :: [] => []
  | _ :: _ :: _ =>
      if jsstring_eqb component (js "..") then []
      else 46%N :: rev (takeWhile (fun c => negb (is_dot c)) r)
  end.

(** Components of a path between separators. *)
Fixpoint components (path : jsstring) (current : jsstring) : list jsstring :=
  match path with
  | [] => [current]
  | c :: rest =>
      if is_slash c then current :: components rest []
      else components rest (current ++ [c])
  end.

(** One component seen by [normalizeString]; [stack] holds the components kept
    so far, last first. *)
Definition normalize_step (allowAboveRoot : bool) (stack : list jsstring)
    (component : jsstring) : list jsstring :=
  if is_empty component || jsstring_eqb component (js ".") then stack
  else if jsstring_eqb component (js "..") then
    match stack with
    | top :: below =>
        if jsstring_eqb top (js "..")
        then (if allowAboveRoot then component :: stack else stack)
        else below
    | [] => if allowAboveRoot then [component] else []
    end
  else component :: stack.

Fixpoint intercalate (sep : jsstring) (l : list jsstring) : jsstring :=
  match l with
  | [] => []
  | [x] => x
  | x :: rest => x ++ sep ++ intercalate sep rest
  end.

(** [path.posix.normalize(path)] *)
Definition posix_normalize (path : jsstring) : jsstring :=
  match path with
  | [] => js "."
  | first :: _ =>
      let isAbsolute := is_slash first in
      let trailingSeparator := is_slash (last path 0%N) in
      let kept := fold_left (normalize_step (negb isAbsolute)) (components path []) [] in
      let body := intercalate (js "/") (rev kept) in
      match body with
      | [] => if isAbsolute then js "/"
              else if trailingSeparator then js "./" else js "."
      | _ =>
          let body := if trailingSeparator then body ++ js "/" else body in
          if isAbsolute then js "/" ++ body else body
      end
  end.

(** [path.posix.join(a, b)] *)
Definition posix_join (a b : jsstring) : jsstring :=
  match filter (fun s => negb (is_empty s)) [a; b] with
  | [] => js "."
  | parts => posix_normalize (intercalate (js "/") parts)
  end.

(** Does [s] start with [prefix]; what follows it. *)
Fixpoint strip_prefix (prefix s : jsstring) : option jsstring :=
  match prefix, s with
  | [], _ => Some s
  | p :: prefix', c :: s' => if N.eqb p c then strip_prefix prefix' s' else None
  | _ :: _, [] => None
  end.

(** Split [s] at the first occurrence of [sep]. *)
Fixpoint split_at (sep : jsstring) (s : jsstring) (before : jsstring)
    : option (jsstring * jsstring) :=
  match strip_prefix sep s with
  | Some after => Some (before, after)
  | None =>
      match s with
      | [] => None
      | c :: s' => split_at sep s' (before ++ [c])
      end
  end.

(** [url.parse(href)], fields [path] and [href], for the addresses the model is
    run on: [scheme://host/pathname?query#hash] written in lower case, without
    credentials and without characters that [url.parse] escapes; any other
    string is taken as a relative reference.  [path] is the pathname followed by
    the query. *)
Definition simple_url_parse (s : jsstring) : Result Url :=
  let main := takeWhile (fun c => negb (N.eqb c 35)) s in
  let hash := dropWhile (fun c => negb (N.eqb c 35)) s in
  match split_at (js "://") main [] with
  | Some (scheme, rest) =>
      let not_delim := fun c => negb (is_slash c || N.eqb c 63) in
      let host := takeWhile not_delim rest in
      let tail := dropWhile not_delim rest in
      let pathname := takeWhile (fun c => negb (N.eqb c 63)) tail in
      let search := dropWhile (fun c => negb (N.eqb c 63)) tail in
      let path := (if is_empty pathname then js "/" else pathname) ++ search in
      Ok (mkUrl (Some path) (scheme ++ js "://" ++ host ++ path ++ hash))
  | None =>
      Ok (mkUrl (if is_empty main then None else Some main) s)
  end.

(** ** [decodeURI] (ECMA-262, Decode with the reserved set [;/?:@&=+$,#]) *)

Definition hex_digit (c : N) : option N :=
  (if (48 <=? c) && (c <=? 57) then Some (c - 48)
   else if (65 <=? c) && (c <=? 70) then Some (c - 55)
   else if (97 <=? c) && (c <=? 102) then Some (c - 87)
   else None)%N.

(** The octet written [%XY] at the start of [s], and what follows it. *)
Definition escaped_octet (s : jsstring) : option (N * jsstring) :=
  match s with
  | c :: h :: l :: rest =>
      if N.eqb c 37 then
        match hex_digit h, hex_digit l with
        | Some a, Some b => Some ((16 * a + b)%N, rest)
        | _, _ => None
        end
      else None
  | _ => None
  end.

(** [n] continuation octets [10xxxxxx] written as escapes, folded into the
    code point [acc]. *)
Fixpoint continuation (n : nat) (acc : N) (s : jsstring) : option (N * jsstring) :=
  match n with
  | O => Some (acc, s)
  | S n' =>
      match escaped_octet s with
      | Some (b, rest) =>
          if N.eqb (N.land b 192) 128
          then continuation n' (64 * acc + N.land b 63)%N rest
          else None
      | None => None
      end
  end.

Definition uri_reserved (c : N) : bool :=
  existsb (N.eqb c) (js ";/?:@&=+$,#").

(** UTF-16 code units of a code point. *)
Definition utf16 (v : N) : jsstring :=
  (if v <? 65536 then [v]
   else [55296 + (v - 65536) / 1024; 56320 + (v - 65536) mod 1024])%N.

Fixpoint decode (fuel : nat) (s : jsstring) : option jsstring :=
  match fuel, s with
  | _, [] => Some []
  | O, _ :: _ => None
  | S fuel', c :: rest =>
      if negb (N.eqb c 37) then option_map (cons c) (decode fuel' rest)
      else
        match escaped_octet s with
        | None => None
        | Some (b, after) =>
            (if b <? 128 then
               if uri_reserved b
               then option_map (app (firstn 3 s)) (decode fuel' after)
               else option_map (cons b) (decode fuel' after)
             else
               let multi (n : nat) (lead least : N) :=
                 match continuation n lead after with
                 | Some (v, after') =>
                     if (least <=? v) && (v <=? 1114111) &&
                        negb ((55296 <=? v) && (v <=? 57343))
                     then option_map (app (utf16 v)) (decode fuel' after')
                     else None
                 | None => None
                 end in
               if N.land b 224 =? 192 then multi 1%nat (N.land b 31) 128
               else if N.land b 240 =? 224 then multi 2%nat (N.land b 15) 2048
               else if N.land b 248 =? 240 then multi 3%nat (N.land b 7) 65536
               else None)%N
        end
  end.

Definition ecma_decodeURI (s : jsstring) : option jsstring :=
  decode (length s) s.

(** The platform: Node on POSIX, the program installed in [dirname]. *)
Definition posix (dirname : jsstring) : Platform :=
  {| url_parse := simple_url_parse;
     path_extname := posix_extname;
     path_basename := posix_basename;
     path_join := posix_join;
     decodeURI := ecma_decodeURI;
     __dirname := dirname |}.

(** * Auxiliary definitions for the proofs about the scheduler *)

(** The stage in which a call of the closure leaves its activation. *)
Definition fresh (net : Network) (a : Activation) : Prop :=
  stage a = if threw net a then Settled false else AwaitGet.

(** The requests of a batch [acts] of which the first [m] are started. *)
Definition requests_at (acts : list Action) (m : nat) : list Request :=
  map (mkRequest true) (firstn m acts) ++ map (mkRequest false) (skipn m acts).

(** ** The structure of a run

    Requests are started in list order, so the started requests are a prefix of
    [requestsList] and activation [k] belongs to request [k]. *)
Record Shape (net : Network) (cap : Number) (acts : list Action) (w : World)
    : Prop := {
  sh_max : _maxRequests (this w) = cap;
  sh_cb : allRequestsCompleted (this w) = Resolve;
  sh_len : (length (activations w) <= length acts)%nat;
  sh_closures : map closure (activations w) = firstn (length (activations w)) acts;
  sh_requests : requestsList (this w) = requests_at acts (length (activations w));
  sh_tasks : map task (activations w) = seq 0 (length (activations w));
  sh_completed : completedRequests (this w) = Z.of_nat (count settled (activations w));
  sh_new :
    Permutation (newMagazines (this w))
                (map (fun a => filename (closure a)) (filter succeeded (activations w)));
  sh_threw :
    forall a, In a (activations w) -> threw net a = true -> stage a = Settled false
}.

(** What a pass of [startNext] may rely on: a request is started only when the
    test of the cap would also fail for a counter of zero. *)
Definition Ready (cap : Number) (w : World) : Prop :=
  (running_ge (runningRequests (this w)) cap = false -> running_ge 0 cap = false) /\
  (activations w <> [] -> running_ge 0 cap = false).

(** What a pass of [startNext] from [w] to [w'] does; [new] are the
    activations of the closures it calls, those called by nested passes
    included. *)
Record Pass (net : Network) (cap : Number) (acts : list Action)
    (w : World) (new : list Activation) (w' : World) : Prop := {
  ps_shape : Shape net cap acts w';
  ps_acts : activations w' = activations w ++ new;
  ps_fresh : Forall (fresh net) new;
  ps_news : newMagazines (this w') = newMagazines (this w);
  ps_running :
    runningRequests (this w') =
    runningRequests (this w) + Z.of_nat (count unsettled new);
  ps_bound :
    forall L, running_ge L cap = true ->
      runningRequests (this w') <=
      Z.max (runningRequests (this w)) L + Z.of_nat (count settled new);
  ps_calls_lo : (resolveCalls w <= resolveCalls w')%nat;
  ps_calls_hi : (resolveCalls w' <= resolveCalls w + 1 + count settled new)%nat;
  ps_calls_done :
    (resolveCalls w < resolveCalls w')%nat ->
    (length acts <= count settled (activations w'))%nat;
  ps_finish :
    (running_ge (runningRequests (this w')) cap = true /\ (0 < length acts)%nat) \/
    (length (activations w') = length acts /\
     ((length acts <= count settled (activations w'))%nat ->
      (resolveCalls w < resolveCalls w')%nat));
  ps_positive : activations w' <> [] -> running_ge 0 cap = false
}.

(** ** The invariant of a run, between two events *)
Record Struct (net : Network) (cap : Number) (acts : list Action) (w : World)
    : Prop := {
  st_max : _maxRequests (this w) = cap;
  st_cb : allRequestsCompleted (this w) = Resolve;
  st_len : (length (activations w) <= length acts)%nat;
  st_closures : map closure (activations w) = firstn (length (activations w)) acts;
  st_requests :
    requestsList (this w) =
    map (mkRequest true) (firstn (length (activations w)) acts) ++
    map (mkRequest false) (skipn (length (activations w)) acts);
  st_tasks : map task (activations w) = seq 0 (length (activations w));
  st_running : runningRequests (this w) = Z.of_nat (count unsettled (activations w));
  st_completed : completedRequests (this w) = Z.of_nat (count settled (activations w));
  st_new :
    Permutation (newMagazines (this w))
                (map (fun a => filename (closure a)) (filter succeeded (activations w)));
  st_threw :
    forall a, In a (activations w) -> threw net a = true -> stage a = Settled false;
  st_positive : activations w <> [] -> running_ge 0 cap = false
}.

Record Inv (net : Network) (cap : Number) (acts : list Action) (w : World)
    : Prop := {
  inv_struct : Struct net cap acts w;
  inv_busy :
    running_ge (runningRequests (this w)) cap = false ->
    length (activations w) = length acts;
  inv_resolve :
    resolved w = true <-> Z.of_nat (length acts) <= completedRequests (this w);
  inv_calls : (resolveCalls w <= 1 + count (threw net) (activations w))%nat;
  inv_cap :
    forall L, 0 <= L -> running_ge L cap = true ->
      runningRequests (this w) <= L + Z.of_nat (count (threw net) (activations w))
}.

(** What any pass of [startNext] leaves as it is, whatever the world it is
    called in: it only appends activations. *)
Record Frame (w w' : World) : Prop := {
  fr_max : _maxRequests (this w') = _maxRequests (this w);
  fr_cb : allRequestsCompleted (this w') = allRequestsCompleted (this w);
  fr_news : newMagazines (this w') = newMagazines (this w);
  fr_requests : map scrape (requestsList (this w')) = map scrape (requestsList (this w));
  fr_acts : exists new, activations w' = activations w ++ new
}.

(** * Auxiliary definitions for the proofs about extraction and enrollment *)

(** The downloads [scrape] enrolls for the extracted [links]. *)
Definition scheduled {node : Platform} (fs_access : jsstring -> bool)
    (directory : jsstring) (skipExisting : bool)
    (links : list ProgrammerMagazineLink) : list Action :=
  map (download_of directory)
      (filter (fun link =>
                 negb (skipExisting && fs_access (filename (download_of directory link))))
              links).

(** The links one anchor contributes. *)
Definition anchor_links {node : Platform} (section_id : jsstring) (format : Element)
    : list ProgrammerMagazineLink :=
  match getLinks_anchor section_id format with
  | Ok (Some link) => [link]
  | _ => []
  end.

(** The anchors [getLinks] looks at, each with the identifier of its section. *)
Definition processed_anchors (dom : Document) : list (jsstring * Element) :=
  flat_map
    (fun section =>
       if is_empty (elem_id section) then []
       else match getMagazineLinksTable dom section with
            | [] => []
            | linksTable :: _ =>
                map (pair (elem_id section)) (getMagazineLinks linksTable)
            end)
    (getMagazinesSections dom).

(** [getLinks] fails at the first processed anchor at which [url.parse] or
    [decodeURI] throws: [e] is what that anchor throws. *)
Definition first_failure {node : Platform} (anchors : list (jsstring * Element))
    (e : Exception) : Prop :=
  exists before a after,
    anchors = before ++ a :: after /\
    (forall b, In b before -> exists r, getLinks_anchor (fst b) (snd b) = Ok r) /\
    getLinks_anchor (fst a) (snd a) = Throw e.


(** * A concrete batch

    Five downloads, run with a cap of two; the third one is rejected by the
    server. *)
Definition issue (name : string) : Action :=
  mkAction (js ("https://example.com/issue/" ++ name))
           (js "out/2020") (js ("out/2020/" ++ name)).

Definition five_issues : list Action :=
  map issue ["1.pdf"; "2.pdf"; "3.pdf"; "4.pdf"; "5.pdf"]%string.

Definition third_fails : list Event :=
  [ mkEvent 0 true; mkEvent 1 true; mkEvent 0 true; mkEvent 0 true;
    mkEvent 2 false;
    mkEvent 1 true; mkEvent 1 true;
    mkEvent 3 true; mkEvent 4 true; mkEvent 3 true; mkEvent 4 true;
    mkEvent 4 true; mkEvent 3 true ].

(** A network on which [request.get] returns a promise for every address. *)
Definition reliable : Network := {| get_throws := fun _ => false |}.

(** A network on which [request.get] throws inside the call for the addresses
    ending in [bad]. *)
Definition ends_in_bad (u : jsstring) : bool :=
  jsstring_eqb (skipn (length u - 3) u) (js "bad").

Definition faulty : Network := {| get_throws := ends_in_bad |}.

Definition world_after {net : Network} (maxRequests : Number) (acts : list Action)
    (es : list Event) : World :=
  match run (dispatch maxRequests acts) es with
  | Some w => w
  | None => dispatch maxRequests acts
  end.

(** The run after its first four events: the first download has been written,
    the second and the third are in flight. *)
Definition five_issues_midway : World :=
  Eval vm_compute in
    world_after (net := reliable) (integer 2) five_issues (firstn 4 third_fails).

(** The run after all its events. *)
Definition five_issues_done : World :=
  Eval vm_compute in world_after (net := reliable) (integer 2) five_issues third_fails.

(** * A concrete page *)
Definition anchor (address : string) : Element :=
  Elem (js "a") [] [] (js address) [].

Definition cell (content : list Element) : Element :=
  Elem (js "tr") [] [] [] [Elem (js "td") [] [] [] content].

Definition links_table (rows : list Element) : Element :=
  Elem (js "table") [] [js "table"; js "borderless"] [] rows.

Definition magazine_section (ident : string) (content : list Element) : Element :=
  Elem (js "div") (js ident) [js "section-magazine"] [] content.

(** A page with a doctype: the document is not in quirks mode. *)
Definition page (sections : list Element) : Document :=
  mkDocument false
    (Elem (js "html") [] [] []
       [Elem (js "head") [] [] [] []; Elem (js "body") [] [] [] sections]).

(** One issue offered as a PDF, with a link to its description (no extension)
    in the same table, an EPUB in a second table, and a section without
    identifier. *)
Definition my_magazines : Document :=
  page
    [ magazine_section "2020-01"
        [ links_table
            [ cell [anchor "https://example.com/issue/2020-01.pdf"];
              cell [anchor "https://example.com/issue/2020-01"] ];
          links_table
            [ cell [anchor "https://example.com/issue/2020-01.epub"] ] ];
      magazine_section ""
        [ links_table [ cell [anchor "https://example.com/issue/2019-12.pdf"] ] ] ].


(** A page with a file name that is not a well-formed escape sequence. *)
Definition malformed_escape : Document :=
  page
    [ magazine_section "2020-01"
        [ links_table
            [ cell [anchor "https://example.com/issue/100%.pdf"] ] ] ].

(** A page without a doctype, so in quirks mode, whose class names are
    written with capital letters; the first table of its section holds the
    PDF. *)
Definition quirks_page : Document :=
  mkDocument true
    (Elem (js "html") [] [] []
       [Elem (js "head") [] [] [] [];
        Elem (js "body") [] [] []
          [Elem (js "div") (js "2020-01") [js "Section-Magazine"] []
             [Elem (js "table") [] [js "Borderless"] []
                [cell [anchor "https://example.com/issue/2020-01.pdf"]];
              Elem (js "table") [] [js "borderless"] []
                [cell [anchor "https://example.com/issue/2020-01.epub"]]]]]).

(** A scraper object as the constructor leaves it, with the cap set. *)
Definition new_scraper (maxRequests : Number) : Scraper :=
  {| _maxRequests := maxRequests;
     runningRequests := 0;
     completedRequests := 0;
     requestsList := [];
     allRequestsCompleted := Noop;
     newMagazines := [] |}.

(** Batches for the network [faulty]. *)
Definition fetch (name : string) : Action :=
  mkAction (js ("https://example.com/" ++ name)) (js "out") (js ("out/" ++ name)).

(** The first request is one whose [request.get] throws inside the call. *)
Definition bad_first : list Action := map fetch ["bad"; "b.pdf"; "c.pdf"]%string.

(** Five requests, the last of which throws inside the call. *)
Definition bad_last : list Action :=
  map fetch ["1.pdf"; "2.pdf"; "3.pdf"; "4.pdf"; "bad"]%string.

(** All promises of the first four downloads of [bad_last] are fulfilled, one
    download after the other. *)
Definition four_written : list Event :=
  [ mkEvent 0 true; mkEvent 0 true; mkEvent 0 true;
    mkEvent 1 true; mkEvent 1 true; mkEvent 1 true;
    mkEvent 2 true; mkEvent 2 true; mkEvent 2 true;
    mkEvent 3 true; mkEvent 3 true; mkEvent 3 true ].

(** The run of [bad_last] with a cap of one after these events. *)
Definition bad_last_done : World :=
  Eval vm_compute in world_after (net := faulty) (integer 1) bad_last four_written.


(** * Measures of a run *)

(** Promises an activation still has to see settled before its [finally]
    block has run. *)
Definition remaining (st : Stage) : nat :=
  match st with
  | AwaitGet => 3
  | AwaitMkdir => 2
  | AwaitWrite => 1
  | Settled _ => 0
  end.

(** Promises still to be settled in a batch of [n] requests: those of the
    activations, and three for each request not yet called. *)
Definition work (n : nat) (w : World) : nat :=
  list_sum (map (fun a => remaining (stage a)) (activations w)) +
  3 * (n - length (activations w)).

(** The activation ended in its [catch] clause. *)
Definition failed (a : Activation) : bool :=
  match stage a with Settled false => true | _ => false end.


(** * The program

    The async function called at the end of [prog.ts]. *)

(** [new ProgrammerMagazineScraper(username, password)]: the field
    initialisers of the class. *)
Definition ProgrammerMagazineScraper_new : Scraper :=
  {| _maxRequests := integer 3;
     runningRequests := 0;
     completedRequests := 0;
     requestsList := [];
     allRequestsCompleted := Noop;
     newMagazines := [] |}.

(** [get maxRequests()] and [set maxRequests(requests)] *)
Definition get_maxRequests (s : Scraper) : Number := _maxRequests s.

Definition set_maxRequests (requests : Number) (s : Scraper) : Scraper :=
  {| _maxRequests := requests;
     runningRequests := runningRequests s;
     completedRequests := completedRequests s;
     requestsList := requestsList s;
     allRequestsCompleted := allRequestsCompleted s;
     newMagazines := newMagazines s |}.

(** [process.env] and [process.argv] *)
Record Process := mkProcess {
  USERNAME : option jsstring;
  PASSWORD : option jsstring;
  SLACK_TOKEN : option jsstring;
  SLACK_CHANNELS : option jsstring;
  argv : list jsstring
}.

(** How far the program has come. *)
Inductive Outcome :=
| MissingVariables
    (* console.log('Please set enviromental variables'); return *)
| Downloading (w : World)
    (* await scraper.scrape(directory) has not returned yet *)
| Complete (magazines : list jsstring) (uploads : list Upload)
    (* the try block ran to its end *)
| Caught (e : Exception) (magazines : option (list jsstring)) (uploads : list Upload).
    (* catch (err) { console.log(err) }; [magazines] if 'complete' was printed *)

Definition unwrap (s : option jsstring) : jsstring :=
  match s with Some v => v | None => [] end.

Section Main.
Context {node : Platform} {net : Network}.

(** The program in an environment: [login username password] is the outcome of
    the login request, [fs_access] the files that exist, [events] the
    settlements that have occurred while the downloads run, [slack] the Slack
    service.  [None]: [events] is not a sequence of settlements of this run. *)
Definition main (p : Process) (login : jsstring -> jsstring -> Result Document)
    (fs_access : jsstring -> bool) (events : list Event) (slack : Slack)
    : option Outcome :=
  if negb (truthy (USERNAME p)) || negb (truthy (PASSWORD p))
  then Some MissingVariables
  else
    let username := unwrap (USERNAME p) in
    let password := unwrap (PASSWORD p) in
    let directory :=
      if Nat.eqb (length (argv p)) 3 then nth 2 (argv p) [] else [] in
    let scraper := set_maxRequests (integer 5) ProgrammerMagazineScraper_new in
    match Scraper_scrape (login username password) fs_access scraper directory true with
    | Throw e => Some (Caught e None [])
    | Ok w0 =>
        match run w0 events with
        | None => None
        | Some w =>
            match scrape_result w with
            | None => Some (Downloading w)
            | Some magazines =>
                if truthy (SLACK_TOKEN p) && truthy (SLACK_CHANNELS p)
                then
                  match uploadNewMagazines slack (unwrap (SLACK_TOKEN p))
                                           (unwrap (SLACK_CHANNELS p)) magazines with
                  | (uploads, Ok _) => Some (Complete magazines uploads)
                  | (uploads, Throw e) => Some (Caught e (Some magazines) uploads)
                  end
                else Some (Complete magazines [])
            end
        end
    end.

End Main.

(** A concrete environment: both credentials and both Slack variables set,
    no directory argument, the page [my_magazines], an empty disk. *)
Definition a_process : Process :=
  {| USERNAME := Some (js "reader");
     PASSWORD := Some (js "secret");
     SLACK_TOKEN := Some (js "token");
     SLACK_CHANNELS := Some (js "#magazines");
     argv := [js "node"; js "prog.js"] |}.

Definition a_login (username password : jsstring) : Result Document :=
  if jsstring_eqb username (js "reader") && jsstring_eqb password (js "secret")
  then Ok my_magazines else Throw RequestError.

(** The world of that program right after [scrape] has called [startNext]. *)
Definition a_process_downloading : World :=
  Eval vm_compute in
    dispatch (net := reliable) (integer 5) [mkAction (js "https://example.com/issue/2020-01.pdf")
                         (js "/app/programista/2020-01")
                         (js "/app/programista/2020-01/2020-01.pdf")].

(** * The first version of the scraper

    The class in the second source file: the same [getLinks], the same loop in
    [startNext] and the same closure, without [completedRequests],
    [newMagazines] and the promise of completion.  Its [scrape] calls
    [startNext] after every [push], so downloads run while later links are
    still being visited. *)
Module Legacy.

Record Scraper := mkScraper {
  _maxRequests : Number;
  runningRequests : Z;
  requestsList : list Request
}.

(** [links]: what the loop of [scrape] has still to visit. *)
Record World := mkWorld {
  this : Scraper;
  activations : list Activation;
  links : list ProgrammerMagazineLink
}.

(** [req.started = true; req.scrape()] for the request at index [i], up to the
    point where the call suspends at its first [await] or has run
    [this.runningRequests--] of its [finally] block. *)
Definition called (i : nat) (req : Request) (st : Stage) (less : Z) (w : World)
    : World :=
  let s := this w in
  mkWorld {| _maxRequests := _maxRequests s;
             runningRequests := runningRequests s - less;
             requestsList := set_started i (requestsList s) |}
          (activations w ++ [mkActivation i (scrape req) st])
          (links w).

(** [++this.runningRequests] *)
Definition increment_running (w : World) : World :=
  let s := this w in
  mkWorld {| _maxRequests := _maxRequests s;
             runningRequests := runningRequests s + 1;
             requestsList := requestsList s |}
          (activations w) (links w).

Section Loop.
Context {net : Network}.

(** [this.startNext()] as called from the [finally] block of a closure whose
    [request.get] throws inside the call. *)
Variable nested : World -> World.

(** The loop of [startNext] from index [i], with [k] elements left; nothing
    follows it. *)
Fixpoint startNext_loop (k i : nat) (w : World) : World :=
  match k with
  | O => w
  | S k' =>
      match nth_error (requestsList (this w)) i with
      | None => w
      | Some req =>
          if running_ge (runningRequests (this w)) (_maxRequests (this w)) then w
          else if started req then startNext_loop k' (S i) w
          else
            let w1 :=
              if get_throws (uri (scrape req))
              then nested (called i req (Settled false) 1 w)
              else called i req AwaitGet 0 w in
            startNext_loop k' (S i) (increment_running w1)
      end
  end.

End Loop.

Fixpoint startNext_within {net : Network} (depth : nat) (w : World) : World :=
  startNext_loop
    (match depth with
     | O => fun w' => w'
     | S d => startNext_within d
     end)
    (length (requestsList (this w))) 0 w.

Definition startNext {net : Network} (w : World) : World :=
  startNext_within (count (fun r => negb (started r)) (requestsList (this w))) w.

Definition suspend_at (k : nat) (st : Stage) (w : World) : World :=
  mkWorld (this w) (set_stage k st (activations w)) (links w).

Section Scrape.
Context {node : Platform} {net : Network}.

(** The [finally] block: [this.runningRequests--; this.startNext();]. *)
Definition finally (k : nat) (ok : bool) (w : World) : World :=
  let s := this w in
  startNext
    (mkWorld {| _maxRequests := _maxRequests s;
                runningRequests := runningRequests s - 1;
                requestsList := requestsList s |}
             (set_stage k (Settled ok) (activations w))
             (links w)).

(** One resumption of the closure of [scraperFactory]. *)
Definition resume (w : World) (e : Event) : option World :=
  let k := ev_activation e in
  match nth_error (activations w) k with
  | None => None
  | Some a =>
      match stage a, ev_ok e with
      | Settled _, _ => None
      | AwaitGet, true => Some (suspend_at k AwaitMkdir w)
      | AwaitMkdir, true => Some (suspend_at k AwaitWrite w)
      | AwaitWrite, true => Some (finally k true w)
      | _, false => Some (finally k false w)
      end
  end.

(** [scraperFactory(link.url, magazinefolder, filename)] with
    [magazinefolder = path.join(__dirname, 'magazines', link.id)], the three
    segments joined from left to right. *)
Definition download_of (link : ProgrammerMagazineLink) : Action :=
  let magazinefolder :=
    path_join (path_join __dirname (js "magazines")) (id link) in
  mkAction (url link) magazinefolder (path_join magazinefolder (link_filename link)).

(** [this.requestsList.push({ started: false, scrape: ... }); this.startNext();] *)
Definition push_and_start (a : Action) (w : World) : World :=
  let s := this w in
  startNext
    (mkWorld {| _maxRequests := _maxRequests s;
                runningRequests := runningRequests s;
                requestsList := requestsList s ++ [mkRequest false a] |}
             (activations w) (links w)).

(** What happens next: the loop of [scrape] visits its next link, [present]
    telling whether [fs.access] was fulfilled; or an awaited promise of a
    download settles. *)
Inductive Step :=
| Visit (present : bool)
| Settle (e : Event).

Definition rest_of (w : World) (rest : list ProgrammerMagazineLink) : World :=
  mkWorld (this w) (activations w) rest.

(** One step.  With [skipExisting = false] the loop of [scrape] has no
    [await]: no download is resumed before the loop has ended. *)
Definition step (skipExisting : bool) (w : World) (s : Step) : option World :=
  match s with
  | Visit present =>
      match links w with
      | [] => None
      | link :: rest =>
          if skipExisting && present then Some (rest_of w rest)
          else Some (push_and_start (download_of link) (rest_of w rest))
      end
  | Settle e =>
      match links w with
      | _ :: _ => if skipExisting then resume w e else None
      | [] => resume w e
      end
  end.

Fixpoint run (skipExisting : bool) (w : World) (ss : list Step) : option World :=
  match ss with
  | [] => Some w
  | s :: ss' =>
      match step skipExisting w s with
      | Some w' => run skipExisting w' ss'
      | None => None
      end
  end.

(** [scrape(skipExisting)] once [getLinks] has returned [found], on a scraper
    whose list is empty. *)
Definition scrape (maxRequests : Number) (found : list ProgrammerMagazineLink) : World :=
  mkWorld {| _maxRequests := maxRequests;
             runningRequests := 0;
             requestsList := [] |}
          [] found.

Definition reachable (maxRequests : Number) (skipExisting : bool)
    (found : list ProgrammerMagazineLink) (w : World) : Prop :=
  exists ss, run skipExisting (scrape maxRequests found) ss = Some w.

End Scrape.

End Legacy.

(** A world of the first version and a world of the scheduler that agree on
    the cap, the counter of running requests, the requests and the
    activations. *)
Definition agree (W : World) (w : Legacy.World) : Prop :=
  _maxRequests (this W) = Legacy._maxRequests (Legacy.this w) /\
  runningRequests (this W) = Legacy.runningRequests (Legacy.this w) /\
  requestsList (this W) = Legacy.requestsList (Legacy.this w) /\
  activations W = Legacy.activations w.

(** The world of the scheduler with one more unstarted request. *)
Definition pushed (a : Action) (W : World) : World :=
  mkWorld {| _maxRequests := _maxRequests (this W);
             runningRequests := runningRequests (this W);
             completedRequests := completedRequests (this W);
             requestsList := requestsList (this W) ++ [mkRequest false a];
             allRequestsCompleted := allRequestsCompleted (this W);
             newMagazines := newMagazines (this W) |}
          (activations W) 0.

(** A run of the first version with a cap of two: of three links the second
    is found on the disk; the first download is rejected. *)
Definition three_links : list ProgrammerMagazineLink :=
  [ mkLink (js "2020-01") (js "https://example.com/issue/2020-01.pdf") (js "2020-01.pdf");
    mkLink (js "2020-02") (js "https://example.com/issue/2020-02.pdf") (js "2020-02.pdf");
    mkLink (js "2020-03") (js "https://example.com/issue/2020-03.pdf") (js "2020-03.pdf") ].

Definition three_links_steps : list Legacy.Step :=
  [ Legacy.Visit false; Legacy.Visit true; Legacy.Visit false;
    Legacy.Settle (mkEvent 0 false) ].

Definition three_links_world : Legacy.World :=
  Eval vm_compute in
    match Legacy.run (node := posix (js "/app")) (net := reliable) true
                     (Legacy.scrape (integer 2) three_links) three_links_steps with
    | Some w => w
    | None => Legacy.scrape (integer 2) three_links
    end.

(** Five links of which the third is one whose [request.get] throws inside
    the call; no file is on the disk. *)
Definition bad_third : list ProgrammerMagazineLink :=
  [ mkLink (js "a") (js "https://example.com/a.pdf") (js "a.pdf");
    mkLink (js "b") (js "https://example.com/b.pdf") (js "b.pdf");
    mkLink (js "c") (js "https://example.com/bad") (js "c.pdf");
    mkLink (js "d") (js "https://example.com/d.pdf") (js "d.pdf");
    mkLink (js "e") (js "https://example.com/e.pdf") (js "e.pdf") ].

(** * The scheduler: lemmas *)

(** ** The comparison with the cap *)

Lemma running_ge_mono cap a b :
  a <= b -> running_ge a cap = true -> running_ge b cap = true.
Proof.
  intros Hab. destruct cap as [q| | |]; cbn; auto.
  rewrite !Qle_bool_iff. intros H.
  eapply Qle_trans; [exact H|]. now rewrite <- Zle_Qle.
Qed.

Lemma running_ge_below cap a L :
  running_ge a cap = false -> running_ge L cap = true -> a < L.
Proof.
  intros Ha HL. destruct (Z.lt_ge_cases a L) as [|Hge]; [assumption|].
  rewrite (running_ge_mono cap L a) in Ha by (assumption || lia). discriminate.
Qed.

Lemma running_ge_integer n a : running_ge a (integer n) = (n <=? a).
Proof.
  unfold running_ge, integer.
  destruct (Z.leb_spec n a) as [H|H].
  - apply Qle_bool_iff. now rewrite <- Zle_Qle.
  - destruct (Qle_bool (inject_Z n) (inject_Z a)) eqn:E; [|reflexivity].
    apply Qle_bool_iff in E. rewrite <- Zle_Qle in E. lia.
Qed.

(** ** Counting *)

Lemma count_app {A} (p : A -> bool) l1 l2 :
  count p (l1 ++ l2) = (count p l1 + count p l2)%nat.
Proof. unfold count. rewrite filter_app, length_app. reflexivity. Qed.

Lemma count_cons {A} (p : A -> bool) x l :
  count p (x :: l) = ((if p x then 1 else 0) + count p l)%nat.
Proof. unfold count. simpl. now destruct (p x). Qed.

Lemma count_le_length {A} (p : A -> bool) l : (count p l <= length l)%nat.
Proof. unfold count. apply filter_length_le. Qed.

Lemma count_settled_unsettled l :
  (count settled l + count unsettled l = length l)%nat.
Proof.
  unfold count, unsettled. induction l as [|a l IH]; simpl; auto.
  destruct (settled a); simpl; lia.
Qed.

Lemma count_ext_in {A} (p q : A -> bool) l :
  (forall x, In x l -> p x = q x) -> count p l = count q l.
Proof. intros H. unfold count. f_equal. now apply filter_ext_in. Qed.

Lemma count_map {A B} (f : A -> B) (p : B -> bool) l :
  count p (map f l) = count (fun x => p (f x)) l.
Proof.
  unfold count. induction l as [|x l IH]; simpl; auto.
  destruct (p (f x)); simpl; auto.
Qed.

Lemma count_none {A} (p : A -> bool) l :
  (forall x, In x l -> p x = false) -> count p l = 0%nat.
Proof.
  induction l as [|x l IH]; intros H; [reflexivity|].
  rewrite count_cons, (H x) by (simpl; auto).
  apply IH. intros y Hy. apply H. now right.
Qed.

Lemma count_all {A} (p : A -> bool) l :
  count p l = length l <-> (forall x, In x l -> p x = true).
Proof.
  induction l as [|x l IH]; [cbn; tauto|].
  rewrite count_cons. pose proof (count_le_length p l). cbn [length In].
  destruct (p x) eqn:E; split.
  - intros H0 y [<-|Hy]; [exact E|].
    apply (proj1 IH); [lia|exact Hy].
  - intros H0. cbn. f_equal. apply (proj2 IH). auto.
  - lia.
  - intros H0. rewrite (H0 x) in E by auto. discriminate.
Qed.

Lemma count_pos {A} (p : A -> bool) l x :
  In x l -> p x = true -> (0 < count p l)%nat.
Proof.
  induction l as [|y l IH]; [intros []|].
  intros [<-|Hin] Hp; rewrite count_cons.
  - rewrite Hp. lia.
  - specialize (IH Hin Hp). lia.
Qed.

Lemma count_pos_exists {A} (p : A -> bool) l :
  (0 < count p l)%nat -> exists x, In x l /\ p x = true.
Proof.
  induction l as [|y l IH]; [cbn; lia|].
  rewrite count_cons. destruct (p y) eqn:E.
  - intros _. exists y. cbn; auto.
  - intros H. destruct (IH H) as (x & Hx & Hp). exists x. cbn; auto.
Qed.

Lemma count_and_le {A} (p q : A -> bool) l :
  (count (fun x => p x && q x) l <= count p l)%nat.
Proof.
  induction l as [|y l IH]; [cbn; lia|].
  rewrite !count_cons. destruct (p y), (q y); cbn; lia.
Qed.

(** A closure threw inside its call exactly when the call left it settled. *)
Lemma fresh_settled net a : fresh net a -> settled a = threw net a.
Proof. unfold fresh, settled. intros ->. now destruct (threw net a). Qed.

Lemma fresh_count_settled net new :
  Forall (fresh net) new -> count settled new = count (threw net) new.
Proof.
  intros H. apply count_ext_in. intros a Ha.
  apply fresh_settled. now apply (proj1 (Forall_forall _ _) H).
Qed.

Lemma fresh_not_succeeded net new :
  Forall (fresh net) new -> filter succeeded new = [].
Proof.
  induction 1 as [|a l Ha _ IH]; [reflexivity|].
  cbn [filter]. unfold succeeded at 1. rewrite Ha, IH.
  now destruct (threw net a).
Qed.

(** ** Lists *)

Lemma firstn_snoc {A} (l : list A) m c :
  nth_error l m = Some c -> firstn (S m) l = firstn m l ++ [c].
Proof.
  revert m; induction l as [|x l IH]; intros [|m] H; cbn in *; try discriminate.
  - now inversion H.
  - f_equal. now apply IH.
Qed.

Lemma skipn_cons_nth {A} (l : list A) m c :
  nth_error l m = Some c -> skipn m l = c :: skipn (S m) l.
Proof.
  revert m; induction l as [|x l IH]; intros [|m] H; cbn in *; try discriminate.
  - now inversion H.
  - now apply IH.
Qed.

Lemma nth_error_firstn_skipn {A} (l : list A) k a :
  nth_error l k = Some a -> l = firstn k l ++ a :: skipn (S k) l.
Proof.
  intros H. rewrite <- (skipn_cons_nth _ _ _ H). symmetry. apply firstn_skipn.
Qed.

Lemma firstn_In {A} (x : A) n : forall l, In x (firstn n l) -> In x l.
Proof.
  induction n as [|n IH]; intros [|y l]; cbn; try tauto.
  intros [->|H]; auto.
Qed.

(** ** The requests of a structured world *)

Section Requests.
Variable acts : list Action.

Lemma requests_at_length m : length (requests_at acts m) = length acts.
Proof.
  unfold requests_at.
  rewrite length_app, !length_map, <- length_app, firstn_skipn. reflexivity.
Qed.

Lemma requests_at_started m i r :
  (i < m)%nat -> nth_error (requests_at acts m) i = Some r -> started r = true.
Proof.
  intros Hi H. unfold requests_at in H.
  destruct (Nat.lt_ge_cases i (length (map (mkRequest true) (firstn m acts))))
    as [Hlt|Hge].
  - rewrite nth_error_app1 in H by assumption.
    apply nth_error_In, in_map_iff in H. destruct H as (c & <- & _). reflexivity.
  - rewrite length_map, length_firstn in Hge.
    assert (Hn : (length acts <= i)%nat) by lia.
    assert (Hlt : (i < length (map (mkRequest true) (firstn m acts) ++
                               map (mkRequest false) (skipn m acts)))%nat)
      by (apply nth_error_Some; congruence).
    rewrite length_app, !length_map, <- length_app, firstn_skipn in Hlt. lia.
Qed.

Lemma requests_at_next m :
  (m <= length acts)%nat ->
  nth_error (requests_at acts m) m = option_map (mkRequest false) (nth_error acts m).
Proof.
  intros Hm. unfold requests_at.
  assert (Hl : length (map (mkRequest true) (firstn m acts)) = m)
    by (rewrite length_map, length_firstn; lia).
  rewrite nth_error_app2 by lia. rewrite Hl, Nat.sub_diag.
  destruct (nth_error acts m) as [c|] eqn:E.
  - rewrite (skipn_cons_nth _ _ _ E). reflexivity.
  - apply nth_error_None in E. rewrite skipn_all2 by lia. reflexivity.
Qed.

Lemma set_started_requests_at m c :
  nth_error acts m = Some c ->
  set_started m (requests_at acts m) = requests_at acts (S m).
Proof.
  intros E.
  assert (Hm : (m < length acts)%nat) by (apply nth_error_Some; congruence).
  unfold set_started. rewrite requests_at_next by lia. rewrite E. cbn [option_map scrape].
  unfold requests_at.
  assert (Hl : length (map (mkRequest true) (firstn m acts)) = m)
    by (rewrite length_map, length_firstn; lia).
  rewrite firstn_app, skipn_app, Hl, Nat.sub_diag.
  rewrite (firstn_all2 (n := m) (map (mkRequest true) (firstn m acts))) by lia.
  rewrite (skipn_all2 (n := S m) (map (mkRequest true) (firstn m acts))) by lia.
  replace (S m - m)%nat with 1%nat by lia.
  rewrite (skipn_cons_nth _ _ _ E), (firstn_snoc _ _ _ E).
  cbn [firstn skipn map app]. rewrite app_nil_r, map_app, <- app_assoc.
  reflexivity.
Qed.

Lemma unstarted_requests_at m :
  count (fun r => negb (started r)) (requests_at acts m) = (length acts - m)%nat.
Proof.
  unfold requests_at. rewrite count_app, !count_map. cbn [started negb].
  rewrite count_none by reflexivity.
  rewrite (proj2 (count_all _ _)) by reflexivity.
  rewrite length_skipn. reflexivity.
Qed.

End Requests.

(** ** One pass of [startNext] *)

Lemma completion_test_this w : this (completion_test w) = this w.
Proof. unfold completion_test. now destruct (_ >=? _). Qed.

Lemma completion_test_activations w :
  activations (completion_test w) = activations w.
Proof. unfold completion_test. now destruct (_ >=? _). Qed.

Lemma completion_test_calls w :
  resolveCalls (completion_test w) =
  if completedRequests (this w) >=? Z.of_nat (length (requestsList (this w)))
  then call (allRequestsCompleted (this w)) (resolveCalls w)
  else resolveCalls w.
Proof. unfold completion_test. now destruct (_ >=? _). Qed.

Section PassLemmas.
Context {net : Network}.
Variables (cap : Number) (acts : list Action).

Lemma Shape_requests_length w :
  Shape net cap acts w -> length (requestsList (this w)) = length acts.
Proof. intros Sh. rewrite (sh_requests _ _ _ _ Sh). apply requests_at_length. Qed.

Lemma Shape_unstarted w :
  Shape net cap acts w ->
  unstarted (this w) = (length acts - length (activations w))%nat.
Proof.
  intros Sh. unfold unstarted. rewrite (sh_requests _ _ _ _ Sh).
  apply unstarted_requests_at.
Qed.

(** The structure does not depend on [runningRequests] and [resolveCalls]. *)
Lemma Shape_ext w w' :
  Shape net cap acts w ->
  _maxRequests (this w') = _maxRequests (this w) ->
  allRequestsCompleted (this w') = allRequestsCompleted (this w) ->
  requestsList (this w') = requestsList (this w) ->
  completedRequests (this w') = completedRequests (this w) ->
  newMagazines (this w') = newMagazines (this w) ->
  activations w' = activations w ->
  Shape net cap acts w'.
Proof.
  intros [] H1 H2 H3 H4 H5 H6. split; rewrite ?H1, ?H2, ?H3, ?H4, ?H5, ?H6; assumption.
Qed.

(** The loop has run to its end: the completion test. *)
Lemma Pass_end w :
  Shape net cap acts w -> Ready cap w ->
  length (activations w) = length acts ->
  Pass net cap acts w [] (completion_test w).
Proof.
  intros Sh [_ Hpos] Hm.
  pose proof (completion_test_calls w) as Hc.
  rewrite (Shape_requests_length _ Sh), (sh_cb _ _ _ _ Sh),
    (sh_completed _ _ _ _ Sh) in Hc. cbn [call] in Hc.
  split; rewrite ?completion_test_this, ?completion_test_activations.
  - apply (Shape_ext w); auto;
      now rewrite ?completion_test_this, ?completion_test_activations.
  - now rewrite app_nil_r.
  - constructor.
  - reflexivity.
  - cbn. lia.
  - intros L _. cbn. lia.
  - rewrite Hc. destruct (_ >=? _); lia.
  - rewrite Hc. destruct (_ >=? _); cbn; lia.
  - rewrite Hc. destruct (Z.geb_spec (Z.of_nat (count settled (activations w)))
                                     (Z.of_nat (length acts))); lia.
  - right. split; [exact Hm|]. intros Hdone. rewrite Hc.
    destruct (Z.geb_spec (Z.of_nat (count settled (activations w)))
                         (Z.of_nat (length acts))); lia.
  - exact Hpos.
Qed.

(** The loop is left through its [return]. *)
Lemma Pass_return w :
  Shape net cap acts w -> Ready cap w ->
  running_ge (runningRequests (this w)) cap = true ->
  (0 < length acts)%nat ->
  Pass net cap acts w [] w.
Proof.
  intros Sh [_ Hpos] Hge Hn. split; auto.
  - now rewrite app_nil_r.
  - cbn. lia.
  - intros L _. cbn. lia.
  - lia.
  - lia.
Qed.

(** A pass that follows calls of closures. *)
Lemma Pass_after w new1 w1 new2 w' :
  activations w1 = activations w ++ new1 ->
  Forall (fresh net) new1 ->
  newMagazines (this w1) = newMagazines (this w) ->
  runningRequests (this w1) =
    runningRequests (this w) + Z.of_nat (count unsettled new1) ->
  (forall L, running_ge L cap = true ->
     runningRequests (this w1) <= L + Z.of_nat (count settled new1)) ->
  (resolveCalls w <= resolveCalls w1 <= resolveCalls w + count settled new1)%nat ->
  ((resolveCalls w < resolveCalls w1)%nat ->
   (length acts <= count settled (activations w1))%nat) ->
  Pass net cap acts w1 new2 w' ->
  Pass net cap acts w (new1 ++ new2) w'.
Proof.
  intros H1 H2 H3 H4 H5 H6 H7 P.
  pose proof (ps_acts _ _ _ _ _ _ P) as Ha.
  pose proof (ps_calls_lo _ _ _ _ _ _ P) as Hlo.
  pose proof (ps_calls_hi _ _ _ _ _ _ P) as Hhi.
  split.
  - apply P.
  - rewrite Ha, H1. now rewrite app_assoc.
  - apply Forall_app. split; [exact H2|apply P].
  - rewrite (ps_news _ _ _ _ _ _ P). exact H3.
  - rewrite (ps_running _ _ _ _ _ _ P), H4, count_app. lia.
  - intros L HL. pose proof (ps_bound _ _ _ _ _ _ P L HL).
    specialize (H5 L HL). rewrite count_app. lia.
  - lia.
  - rewrite count_app. lia.
  - intros Hlt.
    destruct (Nat.lt_ge_cases (resolveCalls w1) (resolveCalls w')) as [Hc|Hc].
    + now apply (ps_calls_done _ _ _ _ _ _ P).
    + assert (Hlt1 : (resolveCalls w < resolveCalls w1)%nat) by lia.
      specialize (H7 Hlt1). rewrite Ha, count_app. lia.
  - destruct (ps_finish _ _ _ _ _ _ P) as [Hf|[Hm Hf]]; [now left|right].
    split; [exact Hm|]. intros Hd. specialize (Hf Hd). lia.
  - apply P.
Qed.

(** The world after [req.started = true; req.scrape()] on the first request
    that is not started. *)
Lemma called_Shape w c st less more :
  Shape net cap acts w ->
  nth_error acts (length (activations w)) = Some c ->
  fresh net (mkActivation (length (activations w)) c st) ->
  more = (if get_throws (uri c) then 1 else 0) ->
  Shape net cap acts
    (called (length (activations w)) (mkRequest false c) st less more w).
Proof.
  intros Sh E Hf Hmore.
  set (m := length (activations w)) in *.
  assert (Hm : (m < length acts)%nat) by (apply nth_error_Some; congruence).
  assert (Hst : settled (mkActivation m c st) = get_throws (uri c))
    by (rewrite (fresh_settled _ _ Hf); reflexivity).
  assert (Hlen : length (activations w ++ [mkActivation m c st]) = Datatypes.S m)
    by (rewrite length_app; cbn; fold m; lia).
  split; cbn [called this activations _maxRequests runningRequests
              completedRequests requestsList allRequestsCompleted newMagazines
              scrape]; rewrite ?Hlen.
  - apply Sh.
  - apply Sh.
  - lia.
  - rewrite map_app, (sh_closures _ _ _ _ Sh). fold m. cbn [map closure].
    symmetry. now apply firstn_snoc.
  - rewrite (sh_requests _ _ _ _ Sh). fold m.
    now apply (set_started_requests_at acts m c).
  - rewrite map_app, (sh_tasks _ _ _ _ Sh). fold m. cbn [map task].
    now rewrite seq_S.
  - rewrite count_app, count_cons, Hst, (sh_completed _ _ _ _ Sh), Hmore.
    destruct (get_throws (uri c)); cbn; lia.
  - rewrite filter_app, (fresh_not_succeeded net [_]) by (constructor; auto).
    rewrite app_nil_r. apply Sh.
  - intros a Ha Ht. apply in_app_or in Ha. destruct Ha as [Ha|[<-|[]]].
    + now apply (sh_threw _ _ _ _ Sh).
    + red in Hf. now rewrite Ht in Hf.
Qed.

Section LoopSpec.
Variable nested : World -> World.
Variable budget : nat.
Hypothesis nested_spec :
  forall w, Shape net cap acts w -> Ready cap w ->
    (length acts - length (activations w) < budget)%nat ->
    exists new, Pass net cap acts w new (nested w).

Lemma startNext_loop_spec : forall k i w,
  Shape net cap acts w -> Ready cap w ->
  (k + i = length acts)%nat ->
  (i <= length (activations w))%nat ->
  (length acts - length (activations w) <= budget)%nat ->
  exists new, Pass net cap acts w new (startNext_loop nested k i w).
Proof.
  induction k as [|k IH]; intros i w Sh R Hk Hi Hb.
  - exists []. cbn. apply Pass_end; auto.
    pose proof (sh_len _ _ _ _ Sh). lia.
  - cbn [startNext_loop].
    pose proof (sh_len _ _ _ _ Sh) as Hlen.
    rewrite (sh_max _ _ _ _ Sh).
    destruct (nth_error (requestsList (this w)) i) as [req|] eqn:E.
    2:{ apply nth_error_None in E. rewrite (Shape_requests_length _ Sh) in E. lia. }
    destruct (running_ge (runningRequests (this w)) cap) eqn:Hge.
    { exists []. apply Pass_return; auto. lia. }
    assert (G : running_ge 0 cap = false) by (apply (proj1 R); exact Hge).
    rewrite (sh_requests _ _ _ _ Sh) in E.
    destruct (Nat.eq_dec i (length (activations w))) as [->|Hne].
    2:{ assert (Hlt : (i < length (activations w))%nat) by lia.
        rewrite (requests_at_started _ _ _ _ Hlt E). apply IH; auto; lia. }
    set (m := length (activations w)) in *.
    change (nth_error (requests_at acts m) m = Some req) in E.
    rewrite requests_at_next in E by lia.
    destruct (nth_error acts m) as [c|] eqn:Ec; [|discriminate].
    cbn [option_map] in E. inversion E; subst req; clear E.
    cbn [started scrape].
    assert (Hbelow : forall L, running_ge L cap = true -> runningRequests (this w) < L)
      by (intros L HL; eapply running_ge_below; eauto).
    destruct (get_throws (uri c)) eqn:Ethrow.
    + (* request.get throws inside the call *)
      set (a := mkActivation m c (Settled false)).
      assert (Hf : fresh net a) by (unfold fresh, threw; cbn; now rewrite Ethrow).
      pose proof (called_Shape w c (Settled false) 1 1 Sh Ec Hf
                    ltac:(now rewrite Ethrow)) as S0.
      fold m in S0. set (w0 := called m (mkRequest false c) (Settled false) 1 1 w) in *.
      assert (Hl0 : length (activations w0) = Datatypes.S m)
        by (unfold w0; cbn; rewrite length_app; cbn; fold m; lia).
      assert (R0 : Ready cap w0) by (split; intros _; exact G).
      destruct (nested_spec w0 S0 R0 ltac:(lia)) as (new0 & P0).
      pose proof (ps_acts _ _ _ _ _ _ P0) as Ha0.
      set (w1 := increment_running (nested w0)).
      assert (S1 : Shape net cap acts w1)
        by (apply (Shape_ext (nested w0)); auto; apply P0).
      assert (R1 : Ready cap w1) by (split; intros _; exact G).
      assert (Hl1 : length (activations w1) = (Datatypes.S m + length new0)%nat).
      { unfold w1. cbn [increment_running activations].
        rewrite Ha0, length_app. lia. }
      destruct (IH (Datatypes.S m) w1 S1 R1 ltac:(lia) ltac:(lia) ltac:(lia))
        as (new2 & P2).
      assert (Hr0 : runningRequests (this w0) = runningRequests (this w) - 1)
        by reflexivity.
      assert (Hc0 : resolveCalls w0 = resolveCalls w) by reflexivity.
      assert (Hr1 : runningRequests (this w1) = runningRequests (this (nested w0)) + 1)
        by reflexivity.
      assert (Hc1 : resolveCalls w1 = resolveCalls (nested w0)) by reflexivity.
      assert (Ha1 : activations w1 = activations (nested w0)) by reflexivity.
      assert (Hsa : settled a = true) by reflexivity.
      assert (Hua : unsettled a = false) by reflexivity.
      pose proof (ps_calls_lo _ _ _ _ _ _ P0) as Hlo0.
      pose proof (ps_calls_hi _ _ _ _ _ _ P0) as Hhi0.
      exists ((a :: new0) ++ new2).
      apply (Pass_after w (a :: new0) w1 new2);
        [ rewrite Ha1, Ha0; unfold w0; cbn [called activations scrape];
          now rewrite <- app_assoc
        | constructor; [exact Hf|apply P0]
        | unfold w1; cbn [increment_running this newMagazines];
          now rewrite (ps_news _ _ _ _ _ _ P0)
        | rewrite Hr1, (ps_running _ _ _ _ _ _ P0), Hr0, count_cons, Hua; lia
        | intros L HL; pose proof (ps_bound _ _ _ _ _ _ P0 L HL) as Hb0;
          specialize (Hbelow L HL); rewrite Hr1, count_cons, Hsa; lia
        | rewrite Hc1, count_cons, Hsa; lia
        | intros Hlt; rewrite Ha1; apply (ps_calls_done _ _ _ _ _ _ P0); lia
        | exact P2 ].
    + (* the closure suspends at its first await *)
      set (a := mkActivation m c AwaitGet).
      assert (Hf : fresh net a) by (unfold fresh, threw; cbn; now rewrite Ethrow).
      pose proof (called_Shape w c AwaitGet 0 0 Sh Ec Hf
                    ltac:(now rewrite Ethrow)) as S0.
      fold m in S0. set (w0 := called m (mkRequest false c) AwaitGet 0 0 w) in *.
      set (w1 := increment_running w0).
      assert (S1 : Shape net cap acts w1) by (apply (Shape_ext w0); auto).
      assert (R1 : Ready cap w1) by (split; intros _; exact G).
      assert (Hl1 : length (activations w1) = Datatypes.S m)
        by (unfold w1, w0; cbn; rewrite length_app; cbn; fold m; lia).
      destruct (IH (Datatypes.S m) w1 S1 R1 ltac:(lia) ltac:(lia) ltac:(lia))
        as (new2 & P2).
      assert (Hr1 : runningRequests (this w1) = runningRequests (this w) + 1)
        by (unfold w1, w0; cbn; lia).
      assert (Hc1 : resolveCalls w1 = resolveCalls w) by reflexivity.
      assert (Hsa : settled a = false) by reflexivity.
      assert (Hua : unsettled a = true) by reflexivity.
      exists ([a] ++ new2).
      apply (Pass_after w [a] w1 new2);
        [ reflexivity
        | constructor; [exact Hf|constructor]
        | reflexivity
        | rewrite Hr1, count_cons, Hua; cbn; lia
        | intros L HL; specialize (Hbelow L HL); rewrite Hr1; lia
        | rewrite Hc1; lia
        | rewrite Hc1; lia
        | exact P2 ].
Qed.

End LoopSpec.

Lemma startNext_within_spec : forall depth w,
  Shape net cap acts w -> Ready cap w ->
  (length acts - length (activations w) <= depth)%nat ->
  exists new, Pass net cap acts w new (startNext_within depth w).
Proof.
  induction depth as [|d IH]; intros w Sh R Hd; cbn [startNext_within];
    rewrite (Shape_requests_length _ Sh).
  - apply (startNext_loop_spec _ 0);
      [intros w0 _ _ H; lia|assumption|assumption|lia|lia|lia].
  - apply (startNext_loop_spec _ (Datatypes.S d));
      [intros w0 S0 R0 H; apply IH; auto; lia|assumption|assumption|lia|lia|lia].
Qed.

Lemma startNext_spec w :
  Shape net cap acts w -> Ready cap w ->
  exists new, Pass net cap acts w new (startNext w).
Proof.
  intros Sh R. unfold startNext. apply startNext_within_spec; auto.
  rewrite (Shape_unstarted _ Sh). lia.
Qed.

End PassLemmas.

(** ** Settling one activation *)

Lemma set_stage_split acts k a st :
  nth_error acts k = Some a ->
  exists l1 l2,
    acts = l1 ++ a :: l2 /\
    set_stage k st acts = l1 ++ mkActivation (task a) (closure a) st :: l2.
Proof.
  intros H. exists (firstn k acts), (skipn (S k) acts). split.
  - now apply nth_error_firstn_skipn.
  - unfold set_stage. now rewrite H.
Qed.

Lemma set_stage_task acts k st : map task (set_stage k st acts) = map task acts.
Proof.
  destruct (nth_error acts k) as [a|] eqn:E.
  - destruct (set_stage_split _ _ _ st E) as (l1 & l2 & -> & ->).
    now rewrite !map_app.
  - unfold set_stage. now rewrite E.
Qed.

Lemma set_stage_closure acts k st :
  map closure (set_stage k st acts) = map closure acts.
Proof.
  destruct (nth_error acts k) as [a|] eqn:E.
  - destruct (set_stage_split _ _ _ st E) as (l1 & l2 & -> & ->).
    now rewrite !map_app.
  - unfold set_stage. now rewrite E.
Qed.

Lemma set_stage_length acts k st : length (set_stage k st acts) = length acts.
Proof.
  rewrite <- (length_map task), set_stage_task. apply length_map.
Qed.

Lemma set_stage_threw net acts k st :
  count (threw net) (set_stage k st acts) = count (threw net) acts.
Proof.
  unfold threw.
  rewrite <- !(count_map closure (fun c => get_throws (uri c))).
  now rewrite set_stage_closure.
Qed.

Lemma set_stage_settle acts k a ok :
  nth_error acts k = Some a -> settled a = false ->
  count settled (set_stage k (Settled ok) acts) = S (count settled acts) /\
  count unsettled acts = S (count unsettled (set_stage k (Settled ok) acts)).
Proof.
  intros E Ha.
  destruct (set_stage_split _ _ _ (Settled ok) E) as (l1 & l2 & -> & ->).
  rewrite !count_app, !count_cons. unfold unsettled. rewrite Ha. cbn. lia.
Qed.

Lemma set_stage_suspend acts k a st :
  nth_error acts k = Some a -> settled a = false ->
  (forall ok, st <> Settled ok) ->
  count settled (set_stage k st acts) = count settled acts /\
  count unsettled (set_stage k st acts) = count unsettled acts /\
  filter succeeded (set_stage k st acts) = filter succeeded acts.
Proof.
  intros E Ha Hst.
  assert (Hs : succeeded a = false).
  { unfold succeeded, settled in *. destruct (stage a); congruence. }
  destruct (set_stage_split _ _ _ st E) as (l1 & l2 & -> & ->).
  rewrite !count_app, !count_cons, !filter_app. cbn [filter].
  unfold unsettled. rewrite Ha, Hs.
  assert (settled (mkActivation (task a) (closure a) st) = false) as ->.
  { unfold settled; cbn. destruct st; auto. now elim (Hst ok). }
  assert (succeeded (mkActivation (task a) (closure a) st) = false) as ->.
  { unfold succeeded; cbn. destruct st; auto. now elim (Hst ok). }
  auto.
Qed.

Lemma set_stage_succeeded acts k a ok :
  nth_error acts k = Some a -> settled a = false ->
  Permutation
    (map (fun a => filename (closure a))
         (filter succeeded (set_stage k (Settled ok) acts)))
    (map (fun a => filename (closure a)) (filter succeeded acts) ++
     (if ok then [filename (closure a)] else [])).
Proof.
  intros E Ha.
  assert (Hs : succeeded a = false).
  { unfold succeeded, settled in *. destruct (stage a); congruence. }
  destruct (set_stage_split _ _ _ (Settled ok) E) as (l1 & l2 & -> & ->).
  rewrite !filter_app. cbn [filter]. rewrite Hs.
  unfold succeeded at 2. cbn [stage].
  destruct ok.
  - rewrite !map_app. cbn [map closure]. rewrite <- app_assoc.
    apply Permutation_app_head. apply Permutation_cons_append.
  - rewrite app_nil_r. reflexivity.
Qed.

Lemma set_stage_forall (P : Activation -> Prop) acts k a st :
  nth_error acts k = Some a ->
  (forall x, In x acts -> P x) ->
  P (mkActivation (task a) (closure a) st) ->
  forall x, In x (set_stage k st acts) -> P x.
Proof.
  intros E Hall Hnew x Hx.
  destruct (set_stage_split _ _ _ st E) as (l1 & l2 & Heq & Hset).
  rewrite Hset in Hx. rewrite Heq in Hall.
  apply in_app_or in Hx. destruct Hx as [Hx|[<-|Hx]]; auto.
  - apply Hall. apply in_or_app. now left.
  - apply Hall. apply in_or_app. right. now right.
Qed.

Lemma unsettled_count_lt acts k a :
  nth_error acts k = Some a -> settled a = false ->
  (count settled acts < length acts)%nat /\ (0 < count unsettled acts)%nat.
Proof.
  intros E Ha.
  destruct (nth_error_split _ _ E) as (l1 & l2 & -> & _).
  pose proof (count_settled_unsettled (l1 ++ a :: l2)) as H.
  rewrite !count_app, !count_cons in *. unfold unsettled in *.
  rewrite Ha in *. cbn in *. lia.
Qed.

Section Invariant.
Context {net : Network}.
Variables (cap : Number) (acts : list Action).

Lemma Struct_Shape w : Struct net cap acts w -> Shape net cap acts w.
Proof. intros []. now split. Qed.

Lemma finally_settling k ok w :
  finally k ok w = startNext (settling k ok (newMagazines (this w)) w).
Proof. reflexivity. Qed.

(** An activation that is not settled belongs to a closure that did not throw
    inside its call. *)
Lemma unsettled_not_threw w a :
  Struct net cap acts w -> In a (activations w) -> settled a = false ->
  threw net a = false.
Proof.
  intros St Ha Hs. destruct (threw net a) eqn:E; [|reflexivity].
  unfold settled in Hs. now rewrite (st_threw _ _ _ _ St a Ha E) in Hs.
Qed.

(** A pass of [startNext] made when no request is being called, with nothing
    resolved yet, establishes the invariant. *)
Lemma startNext_Inv w :
  Shape net cap acts w ->
  runningRequests (this w) = Z.of_nat (count unsettled (activations w)) ->
  (activations w <> [] -> running_ge 0 cap = false) ->
  resolveCalls w = 0%nat ->
  (forall L, 0 <= L -> running_ge L cap = true ->
     runningRequests (this w) <= L + Z.of_nat (count (threw net) (activations w))) ->
  exists new, Pass net cap acts w new (startNext w) /\ Inv net cap acts (startNext w).
Proof.
  intros Sh Hrun Hpos Hres Hcap.
  assert (R : Ready cap w).
  { split; [|exact Hpos]. intros Hge.
    destruct (running_ge 0 cap) eqn:E; [|reflexivity].
    rewrite (running_ge_mono cap 0 (runningRequests (this w))) in Hge
      by (assumption || lia). discriminate. }
  destruct (startNext_spec cap acts w Sh R) as (new & P).
  exists new. split; [exact P|].
  pose proof (ps_shape _ _ _ _ _ _ P) as Sh'.
  pose proof (ps_acts _ _ _ _ _ _ P) as Ha.
  pose proof (ps_running _ _ _ _ _ _ P) as Hr.
  pose proof (fresh_count_settled _ _ (ps_fresh _ _ _ _ _ _ P)) as Hfs.
  pose proof (sh_len _ _ _ _ Sh') as Hlen.
  pose proof (count_settled_unsettled (activations (startNext w))) as Hsum.
  pose proof (count_le_length settled (activations (startNext w))) as Hle.
  assert (Hrun' : runningRequests (this (startNext w)) =
                  Z.of_nat (count unsettled (activations (startNext w)))).
  { rewrite Hr, Ha, count_app, Hrun. lia. }
  split; [split; try apply Sh'; auto|..].
  - apply P.
  - intros Hge. destruct (ps_finish _ _ _ _ _ _ P) as [[Hf _]|[Hm _]]; [|exact Hm].
    rewrite Hf in Hge. discriminate.
  - unfold resolved. rewrite (sh_completed _ _ _ _ Sh'). split.
    + intros H. apply Nat.ltb_lt in H.
      pose proof (ps_calls_done _ _ _ _ _ _ P ltac:(lia)). lia.
    + intros H. apply Nat.ltb_lt.
      destruct (ps_finish _ _ _ _ _ _ P) as [[Hf Hn]|[_ Hf]].
      * assert (Hz : runningRequests (this (startNext w)) = 0) by lia.
        rewrite Hz in Hf.
        rewrite (ps_positive _ _ _ _ _ _ P) in Hf; [discriminate|].
        intros E. rewrite E in H. cbn in H. lia.
      * specialize (Hf ltac:(lia)). lia.
  - pose proof (ps_calls_hi _ _ _ _ _ _ P). rewrite Ha, count_app. lia.
  - intros L HL Hge. pose proof (ps_bound _ _ _ _ _ _ P L Hge).
    specialize (Hcap L HL Hge). rewrite Ha, count_app. lia.
Qed.

Lemma settling_Shape w k a ok :
  Inv net cap acts w ->
  nth_error (activations w) k = Some a -> settled a = false ->
  Shape net cap acts
    (settling k ok
       (newMagazines (this w) ++ (if ok then [filename (closure a)] else [])) w).
Proof.
  intros [St Hbusy Hres Hcalls Hcap] E Ha.
  destruct (set_stage_settle _ _ _ ok E Ha) as [Hs Hu].
  split; cbn [settling this activations _maxRequests runningRequests
              completedRequests requestsList allRequestsCompleted newMagazines];
    rewrite ?set_stage_length, ?set_stage_task, ?set_stage_closure; try apply St.
  - rewrite (st_completed _ _ _ _ St). lia.
  - rewrite (set_stage_succeeded _ _ _ ok E Ha).
    apply Permutation_app_tail. apply St.
  - apply (set_stage_forall _ _ _ _ (Settled ok) E (st_threw _ _ _ _ St)).
    unfold threw at 1. cbn [closure stage]. intros Ht.
    pose proof (unsettled_not_threw w a St (nth_error_In _ _ E) Ha) as Hn.
    unfold threw in Hn. congruence.
Qed.

(** The [finally] block of an activation that was resumed by an event. *)
Lemma finally_Inv w k a ok :
  Inv net cap acts w ->
  nth_error (activations w) k = Some a -> settled a = false ->
  let w0 := settling k ok
              (newMagazines (this w) ++ (if ok then [filename (closure a)] else []))
              w in
  exists new, Pass net cap acts w0 new (startNext w0) /\
              Inv net cap acts (startNext w0).
Proof.
  intros I E Ha w0.
  pose proof (settling_Shape w k a ok I E Ha) as Sh0. fold w0 in Sh0.
  destruct (unsettled_count_lt _ _ _ E Ha) as [Hlt Hpos].
  destruct (set_stage_settle _ _ _ ok E Ha) as [Hs Hu].
  pose proof I as [St Hbusy Hres Hcalls Hcap].
  assert (Hne : running_ge 0 cap = false).
  { apply (st_positive _ _ _ _ St). intros E0. rewrite E0 in E.
    destruct k; discriminate. }
  apply startNext_Inv; auto.
  - unfold w0. cbn [settling this runningRequests activations].
    rewrite (st_running _ _ _ _ St). lia.
  - unfold w0. cbn [settling resolveCalls].
    destruct (resolveCalls w) as [|n] eqn:En; [reflexivity|].
    assert (Hr : resolved w = true) by (unfold resolved; now rewrite En).
    apply Hres in Hr. rewrite (st_completed _ _ _ _ St) in Hr.
    pose proof (st_len _ _ _ _ St). lia.
  - intros L HL Hge. specialize (Hcap L HL Hge).
    unfold w0. cbn [settling this runningRequests activations].
    rewrite set_stage_threw. lia.
Qed.

Lemma suspend_Inv w k a st :
  Inv net cap acts w ->
  nth_error (activations w) k = Some a -> settled a = false ->
  (forall ok, st <> Settled ok) ->
  Inv net cap acts (suspend_at k st w).
Proof.
  intros I E Ha Hst.
  destruct (set_stage_suspend _ _ _ st E Ha Hst) as (Hs & Hu & Hf).
  destruct I as [St Hbusy Hres Hcalls Hcap].
  split; [split|..];
    cbn [suspend_at this activations resolveCalls];
    rewrite ?set_stage_length, ?set_stage_task, ?set_stage_closure,
            ?set_stage_threw, ?Hs, ?Hu, ?Hf;
    try apply St; auto.
  - apply (set_stage_forall _ _ _ _ st E (st_threw _ _ _ _ St)).
    unfold threw at 1. cbn [closure stage]. intros Ht.
    pose proof (unsettled_not_threw w a St (nth_error_In _ _ E) Ha) as Hn.
    unfold threw in Hn. congruence.
  - intros _. apply (st_positive _ _ _ _ St). intros E0. rewrite E0 in E.
    destruct k; discriminate.
Qed.

(** ** Every event preserves the invariant *)

Lemma enrolled_Shape : Shape net cap acts (enrolled cap acts).
Proof.
  split; cbn; auto; try reflexivity; try lia; try (intros a []).
Qed.

Lemma dispatch_Pass_Inv :
  exists new, Pass net cap acts (enrolled cap acts) new (dispatch cap acts) /\
              Inv net cap acts (dispatch cap acts).
Proof.
  apply startNext_Inv; cbn; auto; try reflexivity; try lia.
  - apply enrolled_Shape.
  - intros H; now elim H.
Qed.

Lemma dispatch_Inv : Inv net cap acts (dispatch cap acts).
Proof. destruct dispatch_Pass_Inv as (new & _ & I). exact I. Qed.

Lemma resume_Inv w e w' :
  Inv net cap acts w -> resume w e = Some w' -> Inv net cap acts w'.
Proof.
  intros I H. unfold resume in H.
  destruct (nth_error (activations w) (ev_activation e)) as [a|] eqn:E;
    [|discriminate].
  assert (Hfin : forall (ok : bool) news,
    settled a = false ->
    news = newMagazines (this w) ++ (if ok then [filename (closure a)] else []) ->
    Inv net cap acts (startNext (settling (ev_activation e) ok news w))).
  { intros ok news Ha ->.
    destruct (finally_Inv w _ a ok I E Ha) as (new & _ & I'). exact I'. }
  destruct (stage a) eqn:Est; destruct (ev_ok e) eqn:Eok;
    try discriminate; inversion H; subst w'; clear H.
  - eapply suspend_Inv; eauto; [unfold settled; now rewrite Est|discriminate].
  - rewrite finally_settling. apply Hfin; [unfold settled; now rewrite Est|].
    now rewrite app_nil_r.
  - eapply suspend_Inv; eauto; [unfold settled; now rewrite Est|discriminate].
  - rewrite finally_settling. apply Hfin; [unfold settled; now rewrite Est|].
    now rewrite app_nil_r.
  - apply (Hfin true); [unfold settled; now rewrite Est|reflexivity].
  - rewrite finally_settling. apply Hfin; [unfold settled; now rewrite Est|].
    now rewrite app_nil_r.
Qed.

Lemma run_Inv es : forall w w',
  Inv net cap acts w -> run w es = Some w' -> Inv net cap acts w'.
Proof.
  induction es as [|e es IH]; intros w w' I H; simpl in H.
  - now inversion H; subst.
  - destruct (resume w e) as [w1|] eqn:E; [|discriminate].
    eapply IH; [|exact H]. eapply resume_Inv; eauto.
Qed.

Lemma reachable_Inv w : reachable cap acts w -> Inv net cap acts w.
Proof. intros [es H]. eapply run_Inv; [apply dispatch_Inv|exact H]. Qed.

End Invariant.

(** ** The nesting of [startNext]

    A pass calls itself only through a closure it has just marked as started, so
    passes are nested at most as deep as there are requests that are not
    started: a larger bound on the depth gives the same pass. *)

Lemma count_zero_none {A} (p : A -> bool) l :
  count p l = 0%nat -> forall x, In x l -> p x = false.
Proof.
  intros H x Hx. destruct (p x) eqn:E; [|reflexivity].
  pose proof (count_pos p l x Hx E). lia.
Qed.


Section Fuel.
Context {net : Network}.




(** A pass made while the cap is reached, or when every request is started,
    calls no closure and changes no field of the scraper. *)
Lemma startNext_loop_idle nested : forall k i w,
  running_ge (runningRequests (this w)) (_maxRequests (this w)) = true \/
  unstarted (this w) = 0%nat ->
  this (startNext_loop nested k i w) = this w /\
  activations (startNext_loop nested k i w) = activations w /\
  (resolveCalls w <= resolveCalls (startNext_loop nested k i w))%nat.
Proof.
  assert (Htest : forall w, this (completion_test w) = this w /\
                            activations (completion_test w) = activations w /\
                            (resolveCalls w <= resolveCalls (completion_test w))%nat).
  { intros w. rewrite completion_test_this, completion_test_activations,
      completion_test_calls.
    repeat split. destruct (_ >=? _); [|lia].
    destruct (allRequestsCompleted (this w)); cbn; lia. }
  induction k as [|k IH]; intros i w H; cbn [startNext_loop]; [apply Htest|].
  destruct (nth_error (requestsList (this w)) i) as [req|] eqn:E; [|apply Htest].
  destruct (running_ge _ _) eqn:Hge; [repeat split; lia|].
  destruct H as [H|H]; [congruence|].
  pose proof (count_zero_none _ _ H req (nth_error_In _ _ E)) as Hs.
  apply negb_false_iff in Hs. rewrite Hs. apply IH. now right.
Qed.

Lemma startNext_idle w :
  running_ge (runningRequests (this w)) (_maxRequests (this w)) = true \/
  unstarted (this w) = 0%nat ->
  this (startNext w) = this w /\
  activations (startNext w) = activations w /\
  (resolveCalls w <= resolveCalls (startNext w))%nat.
Proof.
  intros H. unfold startNext.
  assert (Hd : forall d,
    this (startNext_within d w) = this w /\
    activations (startNext_within d w) = activations w /\
    (resolveCalls w <= resolveCalls (startNext_within d w))%nat)
    by (intros [|d]; cbn [startNext_within]; now apply startNext_loop_idle).
  apply Hd.
Qed.

End Fuel.

(** ** What a pass leaves as it is *)

Lemma Frame_refl w : Frame w w.
Proof. split; auto. exists []. now rewrite app_nil_r. Qed.

Lemma Frame_trans w1 w2 w3 : Frame w1 w2 -> Frame w2 w3 -> Frame w1 w3.
Proof.
  intros [A1 A2 A3 A4 (n1 & A5)] [B1 B2 B3 B4 (n2 & B5)].
  split; try congruence.
  exists (n1 ++ n2). rewrite B5, A5. now rewrite app_assoc.
Qed.

Lemma set_started_scrape i reqs :
  map scrape (set_started i reqs) = map scrape reqs.
Proof.
  unfold set_started. destruct (nth_error reqs i) as [req|] eqn:E; [|reflexivity].
  rewrite (nth_error_firstn_skipn _ _ _ E) at 3.
  now rewrite !map_app.
Qed.

Lemma Frame_called i req st less more w : Frame w (called i req st less more w).
Proof.
  split; cbn [called this activations _maxRequests allRequestsCompleted
              newMagazines requestsList]; auto.
  - apply set_started_scrape.
  - eauto.
Qed.

Lemma Frame_increment w : Frame w (increment_running w).
Proof. split; cbn; auto. exists []. now rewrite app_nil_r. Qed.

Lemma Frame_completion_test w : Frame w (completion_test w).
Proof.
  split; rewrite ?completion_test_this, ?completion_test_activations; auto.
  exists []. now rewrite app_nil_r.
Qed.

Section FrameLemmas.
Context {net : Network}.

Lemma startNext_loop_Frame nested :
  (forall w, Frame w (nested w)) ->
  forall k i w, Frame w (startNext_loop nested k i w).
Proof.
  intros Hn. induction k as [|k IH]; intros i w; cbn [startNext_loop].
  - apply Frame_completion_test.
  - destruct (nth_error (requestsList (this w)) i) as [req|];
      [|apply Frame_completion_test].
    destruct (running_ge _ _); [apply Frame_refl|].
    destruct (started req); [apply IH|].
    eapply Frame_trans; [|apply IH].
    eapply Frame_trans; [|apply Frame_increment].
    destruct (get_throws _).
    + eapply Frame_trans; [apply Frame_called|apply Hn].
    + apply Frame_called.
Qed.

Lemma startNext_within_Frame : forall d w, Frame w (startNext_within d w).
Proof.
  induction d as [|d IH]; intros w; cbn [startNext_within];
    apply startNext_loop_Frame; [intros; apply Frame_refl|exact IH].
Qed.

Lemma startNext_Frame w : Frame w (startNext w).
Proof. apply startNext_within_Frame. Qed.

Lemma startNext_activations w :
  exists new, activations (startNext w) = activations w ++ new.
Proof. apply startNext_Frame. Qed.

End FrameLemmas.


(** ** Tasks and activations *)

Section Views.
Context {net : Network}.

Lemma count_seq_eqb i : forall m b,
  count (fun j => Nat.eqb j i) (seq b m) =
  if (b <=? i)%nat && (i <? b + m)%nat then 1%nat else 0%nat.
Proof.
  induction m as [|m IH]; intros b; simpl seq.
  - unfold count; cbn [filter length].
    destruct (Nat.leb_spec b i), (Nat.ltb_spec i (b + 0)); simpl; auto; lia.
  - rewrite count_cons, IH.
    destruct (Nat.eqb_spec b i), (Nat.leb_spec b i), (Nat.leb_spec (S b) i),
             (Nat.ltb_spec i (S b + m)), (Nat.ltb_spec i (b + S m)); simpl; lia.
Qed.

(** Each request has been called once if it lies in the started prefix and
    never otherwise. *)
Lemma invocations_spec cap acts w i :
  Inv net cap acts w ->
  invocations w i = if (i <? length (activations w))%nat then 1%nat else 0%nat.
Proof.
  intros [S _ _ _ _]. unfold invocations.
  rewrite <- (count_map task (fun j => Nat.eqb j i)), (st_tasks _ _ _ _ S), count_seq_eqb.
  reflexivity.
Qed.

Lemma is_started_spec cap acts w i :
  Inv net cap acts w -> is_started w i = (i <? length (activations w))%nat.
Proof.
  intros [S _ _ _ _]. unfold is_started. rewrite (st_requests _ _ _ _ S).
  pose proof (st_len _ _ _ _ S) as Hlen.
  set (m := length (activations w)) in *.
  assert (Hm : length (map (mkRequest true) (firstn m acts)) = m).
  { rewrite length_map, length_firstn. lia. }
  destruct (Nat.ltb_spec i m) as [Hlt|Hge].
  - rewrite nth_error_app1 by lia.
    destruct (nth_error (map (mkRequest true) (firstn m acts)) i) as [r|] eqn:E.
    + apply nth_error_In, in_map_iff in E. destruct E as (c & <- & _). reflexivity.
    + apply nth_error_None in E. lia.
  - rewrite nth_error_app2 by lia.
    destruct (nth_error _ _) as [r|] eqn:E; [|reflexivity].
    apply nth_error_In, in_map_iff in E. destruct E as (c & <- & _). reflexivity.
Qed.

Lemma requests_length cap acts w :
  Inv net cap acts w -> length (requestsList (this w)) = length acts.
Proof.
  intros [S _ _ _ _]. rewrite (st_requests _ _ _ _ S).
  rewrite length_app, !length_map, length_firstn, length_skipn.
  pose proof (st_len _ _ _ _ S). lia.
Qed.

Lemma requests_closures cap acts w :
  Inv net cap acts w -> map scrape (requestsList (this w)) = acts.
Proof.
  intros [S _ _ _ _]. rewrite (st_requests _ _ _ _ S).
  rewrite map_app, !map_map. cbn [scrape]. rewrite !map_id.
  apply firstn_skipn.
Qed.

Lemma existsb_task_absent i l :
  ~ In i (map task l) ->
  existsb (fun a => Nat.eqb (task a) i && settled a) l = false.
Proof.
  induction l as [|x l IH]; simpl; intros H; auto.
  destruct (Nat.eqb_spec (task x) i); [tauto|]. simpl. apply IH. tauto.
Qed.

Lemma existsb_task_unique l a :
  NoDup (map task l) -> In a l ->
  existsb (fun a' => Nat.eqb (task a') (task a) && settled a') l = settled a.
Proof.
  induction l as [|x l IH]; simpl; intros Hnd Hin; [tauto|].
  inversion Hnd as [|? ? Hx Hl]; subst.
  destruct Hin as [->|Hin].
  - rewrite Nat.eqb_refl, existsb_task_absent by assumption.
    now rewrite orb_false_r.
  - destruct (Nat.eqb_spec (task x) (task a)) as [E|_].
    + elim Hx. rewrite E. now apply in_map.
    + simpl. now apply IH.
Qed.

Lemma completed_spec cap acts w a :
  Inv net cap acts w -> In a (activations w) -> completed w (task a) = settled a.
Proof.
  intros [S _ _ _ _] Hin. unfold completed. apply existsb_task_unique; auto.
  rewrite (st_tasks _ _ _ _ S). apply seq_NoDup.
Qed.

(** The tasks that are started and not completed are those of the unsettled
    activations. *)
Lemma started_not_completed_in_flight cap acts w :
  Inv net cap acts w -> started_not_completed w = in_flight w.
Proof.
  intros I. unfold started_not_completed, in_flight.
  rewrite (requests_length _ _ _ I).
  pose proof (st_len _ _ _ _ (inv_struct _ _ _ _ I)) as Hlen.
  set (m := length (activations w)) in *.
  replace (length acts) with (m + (length acts - m))%nat by lia.
  rewrite seq_app, count_app.
  replace (count _ (seq (0 + m) (length acts - m))) with 0%nat.
  - rewrite Nat.add_0_r.
    unfold m. rewrite <- (st_tasks _ _ _ _ (inv_struct _ _ _ _ I)), count_map.
    apply count_ext_in. intros a Ha.
    rewrite (is_started_spec _ _ _ _ I), (completed_spec _ _ _ _ I Ha).
    assert (Hin : In (task a) (seq 0 (length (activations w)))).
    { rewrite <- (st_tasks _ _ _ _ (inv_struct _ _ _ _ I)). now apply in_map. }
    apply in_seq in Hin.
    destruct (Nat.ltb_spec (task a) (length (activations w))); [reflexivity|lia].
  - symmetry. apply count_none.
    intros j Hj. apply in_seq in Hj.
    rewrite (is_started_spec _ _ _ _ I). fold m.
    destruct (Nat.ltb_spec j m); [lia|reflexivity].
Qed.

End Views.


(** ** What one event changes *)

Section Steps.
Context {net : Network}.

Lemma set_stage_nth_same acts k a st :
  nth_error acts k = Some a ->
  nth_error (set_stage k st acts) k = Some (mkActivation (task a) (closure a) st).
Proof.
  intros E. unfold set_stage. rewrite E.
  assert (Hk : length (firstn k acts) = k).
  { rewrite length_firstn. apply Nat.min_l.
    apply Nat.lt_le_incl, nth_error_Some. rewrite E. discriminate. }
  rewrite nth_error_app2 by lia. rewrite Hk, Nat.sub_diag. reflexivity.
Qed.

Lemma set_stage_nth_other acts k j st :
  j <> k -> nth_error (set_stage k st acts) j = nth_error acts j.
Proof.
  intros Hjk. unfold set_stage.
  destruct (nth_error acts k) as [a|] eqn:E; [|reflexivity].
  rewrite (nth_error_firstn_skipn _ _ _ E) at 3.
  assert (Hk : length (firstn k acts) = k).
  { rewrite length_firstn. apply Nat.min_l.
    apply Nat.lt_le_incl, nth_error_Some. rewrite E. discriminate. }
  destruct (Nat.lt_ge_cases j k) as [Hlt|Hge].
  - rewrite !nth_error_app1 by lia. reflexivity.
  - rewrite !nth_error_app2 by lia. rewrite Hk.
    destruct (j - k)%nat as [|d] eqn:D; [lia|]. reflexivity.
Qed.

(** The two kinds of resumption: the closure reaches its next [await], or it
    runs its [finally] block. *)
Lemma resume_cases w e w' :
  resume w e = Some w' ->
  exists a,
    nth_error (activations w) (ev_activation e) = Some a /\ settled a = false /\
    ((exists st, (forall ok, st <> Settled ok) /\ ev_ok e = true /\
                 w' = suspend_at (ev_activation e) st w) \/
     (exists ok,
        (ok = true -> ev_ok e = true /\ stage a = AwaitWrite) /\
        (ok = false -> ev_ok e = false) /\
        w' = startNext
               (settling (ev_activation e) ok
                  (newMagazines (this w) ++ (if ok then [filename (closure a)] else []))
                  w))).
Proof.
  unfold resume. intros H.
  destruct (nth_error (activations w) (ev_activation e)) as [a|] eqn:E; [|discriminate].
  exists a. split; [reflexivity|].
  unfold settled.
  destruct (stage a) eqn:Est; destruct (ev_ok e) eqn:Eok;
    try discriminate; inversion H; subst w'; clear H; (split; [reflexivity|]).
  - left. exists AwaitMkdir. repeat split. discriminate.
  - right. exists false. rewrite app_nil_r. repeat split; auto; discriminate.
  - left. exists AwaitWrite. repeat split. discriminate.
  - right. exists false. rewrite app_nil_r. repeat split; auto; discriminate.
  - right. exists true. repeat split; auto; discriminate.
  - right. exists false. rewrite app_nil_r. repeat split; auto; discriminate.
Qed.

(** A rejection of the awaited promise is always handled: the [catch] clause
    and then the [finally] block run. *)
Lemma resume_rejected w k a :
  nth_error (activations w) k = Some a -> settled a = false ->
  resume w (mkEvent k false) = Some (finally k false w).
Proof.
  intros E Ha. unfold resume. cbn [ev_activation ev_ok]. rewrite E.
  unfold settled in Ha. destruct (stage a); try reflexivity. discriminate.
Qed.

(** An event leaves every other activation as it is, and only appends new
    ones. *)
Lemma resume_frame w e w' :
  resume w e = Some w' ->
  exists st new,
    activations w' = set_stage (ev_activation e) st (activations w) ++ new.
Proof.
  intros H. destruct (resume_cases _ _ _ H) as (a & E & Ha & [(st & _ & _ & ->)|(ok & _ & _ & ->)]).
  - exists st, []. cbn. now rewrite app_nil_r.
  - destruct (startNext_activations
                (settling (ev_activation e) ok
                   (newMagazines (this w) ++
                    (if ok then [filename (closure a)] else [])) w)) as (new & ->).
    cbn [settling activations]. eauto.
Qed.

Lemma resume_others w e w' j b :
  resume w e = Some w' -> j <> ev_activation e ->
  nth_error (activations w) j = Some b -> nth_error (activations w') j = Some b.
Proof.
  intros H Hj Hb. destruct (resume_frame _ _ _ H) as (st & new & ->).
  rewrite nth_error_app1.
  - now rewrite set_stage_nth_other.
  - rewrite set_stage_length. apply nth_error_Some. rewrite Hb. discriminate.
Qed.

(** A settled activation is never resumed again. *)
Lemma resume_settled_stays w e w' j b :
  resume w e = Some w' ->
  nth_error (activations w) j = Some b -> settled b = true ->
  nth_error (activations w') j = Some b.
Proof.
  intros H Hb Hs. apply (resume_others _ _ _ _ _ H); auto.
  intros ->. destruct (resume_cases _ _ _ H) as (a & E & Ha & _).
  congruence.
Qed.


Lemma completions_le_invocations w i : (completions w i <= invocations w i)%nat.
Proof. apply count_and_le. Qed.

Lemma invocations_le_1 cap acts w i :
  Inv net cap acts w -> (invocations w i <= 1)%nat.
Proof.
  intros I. rewrite (invocations_spec _ _ _ _ I).
  destruct (_ <? _)%nat; lia.
Qed.

(** All enrolled tasks have completed exactly when [completedRequests] has
    reached the length of the batch. *)
Lemma all_completed_iff cap acts w :
  Inv net cap acts w ->
  (Z.of_nat (length acts) <= completedRequests (this w)) <->
  (forall i, (i < length acts)%nat -> completions w i = 1%nat).
Proof.
  intros I. pose proof I as [S _ _ _ _].
  pose proof (st_len _ _ _ _ S) as Hlen.
  pose proof (count_le_length settled (activations w)) as Hle.
  rewrite (st_completed _ _ _ _ S).
  split.
  - intros H i Hi.
    assert (Hall : count settled (activations w) = length (activations w)) by lia.
    pose proof (proj1 (count_all _ _) Hall) as Hall'. clear Hall. rename Hall' into Hall.
    pose proof (invocations_spec _ _ _ i I) as Hinv.
    replace (i <? length (activations w))%nat with true in Hinv
      by (symmetry; apply Nat.ltb_lt; lia).
    rewrite <- Hinv. unfold completions, invocations.
    apply count_ext_in. intros a Ha. rewrite (Hall a Ha). apply andb_true_r.
  - intros H.
    assert (Hm : length (activations w) = length acts).
    { destruct (length acts) as [|n] eqn:En; [lia|].
      specialize (H n ltac:(lia)).
      pose proof (completions_le_invocations w n) as Hc.
      rewrite (invocations_spec _ _ _ _ I) in Hc.
      destruct (Nat.ltb_spec n (length (activations w))); lia. }
    assert (Hall : count settled (activations w) = length (activations w)); [|lia].
    apply (proj2 (count_all _ _)). intros a Ha.
    rewrite <- (completed_spec _ _ _ _ I Ha).
    assert (Hin : In (task a) (seq 0 (length (activations w)))).
    { rewrite <- (st_tasks _ _ _ _ S). now apply in_map. }
    apply in_seq in Hin.
    specialize (H (task a) ltac:(lia)).
    unfold completions in H. unfold completed.
    assert (Hpos : (0 < count (fun a0 => Nat.eqb (task a0) (task a) && settled a0)
                              (activations w))%nat) by lia.
    apply count_pos_exists in Hpos. destruct Hpos as (x & Hx & Hp).
    apply existsb_exists. eauto.
Qed.

(** With a cap that lets a first request start, a run that is not resolved is
    not stuck: some activation is in flight, so an event can occur. *)
Lemma unresolved_in_flight cap acts w :
  Inv net cap acts w -> running_ge 0 cap = false -> resolved w = false ->
  exists k a, nth_error (activations w) k = Some a /\ settled a = false /\
              resume w (mkEvent k false) = Some (finally k false w).
Proof.
  intros I Hmax Hres. pose proof I as [S Hbusy Hrc Hcalls Hcap].
  assert (Hlt : completedRequests (this w) < Z.of_nat (length acts)).
  { destruct (Z.lt_ge_cases (completedRequests (this w)) (Z.of_nat (length acts)))
      as [|Hge]; [assumption|].
    apply Hrc in Hge. congruence. }
  pose proof (st_running _ _ _ _ S) as Hrun.
  pose proof (st_completed _ _ _ _ S) as Hcomp.
  pose proof (count_settled_unsettled (activations w)) as Hsum.
  assert (Hpos : (0 < count unsettled (activations w))%nat).
  { destruct (running_ge (runningRequests (this w)) cap) eqn:Hr.
    - destruct (count unsettled (activations w)); [|lia].
      cbn in Hrun. rewrite Hrun in Hr. congruence.
    - specialize (Hbusy eq_refl). lia. }
  apply count_pos_exists in Hpos. destruct Hpos as (a & Ha & Hu).
  apply In_nth_error in Ha. destruct Ha as (k & Hk).
  apply negb_true_iff in Hu.
  exists k, a. split; [exact Hk|]. split; [exact Hu|].
  now apply (resume_rejected _ _ a).
Qed.

Lemma resolved_iff cap acts w :
  Inv net cap acts w ->
  (resolved w = true <-> Z.of_nat (length acts) <= completedRequests (this w)).
Proof. intros I. apply (inv_resolve _ _ _ _ I). Qed.

End Steps.

(** ** Progress of a run *)

Lemma list_sum_set_stage (f : Activation -> nat) acts k a st :
  nth_error acts k = Some a ->
  (list_sum (map f (set_stage k st acts)) + f a =
   list_sum (map f acts) + f (mkActivation (task a) (closure a) st))%nat.
Proof.
  intros E. destruct (set_stage_split _ _ _ st E) as (l1 & l2 & -> & ->).
  rewrite !map_app, !list_sum_app. cbn [map list_sum fold_right]. lia.
Qed.

Lemma list_sum_remaining_le l :
  (list_sum (map (fun a => remaining (stage a)) l) <= 3 * length l)%nat.
Proof.
  unfold list_sum.
  induction l as [|a l IH]; cbn [map fold_right length]; [lia|].
  assert (remaining (stage a) <= 3)%nat by (destruct (stage a); cbn; lia). lia.
Qed.

Lemma run_nil_of_no_event {net : Network} w :
  (forall e, resume w e = None) ->
  forall es w', run w es = Some w' -> es = [] /\ w' = w.
Proof.
  intros Hno [|e es] w' H; cbn in H.
  - inversion H; auto.
  - rewrite Hno in H. discriminate.
Qed.

Lemma run_app {net : Network} es1 : forall w w1 es2,
  run w es1 = Some w1 -> run w (es1 ++ es2) = run w1 es2.
Proof.
  induction es1 as [|e es1 IH]; intros w w1 es2 H; cbn in *.
  - now inversion H.
  - destruct (resume w e); [|discriminate]. now apply IH.
Qed.

Lemma run_settled_stays {net : Network} es : forall w w' j b,
  run w es = Some w' ->
  nth_error (activations w) j = Some b -> settled b = true ->
  nth_error (activations w') j = Some b.
Proof.
  induction es as [|e es IH]; intros w w' j b H Hb Hs; cbn in H.
  - inversion H; subst. exact Hb.
  - destruct (resume w e) as [w1|] eqn:E; [|discriminate].
    eapply IH; eauto. eapply resume_settled_stays; eauto.
Qed.

Section Progress.
Context {net : Network}.
Variables (cap : Number) (acts : list Action).

Lemma reachable_run w es w' :
  reachable cap acts w -> run w es = Some w' -> reachable cap acts w'.
Proof.
  intros [es0 H0] H. exists (es0 ++ es). now rewrite (run_app _ _ _ _ H0).
Qed.

Lemma work_le w :
  Inv net cap acts w -> (work (length acts) w <= 3 * length acts)%nat.
Proof.
  intros I. unfold work.
  pose proof (st_len _ _ _ _ (inv_struct _ _ _ _ I)).
  pose proof (list_sum_remaining_le (activations w)). lia.
Qed.

Lemma work_suspend n w k a st :
  nth_error (activations w) k = Some a ->
  S (remaining st) = remaining (stage a) ->
  S (work n (suspend_at k st w)) = work n w.
Proof.
  intros E Hst. unfold work. cbn [suspend_at activations].
  rewrite set_stage_length.
  pose proof (list_sum_set_stage (fun a => remaining (stage a)) _ _ _ st E) as H.
  cbn [stage] in H. lia.
Qed.

Lemma resume_work w e w' :
  Inv net cap acts w -> resume w e = Some w' ->
  (work (length acts) w' < work (length acts) w)%nat.
Proof.
  intros I H. unfold resume in H.
  destruct (nth_error (activations w) (ev_activation e)) as [a|] eqn:E;
    [|discriminate].
  assert (Hfin : forall (ok : bool) news,
    settled a = false ->
    news = newMagazines (this w) ++ (if ok then [filename (closure a)] else []) ->
    (work (length acts) (startNext (settling (ev_activation e) ok news w)) <
     work (length acts) w)%nat).
  { intros ok news Ha ->.
    destruct (finally_Inv cap acts w _ a ok I E Ha) as (new & P & I').
    cbv zeta in P, I'.
    pose proof (ps_acts _ _ _ _ _ _ P) as Hacts.
    pose proof (st_len _ _ _ _ (inv_struct _ _ _ _ I')) as Hlen.
    rewrite Hacts in Hlen. unfold work. rewrite Hacts.
    cbn [settling activations] in *.
    rewrite length_app, set_stage_length in *.
    rewrite map_app, list_sum_app.
    pose proof (list_sum_remaining_le new).
    pose proof (list_sum_set_stage (fun a => remaining (stage a)) _ _ _ (Settled ok) E)
      as Hs.
    cbn [stage remaining] in Hs.
    assert (0 < remaining (stage a))%nat.
    { unfold settled in Ha. destruct (stage a); try discriminate; cbn; lia. }
    lia. }
  destruct (stage a) eqn:Est; destruct (ev_ok e) eqn:Eok;
    try discriminate; inversion H; subst w'; clear H.
  - rewrite <- (work_suspend _ w _ _ AwaitMkdir E); [lia|now rewrite Est].
  - rewrite finally_settling. apply Hfin; [unfold settled; now rewrite Est|].
    now rewrite app_nil_r.
  - rewrite <- (work_suspend _ w _ _ AwaitWrite E); [lia|now rewrite Est].
  - rewrite finally_settling. apply Hfin; [unfold settled; now rewrite Est|].
    now rewrite app_nil_r.
  - apply (Hfin true); [unfold settled; now rewrite Est|reflexivity].
  - rewrite finally_settling. apply Hfin; [unfold settled; now rewrite Est|].
    now rewrite app_nil_r.
Qed.

Lemma run_work es : forall w w',
  Inv net cap acts w -> run w es = Some w' ->
  (length es + work (length acts) w' <= work (length acts) w)%nat.
Proof.
  induction es as [|e es IH]; intros w w' I H; cbn in H.
  - inversion H; subst. cbn. lia.
  - destruct (resume w e) as [w1|] eqn:E; [|discriminate].
    pose proof (resume_work _ _ _ I E).
    pose proof (IH _ _ (resume_Inv _ _ _ _ _ I E) H). cbn [length]. lia.
Qed.

(** With a cap that lets a first request start, every world of a run has a
    continuation that resolves the batch. *)
Lemma finishing_run w :
  Inv net cap acts w -> running_ge 0 cap = false ->
  exists es w', run w es = Some w' /\ resolved w' = true.
Proof.
  intros I Hcap.
  remember (work (length acts) w) as n eqn:En.
  revert w I En. induction n as [n IH] using lt_wf_ind. intros w I En.
  destruct (resolved w) eqn:Hres.
  - exists [], w. split; [reflexivity|exact Hres].
  - destruct (unresolved_in_flight _ _ _ I Hcap Hres) as (k & a & _ & _ & Hstep).
    pose proof (resume_work _ _ _ I Hstep) as Hlt.
    destruct (IH _ ltac:(subst n; exact Hlt) _ (resume_Inv _ _ _ _ _ I Hstep) eq_refl)
      as (es & w' & Hrun & Hdone).
    exists (mkEvent k false :: es), w'. split; [|exact Hdone].
    cbn [run]. now rewrite Hstep.
Qed.


End Progress.


(** ** [decodeURI] is total

    The fuel of [decode] never runs out: any amount of at least the length of
    the string gives the same answer, so [None] always means a URIError. *)

Lemma escaped_octet_length s b rest :
  escaped_octet s = Some (b, rest) -> length s = (3 + length rest)%nat.
Proof.
  unfold escaped_octet.
  destruct s as [|c [|h [|l s']]]; try discriminate.
  destruct (N.eqb c 37); [|discriminate].
  destruct (hex_digit h), (hex_digit l); try discriminate.
  intros H. inversion H; subst. reflexivity.
Qed.

Lemma continuation_length n : forall acc s v rest,
  continuation n acc s = Some (v, rest) -> (length rest <= length s)%nat.
Proof.
  induction n as [|n IH]; intros acc s v rest; cbn [continuation].
  - intros H. inversion H; subst. lia.
  - destruct (escaped_octet s) as [[b s']|] eqn:E; [|discriminate].
    destruct (N.eqb _ _); [|discriminate].
    intros H. apply IH in H. apply escaped_octet_length in E. lia.
Qed.

Lemma decode_fuel n : forall fuel1 fuel2 s,
  (length s <= n)%nat -> (n <= fuel1)%nat -> (n <= fuel2)%nat ->
  decode fuel1 s = decode fuel2 s.
Proof.
  induction n as [|n IH]; intros fuel1 fuel2 s Hs H1 H2.
  - destruct s; [|cbn in Hs; lia]. now destruct fuel1, fuel2.
  - destruct s as [|c rest]; [now destruct fuel1, fuel2|].
    destruct fuel1 as [|f1]; [lia|]. destruct fuel2 as [|f2]; [lia|].
    cbn [length] in Hs. cbn [decode].
    destruct (negb (N.eqb c 37)).
    + f_equal. apply IH; lia.
    + destruct (escaped_octet (c :: rest)) as [[b after]|] eqn:E; [|reflexivity].
      apply escaped_octet_length in E. cbn [length] in E.
      assert (Hnext : forall m lead least,
        match continuation m lead after with
        | Some (v, after') =>
            if ((least <=? v) && (v <=? 1114111) &&
                negb ((55296 <=? v) && (v <=? 57343)))%N
            then option_map (app (utf16 v)) (decode f1 after')
            else None
        | None => None
        end =
        match continuation m lead after with
        | Some (v, after') =>
            if ((least <=? v) && (v <=? 1114111) &&
                negb ((55296 <=? v) && (v <=? 57343)))%N
            then option_map (app (utf16 v)) (decode f2 after')
            else None
        | None => None
        end).
      { intros m lead least.
        destruct (continuation m lead after) as [[v after']|] eqn:Ec; [|reflexivity].
        apply continuation_length in Ec.
        destruct (_ && _ && _); [|reflexivity]. f_equal. apply IH; lia. }
      destruct (b <? 128)%N.
      * destruct (uri_reserved b); f_equal; apply IH; lia.
      * rewrite !Hnext. reflexivity.
Qed.

Lemma ecma_decodeURI_total s fuel :
  (length s <= fuel)%nat -> decode fuel s = ecma_decodeURI s.
Proof.
  intros H. unfold ecma_decodeURI. apply (decode_fuel (length s)); lia.
Qed.

(** * The scheduler: properties *)

(** C1 (concurrency cap).  The cap is exceeded when [request.get] throws inside
    the call of a closure: [startNext] calls [req.scrape()] before it
    increments [runningRequests], and the [finally] block of that closure
    decrements the counter and calls [startNext] again, which sees a counter
    one too low.  With a cap of one and three requests of which the first throws
    in this way, the pass of [startNext] made by [scrape] leaves the two other
    downloads in flight: two requests are started and not completed, and
    [runningRequests] is two. *)
Theorem cap_overrun :
  let w := dispatch (net := faulty) (integer 1) bad_first in
  map (fun c => get_throws (Network := faulty) (uri c)) bad_first = [true; false; false] /\
  map started (requestsList (this w)) = [true; true; true] /\
  map stage (activations w) = [Settled false; AwaitGet; AwaitGet] /\
  started_not_completed w = 2%nat /\
  in_flight w = 2%nat /\
  runningRequests (this w) = 2 /\
  get_maxRequests (this w) = integer 1.
Proof. vm_compute. repeat split. Qed.

Section SchedulerProperties.
Context {net : Network}.

(** C2 (completion coverage).  In every world of a run, the promise returned by
    [scrape] is resolved if and only if every enrolled task has completed
    exactly once, whatever the outcomes; no task completes twice; the promise is
    resolved exactly when [completedRequests] has reached the length of the
    batch; and [resolve] is called at most once more than there are closures
    whose [request.get] threw inside the call. *)
Theorem completion_coverage (maxRequests : Number) (acts : list Action) (w : World) :
  reachable maxRequests acts w ->
  (resolved w = true <->
   forall i, (i < length acts)%nat -> completions w i = 1%nat) /\
  (forall i, (completions w i <= 1)%nat) /\
  (resolved w = true <->
   completedRequests (this w) = Z.of_nat (length (requestsList (this w)))) /\
  (resolveCalls w <= 1 + count (threw net) (activations w))%nat.
Proof.
  intros R. pose proof (reachable_Inv _ _ _ R) as I.
  pose proof (all_completed_iff _ _ _ I) as Hall.
  pose proof (st_completed _ _ _ _ (inv_struct _ _ _ _ I)) as Hc.
  pose proof (st_len _ _ _ _ (inv_struct _ _ _ _ I)) as Hlen.
  pose proof (count_le_length settled (activations w)) as Hle.
  pose proof (resolved_iff _ _ _ I) as Hr.
  repeat split.
  - intros H. apply Hall, Hr, H.
  - intros H. apply Hr, Hall, H.
  - intros i. etransitivity; [apply completions_le_invocations|].
    apply (invocations_le_1 _ _ _ _ I).
  - intros H. apply Hr in H. rewrite (requests_length _ _ _ I). lia.
  - intros H. apply Hr. rewrite (requests_length _ _ _ I) in H. lia.
  - apply (inv_calls _ _ _ _ I).
Qed.


End SchedulerProperties.

Lemma completion_coverage_witness :
  reachable (net := reliable) (integer 2) five_issues five_issues_done /\
  resolved five_issues_done = true /\
  (forall i, (i < 5)%nat -> completions five_issues_done i = 1%nat).
Proof.
  assert (R : reachable (net := reliable) (integer 2) five_issues five_issues_done)
    by (exists third_fails; vm_compute; reflexivity).
  split; [exact R|]. split; [reflexivity|].
  exact (proj1 (proj1 (completion_coverage (net := reliable) (integer 2) five_issues
                         five_issues_done R)) eq_refl).
Defined.



(** C4 (failure containment).  The signal of completion fires twice when the
    closure that completes the batch is one whose [request.get] throws inside
    the call: its [finally] block calls [startNext], whose completion test
    passes, and the pass of [startNext] that called the closure then runs the
    same test again.  With a cap of one and five requests of which the last
    throws in this way, after the downloads of the first four have been written
    the batch is resolved with their four paths, the fifth activation has
    failed, and [resolve] has been called twice. *)
Theorem signal_fires_twice :
  run (net := faulty) (dispatch (net := faulty) (integer 1) bad_last) four_written =
    Some bad_last_done /\
  map (fun c => get_throws (Network := faulty) (uri c)) bad_last =
    [false; false; false; false; true] /\
  map stage (activations bad_last_done) =
    [Settled true; Settled true; Settled true; Settled true; Settled false] /\
  scrape_result bad_last_done =
    Some (map js ["out/1.pdf"; "out/2.pdf"; "out/3.pdf"; "out/4.pdf"]%string) /\
  completedRequests (this bad_last_done) = 5 /\
  resolveCalls bad_last_done = 2%nat.
Proof. vm_compute. repeat split. Qed.


(** * Enrollment *)

Section Enrollment.
Context {node : Platform} {net : Network}.

Lemma enroll_spec fs directory skipExisting links : forall s,
  enroll fs directory skipExisting links s =
  {| _maxRequests := _maxRequests s;
     runningRequests := runningRequests s;
     completedRequests := completedRequests s;
     requestsList :=
       requestsList s ++
       map (mkRequest false) (scheduled fs directory skipExisting links);
     allRequestsCompleted := allRequestsCompleted s;
     newMagazines := newMagazines s |}.
Proof.
  unfold scheduled.
  induction links as [|link rest IH]; intros s; cbn [enroll filter map].
  - rewrite app_nil_r. now destruct s.
  - destruct (skipExisting && fs (filename (download_of directory link)));
      cbn [negb]; rewrite IH; [reflexivity|].
    cbn [push_request _maxRequests runningRequests completedRequests
         requestsList allRequestsCompleted newMagazines map].
    now rewrite <- app_assoc.
Qed.

(** [scrape] hands the enrolled downloads to the scheduler. *)
Lemma Scraper_scrape_dispatch dom fs s directory skipExisting :
  Scraper_scrape dom fs s directory skipExisting =
  (links <- getLinks dom ;;
   Ok (dispatch (_maxRequests s) (scheduled fs directory skipExisting links))).
Proof.
  unfold Scraper_scrape. destruct (getLinks dom) as [links|e]; [|reflexivity].
  cbn [bind]. rewrite enroll_spec. reflexivity.
Qed.

(** The worlds after [scrape] has begun are worlds of a run of the scheduler
    on the enrolled downloads. *)
Lemma Scraper_scrape_reachable dom fs s directory skipExisting w0 es w :
  Scraper_scrape dom fs s directory skipExisting = Ok w0 ->
  run w0 es = Some w ->
  exists links,
    getLinks dom = Ok links /\
    reachable (_maxRequests s) (scheduled fs directory skipExisting links) w.
Proof.
  rewrite Scraper_scrape_dispatch.
  destruct (getLinks dom) as [links|e]; [|discriminate].
  cbn [bind]. intros H Hrun. inversion H; subst w0.
  exists links. split; [reflexivity|]. now exists es.
Qed.

(** C5 (empty batch).  When the enrollment loop of [scrape] leaves
    [requestsList] empty, the call of [startNext] made by [scrape] itself
    resolves the promise: no closure has been invoked, [resolve] has been called
    once, and [scrape] returns the empty list. *)
Theorem empty_batch (dom : Result Document) (fs : jsstring -> bool) (s : Scraper)
    (directory : jsstring) (skipExisting : bool)
    (links : list ProgrammerMagazineLink) :
  getLinks dom = Ok links ->
  requestsList (enroll fs directory skipExisting links (scrapeInit s)) = [] ->
  exists w,
    Scraper_scrape dom fs s directory skipExisting = Ok w /\
    requestsList (this w) = [] /\
    activations w = [] /\
    resolveCalls w = 1%nat /\
    scrape_result w = Some [].
Proof.
  intros Hlinks Hempty.
  rewrite enroll_spec in Hempty. cbn in Hempty.
  apply map_eq_nil in Hempty.
  rewrite Scraper_scrape_dispatch, Hlinks. cbn [bind]. rewrite Hempty.
  eexists. split; [reflexivity|]. cbn. repeat split.
Qed.

(** C7 (existing-file skip).  For a discovered link whose destination exists:
    with [skipExisting = true] no request of the batch and no invoked closure
    ever writes to that destination; with [skipExisting = false] the batch has
    one request per discovered link, in order, the link's own among them. *)
Theorem existing_file_skip (dom : Result Document) (fs : jsstring -> bool)
    (s : Scraper) (directory : jsstring)
    (links : list ProgrammerMagazineLink) (link : ProgrammerMagazineLink) :
  getLinks dom = Ok links ->
  In link links ->
  fs (filename (download_of directory link)) = true ->
  (exists w0,
     Scraper_scrape dom fs s directory true = Ok w0 /\
     forall es w, run w0 es = Some w ->
       (forall r, In r (requestsList (this w)) ->
                  filename (scrape r) <> filename (download_of directory link)) /\
       (forall a, In a (activations w) ->
                  filename (closure a) <> filename (download_of directory link))) /\
  (exists w0,
     Scraper_scrape dom fs s directory false = Ok w0 /\
     forall es w, run w0 es = Some w ->
       map scrape (requestsList (this w)) = map (download_of directory) links /\
       In (download_of directory link) (map scrape (requestsList (this w)))).
Proof.
  intros Hlinks Hin Hfs. split.
  - rewrite Scraper_scrape_dispatch, Hlinks. cbn [bind].
    eexists. split; [reflexivity|]. intros es w Hrun.
    assert (I : Inv net (_maxRequests s) (scheduled fs directory true links) w).
    { apply reachable_Inv. now exists es. }
    assert (Hsched : forall c, In c (scheduled fs directory true links) ->
                               filename c <> filename (download_of directory link)).
    { intros c Hc. unfold scheduled in Hc.
      apply in_map_iff in Hc. destruct Hc as (l & <- & Hl).
      apply filter_In in Hl. destruct Hl as [_ Hl]. cbn [andb] in Hl.
      intros E. rewrite E, Hfs in Hl. discriminate. }
    split.
    + intros r Hr. apply Hsched.
      rewrite <- (requests_closures _ _ _ I). now apply in_map.
    + intros a Ha. apply Hsched.
      apply (in_map closure) in Ha.
      rewrite (st_closures _ _ _ _ (inv_struct _ _ _ _ I)) in Ha.
      eapply firstn_In, Ha.
  - rewrite Scraper_scrape_dispatch, Hlinks. cbn [bind].
    eexists. split; [reflexivity|]. intros es w Hrun.
    assert (I : Inv net (_maxRequests s) (scheduled fs directory false links) w).
    { apply reachable_Inv. now exists es. }
    rewrite (requests_closures _ _ _ I).
    assert (E : scheduled fs directory false links = map (download_of directory) links).
    { unfold scheduled. f_equal. clear.
      induction links as [|l rest IH]; cbn; [reflexivity|]. now f_equal. }
    rewrite E. split; [reflexivity|]. now apply in_map.
Qed.

End Enrollment.

Lemma empty_batch_witness :
  let node := posix (js "/app") in
  let net := reliable in
  getLinks (Ok my_magazines) =
    Ok [mkLink (js "2020-01") (js "https://example.com/issue/2020-01.pdf")
               (js "2020-01.pdf")] /\
  requestsList
    (enroll (fun _ => true) [] true
       [mkLink (js "2020-01") (js "https://example.com/issue/2020-01.pdf")
               (js "2020-01.pdf")]
       (scrapeInit (new_scraper (integer 5)))) = [] /\
  exists w,
    Scraper_scrape (Ok my_magazines) (fun _ => true) (new_scraper (integer 5)) [] true = Ok w /\
    scrape_result w = Some [].
Proof.
  intros node net.
  assert (H1 : getLinks (Ok my_magazines) =
    Ok [mkLink (js "2020-01") (js "https://example.com/issue/2020-01.pdf")
               (js "2020-01.pdf")]) by (vm_compute; reflexivity).
  assert (H2 : requestsList
    (enroll (fun _ => true) [] true
       [mkLink (js "2020-01") (js "https://example.com/issue/2020-01.pdf")
               (js "2020-01.pdf")]
       (scrapeInit (new_scraper (integer 5)))) = []) by reflexivity.
  split; [exact H1|]. split; [exact H2|].
  destruct (empty_batch (Ok my_magazines) (fun _ => true) (new_scraper (integer 5)) [] true
                        _ H1 H2) as (w & Hw & _ & _ & _ & Hr).
  exists w. split; [exact Hw|exact Hr].
Defined.

Lemma existing_file_skip_witness :
  let node := posix (js "/app") in
  let net := reliable in
  let link := mkLink (js "2020-01") (js "https://example.com/issue/2020-01.pdf")
                     (js "2020-01.pdf") in
  let fs := jsstring_eqb (js "/app/programista/2020-01/2020-01.pdf") in
  getLinks (Ok my_magazines) = Ok [link] /\
  In link [link] /\
  fs (filename (download_of [] link)) = true /\
  exists w0,
    Scraper_scrape (Ok my_magazines) fs (new_scraper (integer 5)) [] true = Ok w0 /\
    forall a, In a (activations w0) ->
              filename (closure a) <> filename (download_of [] link).
Proof.
  intros node net link fs.
  assert (H1 : getLinks (Ok my_magazines) = Ok [link]) by (vm_compute; reflexivity).
  assert (H2 : In link [link]) by (left; reflexivity).
  assert (H3 : fs (filename (download_of [] link)) = true) by (vm_compute; reflexivity).
  split; [exact H1|]. split; [exact H2|]. split; [exact H3|].
  destruct (existing_file_skip (Ok my_magazines) fs (new_scraper (integer 5)) [] [link] link
                               H1 H2 H3) as [(w0 & Hw0 & Hall) _].
  exists w0. split; [exact Hw0|].
  exact (proj2 (Hall [] w0 eq_refl)).
Defined.


(** * Link extraction *)

Section ExtractionProperties.
Context {node : Platform}.

Lemma first_failure_here a anchors e :
  getLinks_anchor (fst a) (snd a) = Throw e -> first_failure (a :: anchors) e.
Proof. intros H. exists [], a, anchors. split; [reflexivity|]. split; [intros b []|exact H]. Qed.

Lemma first_failure_app_ok l1 l2 e :
  (forall b, In b l1 -> exists r, getLinks_anchor (fst b) (snd b) = Ok r) ->
  first_failure l2 e -> first_failure (l1 ++ l2) e.
Proof.
  intros Hok (before & a & after & -> & Hb & Ha).
  exists (l1 ++ before), a, after. split; [now rewrite <- app_assoc|].
  split; [|exact Ha]. intros b Hin. apply in_app_or in Hin. destruct Hin; auto.
Qed.

Lemma first_failure_app_l l1 l2 e :
  first_failure l1 e -> first_failure (l1 ++ l2) e.
Proof.
  intros (before & a & after & -> & Hb & Ha).
  exists before, a, (after ++ l2). split; [now rewrite <- app_assoc|]. auto.
Qed.

Lemma first_failure_not_ok anchors e :
  first_failure anchors e ->
  ~ (forall a, In a anchors -> exists r, getLinks_anchor (fst a) (snd a) = Ok r).
Proof.
  intros (before & a & after & -> & _ & Ha) Hall.
  destruct (Hall a) as (r & Hr); [apply in_or_app; right; now left|]. congruence.
Qed.

Lemma first_failure_unique anchors e e' :
  first_failure anchors e -> first_failure anchors e' -> e = e'.
Proof.
  intros (b1 & a1 & r1 & -> & Hb1 & Ha1) (b2 & a2 & r2 & Heq & Hb2 & Ha2).
  revert b2 Heq Hb2. induction b1 as [|x b1 IH]; intros [|y b2] Heq Hb2; cbn in Heq.
  - inversion Heq; subst. congruence.
  - inversion Heq; subst. destruct (Hb2 y) as (r & Hr); [now left|]. congruence.
  - inversion Heq; subst. destruct (Hb1 a2) as (r & Hr); [now left|]. congruence.
  - inversion Heq; subst. apply (IH (fun b Hb => Hb1 b (or_intror Hb)) b2); auto.
    intros b Hb. apply Hb2. now right.
Qed.

Lemma getLinks_formats_spec section_id formats : forall results,
  match getLinks_formats section_id formats results with
  | Ok out =>
      out = results ++ flat_map (anchor_links section_id) formats /\
      forall f, In f formats -> exists r, getLinks_anchor section_id f = Ok r
  | Throw e => first_failure (map (pair section_id) formats) e
  end.
Proof.
  induction formats as [|f rest IH]; intros results; cbn [getLinks_formats].
  - cbn. rewrite app_nil_r. split; [reflexivity|]. intros f [].
  - destruct (getLinks_anchor section_id f) as [r|e] eqn:E; cbn [bind].
    + assert (Hr : anchor_links section_id f =
                   match r with Some l => [l] | None => [] end).
      { unfold anchor_links. rewrite E. now destruct r. }
      assert (Hok : forall b, In b [(section_id, f)] ->
                exists r0, getLinks_anchor (fst b) (snd b) = Ok r0).
      { intros b [<-|[]]. cbn. eauto. }
      destruct r as [l|].
      * specialize (IH (results ++ [l])).
        destruct (getLinks_formats section_id rest (results ++ [l])) as [out|e].
        -- destruct IH as [-> Hall]. split.
           ++ cbn [flat_map]. rewrite Hr, <- app_assoc. reflexivity.
           ++ intros g [<-|Hg]; eauto.
        -- apply (first_failure_app_ok [(section_id, f)] _ e Hok IH).
      * specialize (IH results).
        destruct (getLinks_formats section_id rest results) as [out|e].
        -- destruct IH as [-> Hall]. split.
           ++ cbn [flat_map]. rewrite Hr. reflexivity.
           ++ intros g [<-|Hg]; eauto.
        -- apply (first_failure_app_ok [(section_id, f)] _ e Hok IH).
    + cbn [map]. now apply first_failure_here.
Qed.

Lemma in_processed_anchors dom section_id format :
  In (section_id, format) (processed_anchors dom) <->
  exists section table others,
    In section (getMagazinesSections dom) /\
    elem_id section = section_id /\ section_id <> [] /\
    getMagazineLinksTable dom section = table :: others /\
    In format (getMagazineLinks table).
Proof.
  unfold processed_anchors. rewrite in_flat_map. split.
  - intros (section & Hs & Hin).
    destruct (elem_id section) as [|c cs] eqn:Eid; [destruct Hin|].
    cbn [is_empty] in Hin.
    destruct (getMagazineLinksTable dom section) as [|table others] eqn:Et;
      [destruct Hin|].
    apply in_map_iff in Hin. destruct Hin as (f & Hf & Hin).
    inversion Hf; subst. exists section, table, others.
    repeat split; auto. discriminate.
  - intros (section & table & others & Hs & Hid & Hne & Ht & Hf).
    exists section. split; [exact Hs|].
    rewrite Hid, Ht. destruct section_id; [now elim Hne|].
    cbn [is_empty]. apply in_map_iff. eauto.
Qed.

Lemma getLinks_sections_spec dom sections : forall results,
  let anchors :=
    flat_map
      (fun section =>
         if is_empty (elem_id section) then []
         else match getMagazineLinksTable dom section with
              | [] => []
              | linksTable :: _ =>
                  map (pair (elem_id section)) (getMagazineLinks linksTable)
              end) sections in
  match getLinks_sections dom sections results with
  | Ok out =>
      out = results ++ flat_map (fun a => anchor_links (fst a) (snd a)) anchors /\
      forall a, In a anchors -> exists r, getLinks_anchor (fst a) (snd a) = Ok r
  | Throw e => first_failure anchors e
  end.
Proof.
  induction sections as [|s rest IH]; intros results; cbn [getLinks_sections flat_map].
  - cbn. rewrite app_nil_r. split; [reflexivity|]. intros a [].
  - cbv zeta in IH.
    destruct (is_empty (elem_id s)); [apply IH|].
    destruct (getMagazineLinksTable dom s) as [|table others]; [apply IH|].
    pose proof (getLinks_formats_spec (elem_id s) (getMagazineLinks table) results) as Hf.
    assert (Hmap : forall fs,
      flat_map (fun a => anchor_links (fst a) (snd a)) (map (pair (elem_id s)) fs) =
      flat_map (anchor_links (elem_id s)) fs).
    { induction fs as [|f fs IHf]; cbn; [reflexivity|]. now rewrite IHf. }
    destruct (getLinks_formats (elem_id s) (getMagazineLinks table) results)
      as [mid|e]; cbn [bind].
    + destruct Hf as [-> Hall].
      assert (Hok : forall b, In b (map (pair (elem_id s)) (getMagazineLinks table)) ->
                exists r, getLinks_anchor (fst b) (snd b) = Ok r).
      { intros b Hb. apply in_map_iff in Hb. destruct Hb as (f & <- & Hin).
        cbn. auto. }
      specialize (IH (results ++
        flat_map (anchor_links (elem_id s)) (getMagazineLinks table))).
      destruct (getLinks_sections dom rest _) as [out|e].
      * destruct IH as [-> Hrest]. split.
        -- rewrite flat_map_app, Hmap, app_assoc. reflexivity.
        -- intros a Ha. apply in_app_or in Ha. destruct Ha as [Ha|Ha]; auto.
      * now apply first_failure_app_ok.
    + now apply first_failure_app_l.
Qed.

(** [getLinks] returns the links of the processed anchors, in document order,
    and fails with what the first failing anchor throws. *)
Lemma getLinks_spec dom :
  match getLinks (Ok dom) with
  | Ok links =>
      links = flat_map (fun a => anchor_links (fst a) (snd a)) (processed_anchors dom) /\
      forall a, In a (processed_anchors dom) ->
                exists r, getLinks_anchor (fst a) (snd a) = Ok r
  | Throw e => first_failure (processed_anchors dom) e
  end.
Proof.
  unfold getLinks. cbn [bind].
  exact (getLinks_sections_spec dom (getMagazinesSections dom) []).
Qed.

(** C6 (file-name rule), amended.  For an anchor processed by [getLinks] whose
    address parses to a non-empty path and href: without an extension the anchor
    is skipped, with no link and no error; with an extension, if [decodeURI]
    accepts the basename the anchor yields the link whose file name is the
    decoded basename, and the link is in the result of [getLinks] whenever
    [getLinks] returns; if [decodeURI] rejects the basename, the anchor throws a
    URIError and [getLinks] fails, returning no link. *)
Theorem filename_rule (dom : Document) (section table : Element)
    (others : list Element) (format : Element) (u : Url) (p : jsstring) :
  In section (getMagazinesSections dom) ->
  elem_id section <> [] ->
  getMagazineLinksTable dom section = table :: others ->
  In format (getMagazineLinks table) ->
  url_parse (href format) = Ok u ->
  url_path u = Some p -> p <> [] -> url_href u <> [] ->
  (path_extname p = [] ->
     getLinks_anchor (elem_id section) format = Ok None) /\
  (path_extname p <> [] ->
     match decodeURI (path_basename p) with
     | Some f =>
         getLinks_anchor (elem_id section) format =
           Ok (Some (mkLink (elem_id section) (url_href u) f)) /\
         forall links, getLinks (Ok dom) = Ok links ->
                       In (mkLink (elem_id section) (url_href u) f) links
     | None =>
         getLinks_anchor (elem_id section) format = Throw URIError /\
         exists e, getLinks (Ok dom) = Throw e
     end).
Proof.
  intros Hs Hid Ht Hf Hu Hp Hpne Hhne.
  assert (Hproc : In (elem_id section, format) (processed_anchors dom)).
  { apply in_processed_anchors. exists section, table, others. auto. }
  assert (Hbody : getLinks_anchor (elem_id section) format =
                  if is_empty (path_extname p) then Ok None
                  else match decodeURI (path_basename p) with
                       | None => Throw URIError
                       | Some f => Ok (Some (mkLink (elem_id section) (url_href u) f))
                       end).
  { unfold getLinks_anchor. rewrite Hu. cbn [bind]. rewrite Hp.
    destruct p as [|c p']; [now elim Hpne|].
    destruct (url_href u) as [|h hs]; [now elim Hhne|]. reflexivity. }
  pose proof (getLinks_spec dom) as Hspec.
  split.
  - intros He. rewrite Hbody, He. reflexivity.
  - intros He. destruct (path_extname p) as [|e es] eqn:Eext; [now elim He|].
    cbn [is_empty] in Hbody.
    destruct (decodeURI (path_basename p)) as [f|] eqn:Ed.
    + split; [exact Hbody|]. intros links Hl. rewrite Hl in Hspec.
      destruct Hspec as [-> _]. apply in_flat_map.
      exists (elem_id section, format). split; [exact Hproc|].
      cbn [fst snd]. unfold anchor_links. rewrite Hbody. now left.
    + split; [exact Hbody|].
      destruct (getLinks (Ok dom)) as [links|e0]; [|eauto].
      destruct Hspec as [_ Hall]. destruct (Hall _ Hproc) as (r & Hr).
      cbn [fst snd] in Hr. congruence.
Qed.


End ExtractionProperties.

(** The addresses of the specification: the PDF yields the file name
    [2020-01.pdf], the address without extension is skipped, and the anchors of
    a second table beside the first are not looked at. *)
Example my_magazines_links :
  let node := posix (js "/app") in
  getLinks_anchor (js "2020-01") (anchor "https://example.com/issue/2020-01.pdf") =
    Ok (Some (mkLink (js "2020-01") (js "https://example.com/issue/2020-01.pdf")
                     (js "2020-01.pdf"))) /\
  getLinks_anchor (js "2020-01") (anchor "https://example.com/issue/2020-01") =
    Ok None /\
  getLinks (Ok my_magazines) =
    Ok [mkLink (js "2020-01") (js "https://example.com/issue/2020-01.pdf")
               (js "2020-01.pdf")].
Proof. vm_compute. repeat split. Qed.

(** In quirks mode the class names match without regard to the case of ASCII
    letters: the first table is the one with class [Borderless].  The same
    elements in a document that is not in quirks mode have no section. *)
Example quirks_mode_classes :
  let node := posix (js "/app") in
  getLinks (Ok quirks_page) =
    Ok [mkLink (js "2020-01") (js "https://example.com/issue/2020-01.pdf")
               (js "2020-01.pdf")] /\
  getLinks (Ok (mkDocument false (documentElement quirks_page))) = Ok [].
Proof. vm_compute. repeat split. Qed.

(** C6 as stated fails: the path [/issue/100%.pdf] has the extension [.pdf],
    yet its anchor yields no link; [decodeURI] throws and [getLinks] fails. *)
Lemma extension_but_no_link :
  let node := posix (js "/app") in
  let format := anchor "https://example.com/issue/100%.pdf" in
  In (js "2020-01", format) (processed_anchors malformed_escape) /\
  url_parse (href format) =
    Ok (mkUrl (Some (js "/issue/100%.pdf")) (js "https://example.com/issue/100%.pdf")) /\
  path_extname (js "/issue/100%.pdf") = js ".pdf" /\
  getLinks_anchor (js "2020-01") format = Throw URIError /\
  getLinks (Ok malformed_escape) = Throw URIError.
Proof. vm_compute. repeat split. now left. Qed.

Lemma filename_rule_witness :
  let node := posix (js "/app") in
  exists section table others format u p,
    In section (getMagazinesSections my_magazines) /\
    elem_id section <> [] /\
    getMagazineLinksTable my_magazines section = table :: others /\
    In format (getMagazineLinks table) /\
    url_parse (href format) = Ok u /\
    url_path u = Some p /\ p <> [] /\ url_href u <> [] /\
    path_extname p <> [] /\
    getLinks_anchor (elem_id section) format =
      Ok (Some (mkLink (js "2020-01") (js "https://example.com/issue/2020-01.pdf")
                       (js "2020-01.pdf"))).
Proof.
  intros node.
  pose (table := links_table
            [ cell [anchor "https://example.com/issue/2020-01.pdf"];
              cell [anchor "https://example.com/issue/2020-01"] ]).
  pose (other := links_table
            [ cell [anchor "https://example.com/issue/2020-01.epub"] ]).
  pose (section := magazine_section "2020-01" [table; other]).
  pose (format := anchor "https://example.com/issue/2020-01.pdf").
  pose (p := js "/issue/2020-01.pdf").
  pose (u := mkUrl (Some p) (js "https://example.com/issue/2020-01.pdf")).
  assert (H1 : In section (getMagazinesSections my_magazines)) by (now left).
  assert (H2 : elem_id section <> []) by discriminate.
  assert (H3 : getMagazineLinksTable my_magazines section = table :: [other]) by reflexivity.
  assert (H4 : In format (getMagazineLinks table)) by (now left).
  assert (H5 : url_parse (href format) = Ok u) by reflexivity.
  assert (H6 : url_path u = Some p) by reflexivity.
  assert (H7 : p <> []) by discriminate.
  assert (H8 : url_href u <> []) by discriminate.
  assert (H9 : path_extname p <> []) by discriminate.
  exists section, table, [other], format, u, p.
  repeat (split; [assumption|]).
  exact (proj1 (proj2 (filename_rule my_magazines section table [other] format u p
                                     H1 H2 H3 H4 H5 H6 H7 H8) H9)).
Defined.




(** * The notifier *)

Lemma jsstring_eqb_eq a b : jsstring_eqb a b = true <-> a = b.
Proof.
  unfold jsstring_eqb. destruct (list_eq_dec N.eq_dec a b); split; auto; discriminate.
Qed.

Lemma pdf_match_here_spec s :
  pdf_match_here s = true ->
  exists pre c, s = pre ++ c :: js ".pdf" /\ line_terminator c = false.
Proof.
  induction s as [|c rest IH]; cbn [pdf_match_here]; [discriminate|].
  intros H. apply andb_true_iff in H. destruct H as [Hc H].
  apply negb_true_iff in Hc. apply orb_true_iff in H. destruct H as [H|H].
  - apply jsstring_eqb_eq in H. subst rest. exists [], c. auto.
  - destruct (IH H) as (pre & c' & -> & Hc'). exists (c :: pre), c'. auto.
Qed.

(** The pattern [/.+\.pdf$/] matches the strings that end in [.pdf] with, just
    before it, a code unit that is not a line terminator. *)
Lemma pdf_match_spec m :
  pdf_match m = true <->
  exists pre c, m = pre ++ c :: js ".pdf" /\ line_terminator c = false.
Proof.
  split.
  - induction m as [|x rest IH]; cbn [pdf_match pdf_match_here]; [discriminate|].
    intros H. apply orb_true_iff in H. destruct H as [H|H].
    + now apply (pdf_match_here_spec (x :: rest)).
    + destruct (IH H) as (pre & c & -> & Hc). exists (x :: pre), c. auto.
  - intros (pre & c & -> & Hc).
    induction pre as [|x pre IH].
    + cbn [app pdf_match pdf_match_here]. rewrite Hc.
      replace (jsstring_eqb (js ".pdf") (js ".pdf")) with true
        by (symmetry; now apply jsstring_eqb_eq).
      reflexivity.
    + cbn [app pdf_match]. rewrite IH. apply orb_true_r.
Qed.

Section NotifierProperties.
Context {node : Platform}.

(** The calls made by the loop are the requests for a prefix of [files], and
    for all of them unless an upload is rejected. *)
Lemma upload_loop_prefix slack token channels files : forall calls,
  let requests :=
    map (fun file => mkUpload token (path_basename file) file channels) files in
  exists done,
    fst (upload_loop slack token channels files calls) = calls ++ done /\
    (exists rest, requests = done ++ rest) /\
    (snd (upload_loop slack token channels files calls) = Ok tt -> done = requests).
Proof.
  induction files as [|file rest IH]; intros calls; cbn [upload_loop map].
  - exists []. cbn. rewrite app_nil_r. repeat split. now exists [].
  - destruct (slack calls _) eqn:E.
    + destruct (IH (calls ++ [mkUpload token (path_basename file) file channels]))
        as (done & H1 & (tl & H2) & H3).
      exists (mkUpload token (path_basename file) file channels :: done).
      rewrite H1, <- app_assoc. cbn. repeat split.
      * exists tl. cbn in H2. now rewrite H2.
      * intros H. now rewrite (H3 H).
    + exists [mkUpload token (path_basename file) file channels]. cbn.
      repeat split; [eexists; reflexivity|discriminate].
Qed.

(** A rejected upload ends the loop with the rejection. *)
Lemma upload_loop_rejected slack token channels files : forall calls before u after,
  map (fun file => mkUpload token (path_basename file) file channels) files =
    before ++ u :: after ->
  (forall j v, nth_error before j = Some v ->
               slack (calls ++ firstn j before) v = true) ->
  slack (calls ++ before) u = false ->
  upload_loop slack token channels files calls =
    (calls ++ before ++ [u], Throw UploadError).
Proof.
  induction files as [|file rest IH]; intros calls before u after Hreq Hok Hbad.
  - destruct before; discriminate.
  - cbn [map] in Hreq. cbn [upload_loop].
    destruct before as [|v before'].
    + cbn in Hreq. inversion Hreq; subst. rewrite app_nil_r in Hbad.
      rewrite Hbad. reflexivity.
    + cbn in Hreq. inversion Hreq as [[Hv Hrest]].
      pose proof (Hok 0%nat v eq_refl) as H0. cbn in H0. rewrite app_nil_r in H0.
      rewrite Hv, H0.
      rewrite (IH (calls ++ [v]) before' u after Hrest).
      * now rewrite <- app_assoc.
      * intros j w Hj. rewrite <- app_assoc. exact (Hok (S j) w Hj).
      * now rewrite <- app_assoc.
Qed.


(** C10 (a rejected upload).  When the uploads before the one for [u] are
    accepted and the upload of [u] is rejected, [uploadNewMagazines] ends with
    that rejection, and the uploads it has made end with [u]: none of the
    files after it is uploaded. *)
Theorem notifier_failure (slack : Slack) (slackToken slackChannels : jsstring)
    (magazines : list jsstring) (before : list Upload) (u : Upload)
    (after : list Upload) :
  map (fun file => mkUpload slackToken (path_basename file) file slackChannels)
      (filter pdf_match magazines) = before ++ u :: after ->
  (forall j v, nth_error before j = Some v -> slack (firstn j before) v = true) ->
  slack before u = false ->
  uploadNewMagazines slack slackToken slackChannels magazines =
    (before ++ [u], Throw UploadError).
Proof.
  intros Hreq Hok Hbad. unfold uploadNewMagazines.
  destruct (filter pdf_match magazines) as [|f fs] eqn:E.
  - destruct before; discriminate.
  - exact (upload_loop_rejected slack slackToken slackChannels (f :: fs) []
                                before u after Hreq Hok Hbad).
Qed.

End NotifierProperties.


(** The first upload is rejected: the second file is not uploaded. *)
Lemma notifier_failure_witness :
  let node := posix (js "/app") in
  let upload := fun name => mkUpload (js "token") (js name) (js name) (js "#magazines") in
  let slack : Slack := fun calls _ => negb (Nat.eqb (length calls) 0) in
  map (fun file => mkUpload (js "token") (path_basename file) file (js "#magazines"))
      (filter pdf_match [js "a.pdf"; js "b.epub"; js "c.pdf"]) =
    [] ++ upload "a.pdf"%string :: [upload "c.pdf"%string] /\
  (forall j v, nth_error (@nil Upload) j = Some v -> slack (firstn j []) v = true) /\
  slack [] (upload "a.pdf"%string) = false /\
  uploadNewMagazines slack (js "token") (js "#magazines")
                     [js "a.pdf"; js "b.epub"; js "c.pdf"] =
    ([upload "a.pdf"%string], Throw UploadError).
Proof.
  intros node upload slack.
  assert (H1 : map (fun file => mkUpload (js "token") (path_basename file) file
                                         (js "#magazines"))
      (filter pdf_match [js "a.pdf"; js "b.epub"; js "c.pdf"]) =
    [] ++ upload "a.pdf"%string :: [upload "c.pdf"%string]) by reflexivity.
  assert (H2 : forall j v, nth_error (@nil Upload) j = Some v ->
                           slack (firstn j []) v = true)
    by (intros [|j] v Hv; discriminate).
  assert (H3 : slack [] (upload "a.pdf"%string) = false) by reflexivity.
  split; [exact H1|]. split; [exact H2|]. split; [exact H3|].
  exact (notifier_failure slack (js "token") (js "#magazines")
           [js "a.pdf"; js "b.epub"; js "c.pdf"] [] (upload "a.pdf"%string)
           [upload "c.pdf"%string] H1 H2 H3).
Defined.


(** * Further properties of the scheduler *)

Section FurtherScheduler.
Context {net : Network}.

(** X1 (the pool is kept full).  In every world of a run, if
    [runningRequests] is below the cap (the test [runningRequests >=
    maxRequests] fails) then every request of the batch has been started: a
    request waits only while the cap is reached. *)
Theorem work_conserving (maxRequests : Number) (acts : list Action) (w : World) :
  reachable maxRequests acts w ->
  running_ge (runningRequests (this w)) maxRequests = false ->
  forall r, In r (requestsList (this w)) -> started r = true.
Proof.
  intros R Hlt r Hr. pose proof (reachable_Inv _ _ _ R) as I.
  pose proof (inv_busy _ _ _ _ I Hlt) as Hall.
  rewrite (st_requests _ _ _ _ (inv_struct _ _ _ _ I)), Hall, skipn_all in Hr.
  cbn [map] in Hr. rewrite app_nil_r in Hr.
  apply in_map_iff in Hr. destruct Hr as (c & <- & _). reflexivity.
Qed.

(** X2 (a cap of zero or less stalls).  With [0 >= maxRequests] and a batch
    that is not empty, [startNext] leaves through its [return] at the first
    request: no closure is ever invoked, no event can occur, and the promise
    [scrape] waits for is never resolved. *)
Theorem nonpositive_cap_stalls (maxRequests : Number) (acts : list Action) (w : World) :
  running_ge 0 maxRequests = true ->
  acts <> [] ->
  reachable maxRequests acts w ->
  w = dispatch maxRequests acts /\
  activations w = [] /\
  (forall r, In r (requestsList (this w)) -> started r = false) /\
  resolved w = false /\
  scrape_result w = None /\
  (forall e, resume w e = None).
Proof.
  intros Hmax Hne R.
  assert (Hnone : forall w0, reachable maxRequests acts w0 -> activations w0 = []).
  { intros w0 R0. pose proof (reachable_Inv _ _ _ R0) as I0.
    destruct (activations w0) as [|a l] eqn:E; [reflexivity|].
    rewrite (st_positive _ _ _ _ (inv_struct _ _ _ _ I0)) in Hmax;
      [discriminate|]. rewrite E. discriminate. }
  assert (Hstuck : forall w0 e, reachable maxRequests acts w0 -> resume w0 e = None).
  { intros w0 e R0. unfold resume. rewrite (Hnone w0 R0).
    now destruct (ev_activation e). }
  assert (R0 : reachable maxRequests acts (dispatch maxRequests acts))
    by (exists []; reflexivity).
  assert (Hw : w = dispatch maxRequests acts).
  { destruct R as [es Hes].
    now destruct (run_nil_of_no_event _ (fun e => Hstuck _ e R0) _ _ Hes). }
  pose proof (reachable_Inv _ _ _ R) as I.
  assert (Hres : resolved w = false).
  { destruct (resolved w) eqn:Er; [|reflexivity].
    apply (inv_resolve _ _ _ _ I) in Er.
    rewrite (st_completed _ _ _ _ (inv_struct _ _ _ _ I)), (Hnone w R) in Er.
    destruct acts; [now elim Hne|]. cbn in Er. lia. }
  repeat split; auto.
  - intros r Hr.
    rewrite (st_requests _ _ _ _ (inv_struct _ _ _ _ I)), (Hnone w R) in Hr.
    cbn in Hr. apply in_map_iff in Hr. destruct Hr as (c & <- & _). reflexivity.
  - unfold scrape_result. now rewrite Hres.
Qed.

(** X3 (no deadlock).  With a cap above zero, a run that is not yet
    resolved always has an activation in flight: the settlement of the promise
    it awaits, fulfilled or rejected, is a step of the run. *)
Theorem run_not_stuck (maxRequests : Number) (acts : list Action) (w : World) :
  running_ge 0 maxRequests = false ->
  reachable maxRequests acts w ->
  resolved w = false ->
  exists k w1 w2,
    resume w (mkEvent k true) = Some w1 /\
    resume w (mkEvent k false) = Some w2.
Proof.
  intros Hmax R Hres. pose proof (reachable_Inv _ _ _ R) as I.
  destruct (unresolved_in_flight _ _ _ I Hmax Hres) as (k & a & Hk & Ha & Hrej).
  exists k. unfold resume in *. cbn [ev_activation ev_ok] in *. rewrite Hk in *.
  unfold settled in Ha. destruct (stage a); try discriminate; eauto.
Qed.

(** X4 (a run is finite).  A batch of [n] requests sees at most [3 * n]
    settlements: each closure awaits [request.get], [fs.mkdir] and
    [fs.writeFile] in turn and is never resumed after its [finally] block. *)
Theorem run_bounded (maxRequests : Number) (acts : list Action) (es : list Event)
    (w : World) :
  run (dispatch maxRequests acts) es = Some w ->
  (length es <= 3 * length acts)%nat.
Proof.
  intros H.
  pose proof (run_work _ _ _ _ _ (dispatch_Inv maxRequests acts) H).
  pose proof (work_le _ _ _ (dispatch_Inv maxRequests acts)). lia.
Qed.

Lemma start_order_aux cap acts w :
  Inv net cap acts w ->
  (forall i j, (i <= j)%nat -> is_started w j = true -> is_started w i = true) /\
  (forall k a, nth_error (activations w) k = Some a ->
     task a = k /\
     nth_error (requestsList (this w)) k = Some (mkRequest true (closure a))).
Proof.
  intros I. pose proof (inv_struct _ _ _ _ I) as S. split.
  - intros i j Hij. rewrite !(is_started_spec _ _ _ _ I).
    intros H. apply Nat.ltb_lt in H. apply Nat.ltb_lt. lia.
  - intros k a Hk.
    assert (Hlt : (k < length (activations w))%nat)
      by (apply nth_error_Some; rewrite Hk; discriminate).
    assert (Ht : task a = k).
    { pose proof (map_nth_error task _ _ Hk) as H.
      rewrite (st_tasks _ _ _ _ S), nth_error_seq in H.
      destruct (Nat.ltb_spec k (length (activations w))); [|lia].
      now inversion H. }
    split; [exact Ht|].
    pose proof (map_nth_error closure _ _ Hk) as Hc.
    rewrite (st_closures _ _ _ _ S) in Hc.
    rewrite (st_requests _ _ _ _ S), nth_error_app1
      by (rewrite length_map, length_firstn; pose proof (st_len _ _ _ _ S); lia).
    now apply map_nth_error.
Qed.

(** X5 (requests start in list order).  In every world of a run the started
    requests are an initial part of [requestsList], and the [k]-th closure
    call was made on the [k]-th request, with that request's closure. *)
Theorem start_order (maxRequests : Number) (acts : list Action) (w : World) :
  reachable maxRequests acts w ->
  (forall i j, (i <= j)%nat -> is_started w j = true -> is_started w i = true) /\
  (forall k a, nth_error (activations w) k = Some a ->
     task a = k /\
     nth_error (requestsList (this w)) k = Some (mkRequest true (closure a))).
Proof.
  intros R. exact (start_order_aux _ _ _ (reachable_Inv _ _ _ R)).
Qed.

(** X6 (nothing runs after the result).  Once the promise [scrape] waits for
    is resolved, every closure that was called has run its [finally] block and
    no event can occur: the list [scrape] returns is not changed afterwards. *)
Theorem resolved_quiescent (maxRequests : Number) (acts : list Action) (w : World) :
  reachable maxRequests acts w ->
  resolved w = true ->
  in_flight w = 0%nat /\
  runningRequests (this w) = 0 /\
  (forall e, resume w e = None) /\
  (forall es w', run w es = Some w' -> w' = w).
Proof.
  intros R Hres. pose proof (reachable_Inv _ _ _ R) as I.
  pose proof (inv_struct _ _ _ _ I) as S.
  pose proof (proj1 (resolved_iff _ _ _ I) Hres) as Hdone.
  rewrite (st_completed _ _ _ _ S) in Hdone.
  pose proof (st_len _ _ _ _ S) as Hlen.
  pose proof (count_le_length settled (activations w)) as Hle.
  pose proof (count_settled_unsettled (activations w)) as Hsum.
  assert (Hfly : in_flight w = 0%nat) by (unfold in_flight; lia).
  assert (Hall : forall a, In a (activations w) -> settled a = true).
  { apply (proj1 (count_all _ _)). lia. }
  assert (Hno : forall e, resume w e = None).
  { intros e. unfold resume.
    destruct (nth_error (activations w) (ev_activation e)) as [a|] eqn:E;
      [|reflexivity].
    pose proof (Hall a (nth_error_In _ _ E)) as Ha.
    unfold settled in Ha. destruct (stage a); try discriminate.
    now destruct (ev_ok e). }
  split; [exact Hfly|]. split.
  - rewrite (st_running _ _ _ _ S). fold (in_flight w). lia.
  - split; [exact Hno|]. intros es w' H.
    now destruct (run_nil_of_no_event _ Hno _ _ H).
Qed.

Lemma count_started_requests m (acts : list Action) :
  (m <= length acts)%nat ->
  count started (map (mkRequest true) (firstn m acts) ++
                 map (mkRequest false) (skipn m acts)) = m.
Proof.
  intros H. rewrite count_app.
  replace (count started (map (mkRequest false) (skipn m acts))) with 0%nat.
  - rewrite Nat.add_0_r, count_map. cbn [started].
    replace (count (fun _ : Action => true) (firstn m acts))
      with (length (firstn m acts)).
    + rewrite length_firstn. lia.
    + symmetry. apply (proj2 (count_all _ _)). reflexivity.
  - symmetry. apply count_none. intros r Hr.
    apply in_map_iff in Hr. destruct Hr as (c & <- & _). reflexivity.
Qed.

(** X7 (the counters add up between events).  In every world of a run, that
    is after [scrape] has called [startNext] and after each event has been
    handled to its end, [runningRequests] and [completedRequests] are not
    negative, their sum is the number of requests whose [started] flag is set,
    and [completedRequests] does not pass the length of the batch.  (While a
    pass of [startNext] is calling a closure the counter can be below zero:
    [counter_below_zero].) *)
Theorem counters_balance (maxRequests : Number) (acts : list Action) (w : World) :
  reachable maxRequests acts w ->
  0 <= runningRequests (this w) /\
  0 <= completedRequests (this w) <= Z.of_nat (length (requestsList (this w))) /\
  runningRequests (this w) + completedRequests (this w) =
    Z.of_nat (count started (requestsList (this w))).
Proof.
  intros R. pose proof (reachable_Inv _ _ _ R) as I.
  pose proof (inv_struct _ _ _ _ I) as S.
  pose proof (st_len _ _ _ _ S) as Hlen.
  pose proof (count_le_length settled (activations w)) as Hle.
  pose proof (count_settled_unsettled (activations w)) as Hsum.
  rewrite (requests_length _ _ _ I), (st_running _ _ _ _ S), (st_completed _ _ _ _ S).
  rewrite (st_requests _ _ _ _ S), (count_started_requests _ _ Hlen).
  lia.
Qed.

Lemma newMagazines_requested cap acts w :
  Inv net cap acts w ->
  (forall p, In p (newMagazines (this w)) ->
     exists r, In r (requestsList (this w)) /\
               started r = true /\ filename (scrape r) = p) /\
  Z.of_nat (length (newMagazines (this w))) <= completedRequests (this w).
Proof.
  intros I.
  pose proof (inv_struct _ _ _ _ I) as S.
  pose proof (st_new _ _ _ _ S) as Hperm. split.
  - intros p Hp.
    apply (Permutation_in _ Hperm) in Hp.
    apply in_map_iff in Hp. destruct Hp as (a & <- & Ha).
    apply filter_In in Ha. destruct Ha as [Ha _].
    apply In_nth_error in Ha. destruct Ha as (k & Hk).
    destruct (proj2 (start_order_aux _ _ _ I) k a Hk) as [_ Hr].
    exists (mkRequest true (closure a)). split; [|split; reflexivity].
    eapply nth_error_In, Hr.
  - rewrite (Permutation_length Hperm), length_map, (st_completed _ _ _ _ S).
    assert (length (filter succeeded (activations w)) <=
            count settled (activations w))%nat; [|lia].
    clear. unfold count. induction (activations w) as [|a l IH]; cbn [filter length]; [lia|].
    unfold succeeded at 1, settled at 1.
    destruct (stage a) as [| | |[|]]; cbn [length]; lia.
Qed.

(** X8 (what is reported was requested).  In every world of a run each path in
    [newMagazines] is the destination of a started request of the batch, and
    [newMagazines] has at most [completedRequests] entries. *)
Theorem reported_paths_requested (maxRequests : Number) (acts : list Action) (w : World) :
  reachable maxRequests acts w ->
  (forall p, In p (newMagazines (this w)) ->
     exists r, In r (requestsList (this w)) /\
               started r = true /\ filename (scrape r) = p) /\
  Z.of_nat (length (newMagazines (this w))) <= completedRequests (this w).
Proof.
  intros R. exact (newMagazines_requested _ _ _ (reachable_Inv _ _ _ R)).
Qed.

(** X9 (a path is reported only after the file is written).  An event
    changes [newMagazines] only when it fulfils the [fs.writeFile] promise of an
    activation, and then appends that activation's destination; the fulfilment
    of [request.get] or [fs.mkdir] changes no field of the scraper. *)
Theorem report_only_after_write (w : World) (e : Event) (w' : World) :
  resume w e = Some w' ->
  exists a,
    nth_error (activations w) (ev_activation e) = Some a /\
    (if ev_ok e
     then match stage a with
          | AwaitWrite =>
              newMagazines (this w') = newMagazines (this w) ++ [filename (closure a)]
          | _ => this w' = this w
          end
     else newMagazines (this w') = newMagazines (this w)).
Proof.
  unfold resume. intros H.
  destruct (nth_error (activations w) (ev_activation e)) as [a|] eqn:E; [|discriminate].
  exists a. split; [reflexivity|].
  destruct (stage a); destruct (ev_ok e); try discriminate;
    inversion H; subst w'; clear H;
    try reflexivity; rewrite finally_settling;
    try exact (fr_news _ _ (startNext_Frame _)).
Qed.

End FurtherScheduler.

Lemma work_conserving_witness :
  reachable (net := reliable) (integer 2) five_issues five_issues_done /\
  running_ge (runningRequests (this five_issues_done)) (integer 2) = false /\
  forall r, In r (requestsList (this five_issues_done)) -> started r = true.
Proof.
  assert (R : reachable (net := reliable) (integer 2) five_issues five_issues_done)
    by (exists third_fails; vm_compute; reflexivity).
  assert (H : running_ge (runningRequests (this five_issues_done)) (integer 2) = false)
    by reflexivity.
  split; [exact R|]. split; [exact H|].
  exact (work_conserving (net := reliable) (integer 2) five_issues five_issues_done R H).
Defined.

Lemma nonpositive_cap_stalls_witness :
  running_ge 0 (integer 0) = true /\ five_issues <> [] /\
  reachable (net := reliable) (integer 0) five_issues
            (dispatch (net := reliable) (integer 0) five_issues) /\
  scrape_result (dispatch (net := reliable) (integer 0) five_issues) = None.
Proof.
  assert (H1 : running_ge 0 (integer 0) = true) by reflexivity.
  assert (H2 : five_issues <> []) by discriminate.
  assert (R : reachable (net := reliable) (integer 0) five_issues
                        (dispatch (net := reliable) (integer 0) five_issues))
    by (exists []; reflexivity).
  split; [exact H1|]. split; [exact H2|]. split; [exact R|].
  exact (proj1 (proj2 (proj2 (proj2 (proj2
           (nonpositive_cap_stalls (net := reliable) (integer 0) five_issues _
              H1 H2 R)))))).
Defined.

Lemma run_not_stuck_witness :
  running_ge 0 (integer 2) = false /\
  reachable (net := reliable) (integer 2) five_issues five_issues_midway /\
  resolved five_issues_midway = false /\
  exists k w1 w2,
    resume (net := reliable) five_issues_midway (mkEvent k true) = Some w1 /\
    resume (net := reliable) five_issues_midway (mkEvent k false) = Some w2.
Proof.
  assert (H1 : running_ge 0 (integer 2) = false) by reflexivity.
  assert (R : reachable (net := reliable) (integer 2) five_issues five_issues_midway)
    by (exists (firstn 4 third_fails); vm_compute; reflexivity).
  assert (H3 : resolved five_issues_midway = false) by reflexivity.
  split; [exact H1|]. split; [exact R|]. split; [exact H3|].
  exact (run_not_stuck (net := reliable) (integer 2) five_issues five_issues_midway H1 R H3).
Defined.

Lemma run_bounded_witness :
  run (net := reliable) (dispatch (net := reliable) (integer 2) five_issues)
      third_fails = Some five_issues_done /\
  (length third_fails <= 3 * length five_issues)%nat.
Proof.
  assert (H : run (net := reliable) (dispatch (net := reliable) (integer 2) five_issues)
                  third_fails = Some five_issues_done)
    by (vm_compute; reflexivity).
  split; [exact H|].
  exact (run_bounded (net := reliable) (integer 2) five_issues third_fails five_issues_done H).
Defined.

Lemma start_order_witness :
  reachable (net := reliable) (integer 2) five_issues five_issues_midway /\
  (is_started five_issues_midway 2 = true -> is_started five_issues_midway 1 = true).
Proof.
  assert (R : reachable (net := reliable) (integer 2) five_issues five_issues_midway)
    by (exists (firstn 4 third_fails); vm_compute; reflexivity).
  split; [exact R|].
  exact (proj1 (start_order (net := reliable) (integer 2) five_issues five_issues_midway R) 1%nat 2%nat
               (Nat.le_succ_diag_r 1)).
Defined.

Lemma resolved_quiescent_witness :
  reachable (net := reliable) (integer 2) five_issues five_issues_done /\
  resolved five_issues_done = true /\
  in_flight five_issues_done = 0%nat.
Proof.
  assert (R : reachable (net := reliable) (integer 2) five_issues five_issues_done)
    by (exists third_fails; vm_compute; reflexivity).
  assert (H : resolved five_issues_done = true) by reflexivity.
  split; [exact R|]. split; [exact H|].
  exact (proj1 (resolved_quiescent (net := reliable) (integer 2) five_issues five_issues_done R H)).
Defined.

Lemma counters_balance_witness :
  reachable (net := reliable) (integer 2) five_issues five_issues_midway /\
  runningRequests (this five_issues_midway) +
  completedRequests (this five_issues_midway) =
    Z.of_nat (count started (requestsList (this five_issues_midway))).
Proof.
  assert (R : reachable (net := reliable) (integer 2) five_issues five_issues_midway)
    by (exists (firstn 4 third_fails); vm_compute; reflexivity).
  split; [exact R|].
  exact (proj2 (proj2 (counters_balance (net := reliable) (integer 2) five_issues five_issues_midway R))).
Defined.

Lemma reported_paths_requested_witness :
  reachable (net := reliable) (integer 2) five_issues five_issues_done /\
  Z.of_nat (length (newMagazines (this five_issues_done))) <=
    completedRequests (this five_issues_done).
Proof.
  assert (R : reachable (net := reliable) (integer 2) five_issues five_issues_done)
    by (exists third_fails; vm_compute; reflexivity).
  split; [exact R|].
  exact (proj2 (reported_paths_requested (net := reliable) (integer 2) five_issues five_issues_done R)).
Defined.

Lemma report_only_after_write_witness :
  resume (net := reliable) five_issues_midway (mkEvent 1 true) =
    Some (suspend_at 1 AwaitWrite five_issues_midway) /\
  this (suspend_at 1 AwaitWrite five_issues_midway) = this five_issues_midway.
Proof.
  assert (H : resume (net := reliable) five_issues_midway (mkEvent 1 true) =
              Some (suspend_at 1 AwaitWrite five_issues_midway)) by reflexivity.
  split; [exact H|].
  destruct (report_only_after_write (net := reliable) _ _ _ H) as (a & Ha & Hrest).
  assert (Ea : a = mkActivation 1 (issue "2.pdf") AwaitMkdir).
  { cbn in Ha. now inversion Ha. }
  subst a. exact Hrest.
Defined.

(** While a pass of [startNext] is calling a closure whose [request.get]
    throws, the [finally] block of the closure has decremented
    [runningRequests] before the pass increments it. *)
Example counter_below_zero :
  let w0 := called 0 (mkRequest false (fetch "bad")) (Settled false) 1 1
                   (enrolled (integer 1) bad_first) in
  runningRequests (this w0) = -1 /\ completedRequests (this w0) = 1.
Proof. split; reflexivity. Qed.


(** * Further properties of extraction and enrollment *)

Section FrontProperties.
Context {node : Platform} {net : Network}.

(** X10 (every run starts clean).  [scrape] begins with [scrapeInit]: whatever
    counters, requests and results an earlier run left in the object, the run
    depends on the object only through [maxRequests]. *)
Theorem scrape_starts_clean (dom : Result Document) (fs : jsstring -> bool)
    (s s' : Scraper) (directory : jsstring) (skipExisting : bool) :
  _maxRequests s = _maxRequests s' ->
  Scraper_scrape dom fs s directory skipExisting =
  Scraper_scrape dom fs s' directory skipExisting.
Proof.
  intros H. rewrite !Scraper_scrape_dispatch, H. reflexivity.
Qed.

(** X11 (enrollment keeps the order of the links).  After the enrollment loop
    of [scrape] the batch holds, in the order of the links and with repetitions
    kept, the download of every link that is not skipped; a link is skipped only
    when [skipExisting] is set and its destination exists.  Every request is
    enrolled unstarted, and the counters are still zero. *)
Theorem enrollment_order (fs : jsstring -> bool) (s : Scraper)
    (directory : jsstring) (skipExisting : bool)
    (links : list ProgrammerMagazineLink) :
  let s1 := enroll fs directory skipExisting links (scrapeInit s) in
  map scrape (requestsList s1) =
    map (download_of directory)
        (filter (fun link =>
                   negb (skipExisting && fs (filename (download_of directory link))))
                links) /\
  (forall link, In link links ->
     fs (filename (download_of directory link)) = false ->
     In (download_of directory link) (map scrape (requestsList s1))) /\
  (forall r, In r (requestsList s1) -> started r = false) /\
  runningRequests s1 = 0 /\ completedRequests s1 = 0 /\
  _maxRequests s1 = _maxRequests s.
Proof.
  cbv zeta. rewrite enroll_spec.
  cbn [requestsList runningRequests completedRequests _maxRequests scrapeInit app].
  rewrite map_map. cbn [scrape]. rewrite map_id.
  split; [reflexivity|]. split; [|split; [|auto]].
  - intros link Hin Hfs. unfold scheduled. apply in_map. apply filter_In.
    split; [exact Hin|]. rewrite Hfs. now rewrite andb_false_r.
  - intros r Hr. apply in_map_iff in Hr. destruct Hr as (c & <- & _). reflexivity.
Qed.

(** X12 (where a link comes from).  Every link [getLinks] returns was made from
    an anchor whose address parses to a non-empty path with a non-empty
    extension: its [url] is the non-empty [href] of the parsed address and its
    [filename] is the decoded basename of that path. *)
Theorem link_origin (dom : Document) (links : list ProgrammerMagazineLink)
    (link : ProgrammerMagazineLink) :
  getLinks (Ok dom) = Ok links ->
  In link links ->
  exists format u p,
    In (id link, format) (processed_anchors dom) /\
    url_parse (href format) = Ok u /\
    url_path u = Some p /\ p <> [] /\
    path_extname p <> [] /\
    url link = url_href u /\ url link <> [] /\
    decodeURI (path_basename p) = Some (link_filename link).
Proof.
  intros Hl Hin. pose proof (getLinks_spec dom) as Hspec. rewrite Hl in Hspec.
  destruct Hspec as [-> _]. apply in_flat_map in Hin.
  destruct Hin as ([sid format] & Hproc & Hlink). cbn [fst snd] in Hlink.
  unfold anchor_links in Hlink.
  destruct (getLinks_anchor sid format) as [[l|]|e] eqn:E;
    try now destruct Hlink.
  destruct Hlink as [<-|[]].
  unfold getLinks_anchor in E.
  destruct (url_parse (href format)) as [u|] eqn:Eu; [|discriminate].
  cbn [bind] in E.
  destruct (url_path u) as [[|c p]|] eqn:Ep; try discriminate.
  destruct (url_href u) as [|h hs] eqn:Eh; [discriminate|].
  cbn [truthy negb is_empty orb] in E.
  destruct (path_extname (c :: p)) as [|x xs] eqn:Ex; [discriminate|].
  cbn [is_empty] in E.
  destruct (decodeURI (path_basename (c :: p))) as [f|] eqn:Ed; [|discriminate].
  inversion E; subst l. cbn [id url link_filename].
  exists format, u, (c :: p). rewrite Ex, Eh.
  repeat split; auto; discriminate.
Qed.

(** X13 (when extraction returns).  [getLinks] returns exactly when no
    processed anchor makes [url.parse] or [decodeURI] throw, and then it returns
    the links of the processed anchors in document order, one for each anchor
    that is not skipped. *)
Theorem getLinks_returns_iff (dom : Document) (links : list ProgrammerMagazineLink) :
  getLinks (Ok dom) = Ok links <->
  (forall a, In a (processed_anchors dom) ->
             exists r, getLinks_anchor (fst a) (snd a) = Ok r) /\
  links = flat_map (fun a => anchor_links (fst a) (snd a)) (processed_anchors dom).
Proof.
  pose proof (getLinks_spec dom) as Hspec. split.
  - intros H. rewrite H in Hspec. destruct Hspec as [-> Hall]. auto.
  - intros [Hall ->]. destruct (getLinks (Ok dom)) as [out|e].
    + destruct Hspec as [-> _]. reflexivity.
    + now elim (first_failure_not_ok _ _ Hspec).
Qed.

(** X14 (one bad anchor loses the page).  [getLinks] fails exactly when some
    processed anchor makes [url.parse] or [decodeURI] throw; it fails with what
    the first such anchor, in document order, throws, and no link of the page
    is returned. *)
Theorem getLinks_fails_iff (dom : Document) (e : Exception) :
  getLinks (Ok dom) = Throw e <->
  exists before a after,
    processed_anchors dom = before ++ a :: after /\
    (forall b, In b before -> exists r, getLinks_anchor (fst b) (snd b) = Ok r) /\
    getLinks_anchor (fst a) (snd a) = Throw e.
Proof.
  pose proof (getLinks_spec dom) as Hspec. split.
  - intros H. rewrite H in Hspec. exact Hspec.
  - intros Hf. destruct (getLinks (Ok dom)) as [out|e0].
    + destruct Hspec as [_ Hall]. now elim (first_failure_not_ok _ _ Hf).
    + f_equal. exact (first_failure_unique _ _ _ Hspec Hf).
Qed.

End FrontProperties.

Lemma scrape_starts_clean_witness :
  let node := posix (js "/app") in
  let net := reliable in
  let used :=
    {| _maxRequests := integer 5; runningRequests := 0; completedRequests := 5;
       requestsList := requestsList (this five_issues_done);
       allRequestsCompleted := Resolve;
       newMagazines := newMagazines (this five_issues_done) |} in
  _maxRequests (new_scraper (integer 5)) = _maxRequests used /\
  Scraper_scrape (Ok my_magazines) (fun _ => false) (new_scraper (integer 5)) [] true =
  Scraper_scrape (Ok my_magazines) (fun _ => false) used [] true.
Proof.
  intros node net used.
  assert (H : _maxRequests (new_scraper (integer 5)) = _maxRequests used) by reflexivity.
  split; [exact H|].
  exact (scrape_starts_clean (Ok my_magazines) (fun _ => false) (new_scraper (integer 5))
           used [] true H).
Defined.

Lemma link_origin_witness :
  let node := posix (js "/app") in
  let link := mkLink (js "2020-01") (js "https://example.com/issue/2020-01.pdf")
                     (js "2020-01.pdf") in
  getLinks (Ok my_magazines) = Ok [link] /\
  In link [link] /\
  exists format u p,
    url_parse (href format) = Ok u /\ url_path u = Some p /\
    decodeURI (path_basename p) = Some (link_filename link).
Proof.
  intros node link.
  assert (H1 : getLinks (Ok my_magazines) = Ok [link]) by (vm_compute; reflexivity).
  assert (H2 : In link [link]) by (now left).
  split; [exact H1|]. split; [exact H2|].
  destruct (link_origin my_magazines [link] link H1 H2)
    as (format & u & p & _ & Hu & Hp & _ & _ & _ & _ & Hd).
  exists format, u, p. auto.
Defined.


(** * Further properties of the notifier *)

Lemma app_same_suffix {A} (l1 l2 l3 l4 : list A) :
  l1 ++ l2 = l3 ++ l4 -> (length l4 <= length l2)%nat ->
  exists l, l2 = l ++ l4.
Proof.
  intros H Hlen. apply app_eq_app in H. destruct H as (l & [[-> ->]|[-> ->]]).
  - rewrite length_app in Hlen. destruct l; [|cbn in Hlen; lia].
    exists []. reflexivity.
  - exists l. reflexivity.
Qed.

(** X15 (only the end of a path decides).  Whether a path matches
    [/.+\.pdf$/] depends only on its last five code units: putting anything in
    front of a path of at least five code units, a directory for instance, does
    not change the answer. *)
Theorem pdf_match_suffix (pre m : jsstring) :
  (5 <= length m)%nat ->
  pdf_match (pre ++ m) = pdf_match m.
Proof.
  intros Hlen.
  destruct (pdf_match m) eqn:Em.
  - apply pdf_match_spec in Em. destruct Em as (p & c & -> & Hc).
    apply pdf_match_spec. exists (pre ++ p), c. now rewrite <- app_assoc.
  - destruct (pdf_match (pre ++ m)) eqn:E; [|reflexivity].
    apply pdf_match_spec in E. destruct E as (p & c & Heq & Hc).
    destruct (app_same_suffix _ _ _ _ Heq ltac:(cbn; lia)) as (l & Hl).
    assert (pdf_match m = true) by (apply pdf_match_spec; eauto).
    congruence.
Qed.

Lemma pdf_match_suffix_witness :
  (5 <= length (js "a.pdf"))%nat /\
  pdf_match (js "/app/programista/2020-01/" ++ js "a.pdf") = pdf_match (js "a.pdf").
Proof.
  assert (H : (5 <= length (js "a.pdf"))%nat) by (cbn; lia).
  split; [exact H|].
  exact (pdf_match_suffix (js "/app/programista/2020-01/") (js "a.pdf") H).
Defined.

Section NotifierExtras.
Context {node : Platform}.

(** The calls the loop adds: all but the last were accepted, and the loop
    ends with a rejection exactly when the last one was rejected. *)
Lemma upload_loop_calls slack token channels files : forall calls,
  exists done,
    fst (upload_loop slack token channels files calls) = calls ++ done /\
    (forall j v, nth_error done j = Some v -> (S j < length done)%nat ->
                 slack (calls ++ firstn j done) v = true) /\
    match snd (upload_loop slack token channels files calls) with
    | Ok _ =>
        forall j v, nth_error done j = Some v ->
                    slack (calls ++ firstn j done) v = true
    | Throw e =>
        e = UploadError /\
        exists before u, done = before ++ [u] /\ slack (calls ++ before) u = false
    end.
Proof.
  induction files as [|file rest IH]; intros calls; cbn [upload_loop].
  - exists []. cbn. rewrite app_nil_r. repeat split; intros [|j] v; discriminate.
  - set (u := mkUpload token (path_basename file) file channels).
    destruct (slack calls u) eqn:E.
    + destruct (IH (calls ++ [u])) as (done & H1 & H2 & H3).
      exists (u :: done). rewrite H1, <- app_assoc. split; [reflexivity|].
      assert (Hshift : forall j v, nth_error (u :: done) j = Some v ->
                (forall j' v', nth_error done j' = Some v' -> j = S j' ->
                               slack ((calls ++ [u]) ++ firstn j' done) v' = true) ->
                slack (calls ++ firstn j (u :: done)) v = true).
      { intros [|j] v Hv Hk; cbn in Hv.
        - inversion Hv; subst. cbn. now rewrite app_nil_r.
        - specialize (Hk j v Hv eq_refl). rewrite <- app_assoc in Hk. exact Hk. }
      split.
      * intros j v Hv Hj. apply Hshift; [exact Hv|].
        intros j' v' Hv' ->. apply H2; [exact Hv'|cbn in Hj; lia].
      * destruct (snd (upload_loop slack token channels rest (calls ++ [u])))
          as [[]|e].
        -- intros j v Hv. apply Hshift; [exact Hv|].
           intros j' v' Hv' _. now apply H3.
        -- destruct H3 as [-> (before & x & -> & Hx)]. split; [reflexivity|].
           exists (u :: before), x. split; [reflexivity|].
           now rewrite <- app_assoc in Hx.
    + exists [u]. cbn. split; [reflexivity|]. split.
      * intros [|[|j]] v Hv Hj; cbn in *; try discriminate; lia.
      * split; [reflexivity|]. exists [], u. rewrite app_nil_r. auto.
Qed.

(** X16 (uploads stop at the first rejection).  Of the uploads
    [uploadNewMagazines] makes, all but the last were accepted.  It returns
    normally only if every upload was accepted, and it fails, with the upload
    error, only if its last upload was rejected. *)
Theorem uploads_stop_at_rejection (slack : Slack)
    (slackToken slackChannels : jsstring) (magazines : list jsstring) :
  let calls := fst (uploadNewMagazines slack slackToken slackChannels magazines) in
  (forall j v, nth_error calls j = Some v -> (S j < length calls)%nat ->
               slack (firstn j calls) v = true) /\
  match snd (uploadNewMagazines slack slackToken slackChannels magazines) with
  | Ok _ => forall j v, nth_error calls j = Some v -> slack (firstn j calls) v = true
  | Throw e =>
      e = UploadError /\
      exists before u, calls = before ++ [u] /\ slack before u = false
  end.
Proof.
  cbv zeta. unfold uploadNewMagazines.
  destruct (filter pdf_match magazines) as [|f fs] eqn:E.
  - cbn. split; intros [|j] v; discriminate.
  - destruct (upload_loop_calls slack slackToken slackChannels (f :: fs) [])
      as (done & H1 & H2 & H3).
    cbn [app] in *. rewrite H1. split; [exact H2|exact H3].
Qed.

(** X17 (silence without a PDF).  [uploadNewMagazines] makes no upload at all
    exactly when no path matches the pattern, and then it returns normally; as
    soon as one path matches, the upload of the first matching path is
    attempted. *)
Theorem no_upload_iff_no_pdf (slack : Slack)
    (slackToken slackChannels : jsstring) (magazines : list jsstring) :
  (fst (uploadNewMagazines slack slackToken slackChannels magazines) = [] <->
   filter pdf_match magazines = []) /\
  (filter pdf_match magazines = [] ->
   uploadNewMagazines slack slackToken slackChannels magazines = ([], Ok tt)) /\
  (forall file rest, filter pdf_match magazines = file :: rest ->
     nth_error (fst (uploadNewMagazines slack slackToken slackChannels magazines)) 0 =
       Some (mkUpload slackToken (path_basename file) file slackChannels)).
Proof.
  unfold uploadNewMagazines.
  destruct (filter pdf_match magazines) as [|f fs] eqn:E.
  - repeat split; auto. intros file rest H. discriminate.
  - assert (H0 : nth_error (fst (upload_loop slack slackToken slackChannels (f :: fs) [])) 0 =
                 Some (mkUpload slackToken (path_basename f) f slackChannels)).
    { cbn [upload_loop].
      destruct (slack [] _); [|reflexivity].
      destruct (upload_loop_prefix slack slackToken slackChannels fs
                  ([] ++ [mkUpload slackToken (path_basename f) f slackChannels]))
        as (done & H1 & _). rewrite H1. reflexivity. }
    split; [|split].
    + split; intros H; [|discriminate]. rewrite H in H0. discriminate.
    + discriminate.
    + intros file rest H. inversion H; subst. exact H0.
Qed.

End NotifierExtras.


(** * Properties of the program *)

Section MainProperties.
Context {node : Platform} {net : Network}.

(** The world of [main] while it downloads or when it has finished. *)
Lemma main_world p login fs events :
  truthy (USERNAME p) = true -> truthy (PASSWORD p) = true ->
  forall w0,
    Scraper_scrape (login (unwrap (USERNAME p)) (unwrap (PASSWORD p))) fs
      (set_maxRequests (integer 5) ProgrammerMagazineScraper_new)
      (if Nat.eqb (length (argv p)) 3 then nth 2 (argv p) [] else []) true = Ok w0 ->
  forall w, run w0 events = Some w ->
  exists links,
    Inv net (integer 5)
        (scheduled fs (if Nat.eqb (length (argv p)) 3 then nth 2 (argv p) [] else [])
                   true links) w.
Proof.
  intros _ _ w0 Hw0 w Hrun.
  destruct (Scraper_scrape_reachable _ _ _ _ _ _ _ _ Hw0 Hrun) as (links & _ & R).
  exists links. exact (reachable_Inv _ _ _ R).
Qed.

(** X18 (the program downloads five files at a time).  While the program
    waits for [scrape], the downloads in flight are the requests started and
    not completed, and they are at most five more than there are closures
    whose [request.get] threw inside the call: at most five when none did,
    whatever the page, the files present and the order in which the downloads
    settle. *)
Theorem main_cap (p : Process) (login : jsstring -> jsstring -> Result Document)
    (fs : jsstring -> bool) (events : list Event) (slack : Slack) (w : World) :
  main p login fs events slack = Some (Downloading w) ->
  (in_flight w <= 5 + count (threw net) (activations w))%nat /\
  started_not_completed w = in_flight w /\
  ((forall a, In a (activations w) -> threw net a = false) ->
   (in_flight w <= 5)%nat) /\
  get_maxRequests (this w) = integer 5.
Proof.
  unfold main.
  destruct (truthy (USERNAME p)) eqn:Eu; [|discriminate].
  destruct (truthy (PASSWORD p)) eqn:Ep; [|discriminate].
  cbn [negb orb].
  destruct (Scraper_scrape _ _ _ _ _) as [w0|e] eqn:Ew0; [|discriminate].
  destruct (run w0 events) as [w1|] eqn:Erun; [|discriminate].
  destruct (scrape_result w1) as [mags|] eqn:Eres.
  - destruct (_ && _); [destruct (uploadNewMagazines _ _ _ _) as [ups [[]|e]]|];
      discriminate.
  - intros H. inversion H; subst w1.
    destruct (main_world p login fs events Eu Ep w0 Ew0 w Erun) as (links & I).
    pose proof (inv_cap _ _ _ _ I 5 ltac:(lia) eq_refl) as Hcap.
    pose proof (st_running _ _ _ _ (inv_struct _ _ _ _ I)) as Hrun.
    fold (in_flight w) in Hrun.
    split; [lia|]. split; [exact (started_not_completed_in_flight _ _ _ I)|].
    split; [|exact (st_max _ _ _ _ (inv_struct _ _ _ _ I))].
    intros Hno. rewrite (count_none (threw net)) in Hcap by exact Hno. lia.
Qed.

Lemma scheduled_missing fs directory links c :
  In c (scheduled fs directory true links) -> fs (filename c) = false.
Proof.
  unfold scheduled. intros Hc.
  apply in_map_iff in Hc. destruct Hc as (l & <- & Hl).
  apply filter_In in Hl. destruct Hl as [_ Hl]. cbn [andb] in Hl.
  now apply negb_true_iff in Hl.
Qed.

Lemma uploads_of_magazines slack token channels magazines u :
  In u (fst (uploadNewMagazines slack token channels magazines)) ->
  In (up_file u) magazines /\ pdf_match (up_file u) = true /\
  up_filename u = path_basename (up_file u) /\
  up_token u = token /\ up_channels u = channels.
Proof.
  unfold uploadNewMagazines. intros Hu.
  assert (Hin : In u (map (fun file => mkUpload token (path_basename file) file channels)
                          (filter pdf_match magazines))).
  { destruct (filter pdf_match magazines) as [|f fs] eqn:E; [destruct Hu|].
    destruct (upload_loop_prefix slack token channels (f :: fs) [])
      as (done & H1 & (rest & H2) & _).
    rewrite H1 in Hu. cbn [app] in Hu. cbv zeta in H2. rewrite H2.
    apply in_or_app. now left. }
  apply in_map_iff in Hin. destruct Hin as (file & <- & Hfile).
  apply filter_In in Hfile. cbn. tauto.
Qed.

(** X19 (Slack gets only what this run downloaded).  When the program has
    printed its list of new magazines, no path in the list existed when the run
    began, and every upload made to Slack is for a path of that list matching
    [/.+\.pdf$/], sent under its basename with the token and the channels of
    the environment; without [SLACK_TOKEN] or [SLACK_CHANNELS] nothing is
    uploaded. *)
Theorem main_uploads_new_pdfs (p : Process)
    (login : jsstring -> jsstring -> Result Document)
    (fs : jsstring -> bool) (events : list Event) (slack : Slack)
    (magazines : list jsstring) (uploads : list Upload) :
  (main p login fs events slack = Some (Complete magazines uploads) \/
   exists e, main p login fs events slack = Some (Caught e (Some magazines) uploads)) ->
  (forall m, In m magazines -> fs m = false) /\
  (forall u, In u uploads ->
     In (up_file u) magazines /\ pdf_match (up_file u) = true /\
     up_filename u = path_basename (up_file u) /\
     up_token u = unwrap (SLACK_TOKEN p) /\
     up_channels u = unwrap (SLACK_CHANNELS p)) /\
  (truthy (SLACK_TOKEN p) && truthy (SLACK_CHANNELS p) = false -> uploads = []).
Proof.
  unfold main.
  destruct (truthy (USERNAME p)) eqn:Eu;
    [|intros [H|(e & H)]; discriminate].
  destruct (truthy (PASSWORD p)) eqn:Ep;
    [|intros [H|(e & H)]; discriminate].
  cbn [negb orb].
  destruct (Scraper_scrape _ _ _ _ _) as [w0|e0] eqn:Ew0;
    [|intros [H|(e & H)]; discriminate].
  destruct (run w0 events) as [w|] eqn:Erun;
    [|intros [H|(e & H)]; discriminate].
  destruct (scrape_result w) as [mags|] eqn:Eres;
    [|intros [H|(e & H)]; discriminate].
  destruct (main_world p login fs events Eu Ep w0 Ew0 w Erun) as (links & I).
  assert (Hmags : forall m, In m mags -> fs m = false).
  { intros m Hm. unfold scrape_result in Eres.
    destruct (resolved w); [|discriminate]. inversion Eres; subst mags.
    destruct (proj1 (newMagazines_requested _ _ _ I) m Hm) as (r & Hr & _ & <-).
    eapply scheduled_missing.
    rewrite <- (requests_closures _ _ _ I). now apply in_map. }
  destruct (truthy (SLACK_TOKEN p) && truthy (SLACK_CHANNELS p)) eqn:Eslack.
  - destruct (uploadNewMagazines slack (unwrap (SLACK_TOKEN p))
                (unwrap (SLACK_CHANNELS p)) mags) as [ups r] eqn:Eup.
    assert (Hups : forall u, In u ups ->
              In (up_file u) mags /\ pdf_match (up_file u) = true /\
              up_filename u = path_basename (up_file u) /\
              up_token u = unwrap (SLACK_TOKEN p) /\
              up_channels u = unwrap (SLACK_CHANNELS p)).
    { intros u Hu. apply (uploads_of_magazines slack). now rewrite Eup. }
    intros H.
    assert (E : mags = magazines /\ ups = uploads).
    { destruct r as [[]|e1]; destruct H as [H|(e & H)]; inversion H; auto. }
    destruct E as [<- <-]. split; [exact Hmags|]. split; [exact Hups|].
    discriminate.
  - intros H.
    assert (E : mags = magazines /\ uploads = []).
    { destruct H as [H|(e & H)]; inversion H; auto. }
    destruct E as [<- ->]. split; [exact Hmags|]. split; [|reflexivity].
    intros u [].
Qed.

End MainProperties.

Lemma main_cap_witness :
  let node := posix (js "/app") in
  let net := reliable in
  main a_process a_login (fun _ => false) [] (fun _ _ => true) =
    Some (Downloading a_process_downloading) /\
  (in_flight a_process_downloading <=
   5 + count (threw net) (activations a_process_downloading))%nat.
Proof.
  intros node net.
  assert (H : main a_process a_login (fun _ => false) [] (fun _ _ => true) =
              Some (Downloading a_process_downloading)) by (vm_compute; reflexivity).
  split; [exact H|].
  exact (proj1 (main_cap a_process a_login (fun _ => false) [] (fun _ _ => true)
                         a_process_downloading H)).
Defined.

Lemma main_uploads_new_pdfs_witness :
  let node := posix (js "/app") in
  let net := reliable in
  let file := js "/app/programista/2020-01/2020-01.pdf" in
  let events := [mkEvent 0 true; mkEvent 0 true; mkEvent 0 true] in
  let upload := mkUpload (js "token") (js "2020-01.pdf") file (js "#magazines") in
  main a_process a_login (fun _ => false) events (fun _ _ => true) =
    Some (Complete [file] [upload]) /\
  (forall u, In u [upload] -> In (up_file u) [file]).
Proof.
  intros node net file events upload.
  assert (H : main a_process a_login (fun _ => false) events (fun _ _ => true) =
              Some (Complete [file] [upload])) by (vm_compute; reflexivity).
  split; [exact H|].
  intros u Hu.
  exact (proj1 (proj1 (proj2
    (main_uploads_new_pdfs a_process a_login (fun _ => false) events
       (fun _ _ => true) [file] [upload] (or_introl H))) u Hu)).
Defined.


(** * The first version: properties

    Each world of the first version agrees with a world of the scheduler, so the
    invariant of the scheduler carries over. *)

Section LegacySimulation.
Context {net : Network}.

Lemma Shape_pushed cap acts W a :
  Shape net cap acts W -> Shape net cap (acts ++ [a]) (pushed a W).
Proof.
  intros Sh. pose proof (sh_len _ _ _ _ Sh) as Hlen.
  assert (Hf : firstn (length (activations W)) (acts ++ [a]) =
               firstn (length (activations W)) acts).
  { rewrite firstn_app.
    replace (length (activations W) - length acts)%nat with 0%nat by lia.
    cbn. apply app_nil_r. }
  assert (Hs : skipn (length (activations W)) (acts ++ [a]) =
               skipn (length (activations W)) acts ++ [a]).
  { rewrite skipn_app.
    replace (length (activations W) - length acts)%nat with 0%nat by lia.
    reflexivity. }
  split; cbn [pushed this activations _maxRequests runningRequests
              completedRequests requestsList allRequestsCompleted newMagazines];
    unfold requests_at; rewrite ?Hf, ?Hs; try apply Sh.
  - rewrite length_app. cbn. lia.
  - rewrite (sh_requests _ _ _ _ Sh). unfold requests_at.
    rewrite map_app, <- app_assoc. reflexivity.
Qed.

Lemma Inv_pushed cap acts W a :
  Inv net cap acts W -> Inv net cap (acts ++ [a]) (startNext (pushed a W)).
Proof.
  intros I. pose proof (inv_struct _ _ _ _ I) as St.
  destruct (startNext_Inv cap (acts ++ [a]) (pushed a W)) as (new & _ & I');
    [| | | | |exact I'].
  - apply Shape_pushed, Struct_Shape, St.
  - exact (st_running _ _ _ _ St).
  - exact (st_positive _ _ _ _ St).
  - reflexivity.
  - exact (inv_cap _ _ _ _ I).
Qed.

Lemma agree_loop (f : World -> World) (g : Legacy.World -> Legacy.World) :
  (forall W w, agree W w -> agree (f W) (g w)) ->
  forall k i W w, agree W w ->
    agree (startNext_loop f k i W) (Legacy.startNext_loop g k i w).
Proof.
  intros Hfg.
  assert (Htest : forall W w, agree W w -> agree (completion_test W) w).
  { intros W w H. unfold agree.
    now rewrite completion_test_this, completion_test_activations. }
  induction k as [|k IH]; intros i W w Hag;
    cbn [startNext_loop Legacy.startNext_loop]; [now apply Htest|].
  pose proof Hag as (Hm & Hr & Hl & Ha). rewrite <- Hm, <- Hr, <- Hl.
  destruct (nth_error (requestsList (this W)) i) as [req|]; [|now apply Htest].
  destruct (running_ge _ _); [exact Hag|].
  destruct (started req); [now apply IH|].
  apply IH.
  assert (Hinc : forall W1 w1, agree W1 w1 ->
            agree (increment_running W1) (Legacy.increment_running w1)).
  { intros W1 w1 (H1 & H2 & H3 & H4). unfold agree. cbn. rewrite H1, H2, H3, H4.
    repeat split. }
  assert (Hcall : forall st less more,
            agree (called i req st less more W) (Legacy.called i req st less w)).
  { intros st less more. unfold agree. cbn. rewrite Hm, Hr, Hl, Ha. repeat split. }
  apply Hinc. destruct (get_throws _); [apply Hfg|]; apply Hcall.
Qed.

Lemma agree_within : forall d W w,
  agree W w -> agree (startNext_within d W) (Legacy.startNext_within d w).
Proof.
  induction d as [|d IH]; intros W w Hag;
    cbn [startNext_within Legacy.startNext_within];
    rewrite <- (proj1 (proj2 (proj2 Hag)));
    apply agree_loop; auto.
Qed.

Lemma agree_startNext W w :
  agree W w -> agree (startNext W) (Legacy.startNext w).
Proof.
  intros Hag. unfold startNext, Legacy.startNext, unstarted.
  rewrite <- (proj1 (proj2 (proj2 Hag))). now apply agree_within.
Qed.

Context {node : Platform}.

Lemma agree_resume W w e w' :
  agree W w -> Legacy.resume w e = Some w' ->
  exists W', resume W e = Some W' /\ agree W' w'.
Proof.
  intros Hag H. pose proof Hag as (Hm & Hr & Hl & Ha).
  unfold Legacy.resume in H. unfold resume. rewrite Ha.
  destruct (nth_error (Legacy.activations w) (ev_activation e)) as [a|];
    [|discriminate].
  assert (Hfin : forall ok news,
    agree (startNext (settling (ev_activation e) ok news W))
          (Legacy.finally (ev_activation e) ok w)).
  { intros ok news. apply agree_startNext. unfold agree, settling. cbn.
    rewrite Hm, Hr, Hl, Ha. repeat split. }
  assert (Hsus : forall st,
    agree (suspend_at (ev_activation e) st W)
          (Legacy.suspend_at (ev_activation e) st w)).
  { intros st. unfold agree, suspend_at, Legacy.suspend_at. cbn.
    rewrite Ha. repeat split; assumption. }
  destruct (stage a); destruct (ev_ok e); try discriminate;
    inversion H; subst w'; clear H; eexists; (split; [reflexivity|]);
    try apply Hsus; try (rewrite finally_settling; apply Hfin);
    try apply (Hfin true).
Qed.

Lemma legacy_step_agree cap skipExisting acts W w s w' :
  Inv net cap acts W -> agree W w ->
  Legacy.step skipExisting w s = Some w' ->
  exists acts' W', Inv net cap acts' W' /\ agree W' w'.
Proof.
  intros I Hag H. destruct s as [present|e]; cbn [Legacy.step] in H.
  - destruct (Legacy.links w) as [|link rest]; [discriminate|].
    destruct (skipExisting && present); inversion H; subst w'; clear H.
    + exists acts, W. split; [exact I|exact Hag].
    + exists (acts ++ [Legacy.download_of link]),
             (startNext (pushed (Legacy.download_of link) W)).
      split; [now apply Inv_pushed|].
      unfold Legacy.push_and_start. apply agree_startNext.
      destruct Hag as (Hm & Hr & Hl & Ha). unfold agree, pushed. cbn.
      rewrite Hm, Hr, Hl, Ha. repeat split.
  - assert (Hres : Legacy.resume w e = Some w').
    { destruct (Legacy.links w); [exact H|].
      destruct skipExisting; [exact H|discriminate]. }
    destruct (agree_resume _ _ _ _ Hag Hres) as (W' & HW' & Hag').
    exists acts, W'. split; [|exact Hag'].
    eapply resume_Inv; eauto.
Qed.

Lemma legacy_run_agree cap skipExisting ss : forall acts W w w',
  Inv net cap acts W -> agree W w ->
  Legacy.run skipExisting w ss = Some w' ->
  exists acts' W', Inv net cap acts' W' /\ agree W' w'.
Proof.
  induction ss as [|s ss IH]; intros acts W w w' I Hag H; cbn in H.
  - inversion H; subst. eauto.
  - destruct (Legacy.step skipExisting w s) as [w1|] eqn:E; [|discriminate].
    destruct (legacy_step_agree _ _ _ _ _ _ _ I Hag E) as (acts1 & W1 & I1 & Hag1).
    eapply IH; eauto.
Qed.

Lemma legacy_reachable_agree cap skipExisting found w :
  Legacy.reachable cap skipExisting found w ->
  exists acts W, Inv net cap acts W /\ agree W w.
Proof.
  intros [ss H].
  apply (legacy_run_agree cap skipExisting ss [] (dispatch cap [])
                          (Legacy.scrape cap found) w);
    [apply dispatch_Inv| |exact H].
  unfold agree. cbn. auto.
Qed.

(** X20 (the first version and the cap).  In the first version, where
    [scrape] calls [startNext] after every [push] and downloads settle while
    later links are still being visited, [runningRequests] counts the downloads
    in flight, and for every integer [L >= 0] that passes the test [L >=
    maxRequests] they are at most [L] more than there are closures whose
    [request.get] threw inside the call. *)
Theorem legacy_cap (maxRequests : Number) (skipExisting : bool)
    (found : list ProgrammerMagazineLink) (w : Legacy.World) :
  Legacy.reachable maxRequests skipExisting found w ->
  (forall L : nat, running_ge (Z.of_nat L) maxRequests = true ->
     (count unsettled (Legacy.activations w) <=
      L + count (threw net) (Legacy.activations w))%nat) /\
  Legacy.runningRequests (Legacy.this w) =
    Z.of_nat (count unsettled (Legacy.activations w)).
Proof.
  intros R. destruct (legacy_reachable_agree _ _ _ _ R)
    as (acts & W & I & (Hm & Hr & Hl & Ha)).
  pose proof (st_running _ _ _ _ (inv_struct _ _ _ _ I)) as Hrun.
  rewrite <- Ha, <- Hr. split; [|exact Hrun].
  intros L HL. pose proof (inv_cap _ _ _ _ I (Z.of_nat L) ltac:(lia) HL). lia.
Qed.

(** X21 (the first version starts each request once, in order).  In the first
    version the started requests are an initial part of [requestsList], the
    [k]-th closure call was made on the [k]-th request, and no request has been
    called twice. *)
Theorem legacy_start_once (maxRequests : Number) (skipExisting : bool)
    (found : list ProgrammerMagazineLink) (w : Legacy.World) :
  Legacy.reachable maxRequests skipExisting found w ->
  (forall k a, nth_error (Legacy.activations w) k = Some a ->
     task a = k /\
     nth_error (Legacy.requestsList (Legacy.this w)) k =
       Some (mkRequest true (closure a))) /\
  (forall i r, nth_error (Legacy.requestsList (Legacy.this w)) i = Some r ->
     started r = (i <? length (Legacy.activations w))%nat) /\
  (forall i, (count (fun a => Nat.eqb (task a) i) (Legacy.activations w) <= 1)%nat).
Proof.
  intros R. destruct (legacy_reachable_agree _ _ _ _ R)
    as (acts & W & I & (Hm & Hr & Hl & Ha)).
  rewrite <- Ha, <- Hl. split; [|split].
  - exact (proj2 (start_order_aux _ _ _ I)).
  - intros i r Hi. pose proof (is_started_spec _ _ _ i I) as Hs.
    unfold is_started in Hs. now rewrite Hi in Hs.
  - intros i. exact (invocations_le_1 _ _ _ i I).
Qed.

(** X22 (the first version keeps the pool full).  In the first version, once
    [scrape] has called [startNext] for a pushed request, a request waits only
    while the cap is reached: if [runningRequests] is below the cap (the test
    [runningRequests >= maxRequests] fails), every request in [requestsList]
    has been started. *)
Theorem legacy_work_conserving (maxRequests : Number) (skipExisting : bool)
    (found : list ProgrammerMagazineLink) (w : Legacy.World) :
  Legacy.reachable maxRequests skipExisting found w ->
  running_ge (Legacy.runningRequests (Legacy.this w)) maxRequests = false ->
  forall r, In r (Legacy.requestsList (Legacy.this w)) -> started r = true.
Proof.
  intros R Hlt r Hin. destruct (legacy_reachable_agree _ _ _ _ R)
    as (acts & W & I & (Hm & Hr & Hl & Ha)).
  rewrite <- Hr in Hlt. rewrite <- Hl in Hin.
  pose proof (inv_busy _ _ _ _ I Hlt) as Hall.
  rewrite (st_requests _ _ _ _ (inv_struct _ _ _ _ I)), Hall, skipn_all in Hin.
  cbn [map] in Hin. rewrite app_nil_r in Hin.
  apply in_map_iff in Hin. destruct Hin as (c & <- & _). reflexivity.
Qed.

End LegacySimulation.

Lemma legacy_cap_witness :
  let node := posix (js "/app") in
  let net := reliable in
  Legacy.reachable (integer 2) true three_links three_links_world /\
  running_ge (Z.of_nat 2) (integer 2) = true /\
  (count unsettled (Legacy.activations three_links_world) <=
   2 + count (threw net) (Legacy.activations three_links_world))%nat.
Proof.
  intros node net.
  assert (R : Legacy.reachable (integer 2) true three_links three_links_world)
    by (exists three_links_steps; vm_compute; reflexivity).
  assert (H : running_ge (Z.of_nat 2) (integer 2) = true) by reflexivity.
  split; [exact R|]. split; [exact H|].
  exact (proj1 (legacy_cap (integer 2) true three_links three_links_world R) 2%nat H).
Defined.

Lemma legacy_start_once_witness :
  let node := posix (js "/app") in
  let net := reliable in
  Legacy.reachable (integer 2) true three_links three_links_world /\
  (count (fun a => Nat.eqb (task a) 0) (Legacy.activations three_links_world) <= 1)%nat.
Proof.
  intros node net.
  assert (R : Legacy.reachable (integer 2) true three_links three_links_world)
    by (exists three_links_steps; vm_compute; reflexivity).
  split; [exact R|].
  exact (proj2 (proj2 (legacy_start_once (integer 2) true three_links
                         three_links_world R)) 0%nat).
Defined.

Lemma legacy_work_conserving_witness :
  let node := posix (js "/app") in
  let net := reliable in
  Legacy.reachable (integer 2) true three_links three_links_world /\
  running_ge (Legacy.runningRequests (Legacy.this three_links_world)) (integer 2) = false /\
  forall r, In r (Legacy.requestsList (Legacy.this three_links_world)) ->
            started r = true.
Proof.
  intros node net.
  assert (R : Legacy.reachable (integer 2) true three_links three_links_world)
    by (exists three_links_steps; vm_compute; reflexivity).
  assert (H : running_ge (Legacy.runningRequests (Legacy.this three_links_world))
                         (integer 2) = false)
    by reflexivity.
  split; [exact R|]. split; [exact H|].
  exact (legacy_work_conserving (integer 2) true three_links three_links_world R H).
Defined.

(** In the first version too the cap is exceeded when [request.get] throws
    inside a call: with a cap of two and five links of which the third throws
    in this way, after the first download has been rejected three downloads are
    in flight. *)
Example legacy_cap_overrun :
  let node := posix (js "/app") in
  let net := faulty in
  exists w,
    Legacy.run false (Legacy.scrape (integer 2) bad_third)
      [Legacy.Visit false; Legacy.Visit false; Legacy.Visit false;
       Legacy.Visit false; Legacy.Visit false; Legacy.Settle (mkEvent 0 false)] =
      Some w /\
    map stage (Legacy.activations w) =
      [Settled false; AwaitGet; Settled false; AwaitGet; AwaitGet] /\
    Legacy.runningRequests (Legacy.this w) = 3.
Proof.
  intros node net.
  destruct (Legacy.run false (Legacy.scrape (integer 2) bad_third)
      [Legacy.Visit false; Legacy.Visit false; Legacy.Visit false;
       Legacy.Visit false; Legacy.Visit false; Legacy.Settle (mkEvent 0 false)])
    as [w|] eqn:E; vm_compute in E; [|discriminate].
  exists w. split; [reflexivity|]. inversion E. split; reflexivity.
Qed.

(** * Composition *)

Section Composition.
Context {net : Network}.

(** X23 (a second pass starts nothing).  In every world of a run a further
    call of [startNext] changes no field of the scraper and invokes no closure:
    after each pass either the cap is reached or every request is started. *)
Theorem startNext_idempotent (maxRequests : Number) (acts : list Action) (w : World) :
  reachable maxRequests acts w ->
  this (startNext w) = this w /\
  activations (startNext w) = activations w.
Proof.
  intros R. pose proof (reachable_Inv _ _ _ R) as I.
  pose proof (inv_struct _ _ _ _ I) as St.
  assert (H : running_ge (runningRequests (this w)) (_maxRequests (this w)) = true \/
              unstarted (this w) = 0%nat).
  { rewrite (st_max _ _ _ _ St).
    destruct (running_ge (runningRequests (this w)) maxRequests) eqn:E; [now left|].
    right. rewrite (Shape_unstarted _ _ _ (Struct_Shape _ _ _ St)).
    rewrite (inv_busy _ _ _ _ I E). lia. }
  destruct (startNext_idle w H) as (H1 & H2 & _). now split.
Qed.

Lemma activation_closure_in cap acts w a :
  Inv net cap acts w -> In a (activations w) -> In (closure a) acts.
Proof.
  intros I Ha. apply (in_map closure) in Ha.
  rewrite (st_closures _ _ _ _ (inv_struct _ _ _ _ I)) in Ha.
  eapply firstn_In, Ha.
Qed.

Lemma fresh_not_failed a :
  fresh net a -> threw net a = false -> failed a = false.
Proof. unfold fresh, failed. intros -> ->. reflexivity. Qed.

Lemma resume_fulfilled_no_failure cap acts w e w' :
  (forall c, In c acts -> get_throws (uri c) = false) ->
  Inv net cap acts w ->
  resume w e = Some w' -> ev_ok e = true ->
  (forall a, In a (activations w) -> failed a = false) ->
  forall a, In a (activations w') -> failed a = false.
Proof.
  intros Hnet I H Hok Hall.
  assert (I' : Inv net cap acts w') by (eapply resume_Inv; eauto).
  destruct (resume_cases _ _ _ H)
    as (a0 & E & Ha0 & [(st & Hst & _ & ->)|(ok & Ht & Hf & Hw')]).
  - cbn [suspend_at activations].
    apply (set_stage_forall (fun a => failed a = false) _ _ _ st E Hall).
    unfold failed; cbn. destruct st as [| | |[|]]; auto. now elim (Hst false).
  - destruct ok; [|specialize (Hf eq_refl); congruence].
    destruct (finally_Inv cap acts w _ a0 true I E Ha0) as (new & P & _).
    cbv zeta in P. rewrite <- Hw' in P.
    intros a Ha. pose proof (activation_closure_in _ _ _ _ I' Ha) as Hc.
    rewrite (ps_acts _ _ _ _ _ _ P) in Ha. cbn [settling activations] in Ha.
    apply in_app_or in Ha. destruct Ha as [Ha|Ha].
    + revert a Ha Hc.
      assert (Hs : forall a, In a (set_stage (ev_activation e) (Settled true)
                                              (activations w)) -> failed a = false);
        [|intros a Ha _; now apply Hs].
      apply (set_stage_forall (fun a => failed a = false) _ _ _ (Settled true) E Hall).
      reflexivity.
    + apply fresh_not_failed.
      * now apply (proj1 (Forall_forall _ _) (ps_fresh _ _ _ _ _ _ P)).
      * now apply Hnet.
Qed.

(** X24 (when nothing fails everything is reported).  If no enrolled closure
    throws inside [request.get] and every event of a run fulfils its promise,
    then at resolution [newMagazines] holds the destinations of all requests of
    the batch, each as often as it was enrolled, in the order in which the files
    were written. *)
Theorem all_fulfilled_all_reported (maxRequests : Number) (acts : list Action)
    (es : list Event) (w : World) :
  (forall c, In c acts -> get_throws (uri c) = false) ->
  run (dispatch maxRequests acts) es = Some w ->
  (forall e, In e es -> ev_ok e = true) ->
  resolved w = true ->
  Permutation (newMagazines (this w)) (map filename acts).
Proof.
  intros Hnet Hrun Hok Hres.
  assert (R : reachable maxRequests acts w) by (now exists es).
  pose proof (reachable_Inv _ _ _ R) as I.
  pose proof (inv_struct _ _ _ _ I) as S.
  assert (Hnof : forall a, In a (activations w) -> failed a = false).
  { revert Hrun Hok. pose proof (dispatch_Inv maxRequests acts) as I0.
    assert (H0 : forall a, In a (activations (dispatch maxRequests acts)) ->
                           failed a = false).
    { intros a Ha.
      destruct (dispatch_Pass_Inv maxRequests acts) as (new & P & _).
      pose proof (activation_closure_in _ _ _ _ I0 Ha) as Hc.
      rewrite (ps_acts _ _ _ _ _ _ P) in Ha. cbn [enrolled activations app] in Ha.
      apply fresh_not_failed.
      - now apply (proj1 (Forall_forall _ _) (ps_fresh _ _ _ _ _ _ P)).
      - now apply Hnet. }
    revert I0 H0. generalize (dispatch maxRequests acts) as w0.
    induction es as [|e es IH]; intros w0 I0 H0 Hrun Hok; cbn in Hrun.
    - inversion Hrun; subst. exact H0.
    - destruct (resume w0 e) as [w1|] eqn:E; [|discriminate].
      apply (IH w1); auto.
      + eapply resume_Inv; eauto.
      + eapply resume_fulfilled_no_failure; eauto. apply Hok. now left.
      + intros e' He'. apply Hok. now right. }
  pose proof (proj1 (resolved_iff _ _ _ I) Hres) as Hdone.
  rewrite (st_completed _ _ _ _ S) in Hdone.
  pose proof (st_len _ _ _ _ S) as Hlen.
  pose proof (count_le_length settled (activations w)) as Hle.
  assert (Hall : forall a, In a (activations w) -> settled a = true)
    by (apply (proj1 (count_all _ _)); lia).
  assert (Hsucc : filter succeeded (activations w) = activations w).
  { apply forallb_filter_id. apply forallb_forall. intros a Ha.
    specialize (Hall a Ha). specialize (Hnof a Ha).
    unfold succeeded, settled, failed in *.
    destruct (stage a) as [| | |[|]]; auto; discriminate. }
  pose proof (st_new _ _ _ _ S) as Hperm. rewrite Hsucc in Hperm.
  rewrite <- (map_map closure filename), (st_closures _ _ _ _ S) in Hperm.
  replace (length (activations w)) with (length acts) in Hperm by lia.
  now rewrite firstn_all in Hperm.
Qed.

Section Setter.
Context {node : Platform}.

(** X25 (the setter governs the next run).  The setter stores any number.  In
    a [scrape] begun after [maxRequests] was set, [maxRequests] keeps that
    value, and for every integer [L >= 0] that passes the test [L >=
    maxRequests] the downloads in flight are at most [L] more than there are
    closures whose [request.get] threw inside the call.  On an object whose cap
    was never set the cap is three. *)
Theorem setter_takes_effect (requests : Number) (dom : Result Document)
    (fs : jsstring -> bool) (s : Scraper) (directory : jsstring)
    (skipExisting : bool) (es : list Event) (w0 w : World) :
  Scraper_scrape dom fs (set_maxRequests requests s) directory skipExisting = Ok w0 ->
  run w0 es = Some w ->
  (forall L : nat, running_ge (Z.of_nat L) requests = true ->
     (in_flight w <= L + count (threw net) (activations w))%nat) /\
  get_maxRequests (this w) = requests /\
  get_maxRequests ProgrammerMagazineScraper_new = integer 3.
Proof.
  intros Hw0 Hrun.
  destruct (Scraper_scrape_reachable _ _ _ _ _ _ _ _ Hw0 Hrun) as (links & _ & R).
  cbn [set_maxRequests _maxRequests] in R.
  pose proof (reachable_Inv _ _ _ R) as I.
  pose proof (st_running _ _ _ _ (inv_struct _ _ _ _ I)) as Hr.
  fold (in_flight w) in Hr.
  split; [|split; [exact (st_max _ _ _ _ (inv_struct _ _ _ _ I))|reflexivity]].
  intros L HL. pose proof (inv_cap _ _ _ _ I (Z.of_nat L) ltac:(lia) HL). lia.
Qed.

End Setter.

(** X26 (failure containment).  When the promise awaited by an in-flight
    activation is rejected, the closure handles the rejection itself: the event
    is a step of the run; it adds nothing to [newMagazines], increments
    [completedRequests] once for this activation and once for every closure the
    following passes of [startNext] call whose [request.get] throws inside the
    call, settles this activation as failed and leaves every other activation
    as it was; afterwards [runningRequests] counts the downloads in flight.
    From then on the activation stays failed and [newMagazines] holds exactly
    the file names of the activations that ran without error; with a cap above
    zero the run can be continued until the batch is resolved, and then
    [scrape] returns those file names, and [resolve] has been called exactly
    once if no closure threw inside [request.get]. *)
Theorem failure_containment (maxRequests : Number) (acts : list Action) (w : World)
    (k : nat) (a : Activation) :
  reachable maxRequests acts w ->
  nth_error (activations w) k = Some a ->
  settled a = false ->
  exists w',
    resume w (mkEvent k false) = Some w' /\
    newMagazines (this w') = newMagazines (this w) /\
    (exists new,
       activations w' = set_stage k (Settled false) (activations w) ++ new /\
       completedRequests (this w') =
         completedRequests (this w) + 1 + Z.of_nat (count (threw net) new) /\
       runningRequests (this w') =
         runningRequests (this w) - 1 + Z.of_nat (count unsettled new)) /\
    runningRequests (this w') = Z.of_nat (in_flight w') /\
    (forall j b, j <> k -> nth_error (activations w) j = Some b ->
                 nth_error (activations w') j = Some b) /\
    (forall es w'', run w' es = Some w'' ->
       nth_error (activations w'') k =
         Some (mkActivation (task a) (closure a) (Settled false)) /\
       Permutation (newMagazines (this w''))
                   (map (fun a => filename (closure a))
                        (filter succeeded (activations w''))) /\
       (resolved w'' = true ->
        (forall c, In c acts -> get_throws (uri c) = false) ->
        resolveCalls w'' = 1%nat) /\
       (running_ge 0 maxRequests = false ->
        exists es' w3, run w'' es' = Some w3 /\ resolved w3 = true /\
          exists mags, scrape_result w3 = Some mags /\
            Permutation mags (map (fun a => filename (closure a))
                                  (filter succeeded (activations w3))))).
Proof.
  intros R E Ha. pose proof (reachable_Inv _ _ _ R) as I.
  pose proof (resume_rejected _ _ _ E Ha) as Hstep.
  exists (finally k false w). split; [exact Hstep|].
  assert (R' : reachable maxRequests acts (finally k false w)).
  { apply (reachable_run _ _ _ [mkEvent k false] _ R). cbn. now rewrite Hstep. }
  pose proof (reachable_Inv _ _ _ R') as I'.
  destruct (finally_Inv maxRequests acts w k a false I E Ha) as (new & P & _).
  cbv zeta in P. cbn [app] in P. rewrite app_nil_r in P.
  rewrite <- finally_settling in P.
  pose proof (ps_acts _ _ _ _ _ _ P) as Hacts. cbn [settling activations] in Hacts.
  destruct (set_stage_settle _ _ _ false E Ha) as [Hs Hu].
  split; [|split; [|split; [|split; [|intros es w'' Hrun]]]].
  - rewrite (ps_news _ _ _ _ _ _ P). reflexivity.
  - exists new. split; [exact Hacts|]. split.
    + rewrite (st_completed _ _ _ _ (inv_struct _ _ _ _ I')),
        (st_completed _ _ _ _ (inv_struct _ _ _ _ I)), Hacts, count_app, Hs,
        (fresh_count_settled _ _ (ps_fresh _ _ _ _ _ _ P)). lia.
    + rewrite (ps_running _ _ _ _ _ _ P). reflexivity.
  - exact (st_running _ _ _ _ (inv_struct _ _ _ _ I')).
  - intros j b Hj Hb. apply (resume_others _ _ _ _ _ Hstep); auto.
  - assert (R'' : reachable maxRequests acts w'') by (eapply reachable_run; eauto).
    pose proof (reachable_Inv _ _ _ R'') as I''.
    split; [|split; [|split]].
    + apply (run_settled_stays _ _ _ _ _ Hrun); [|reflexivity].
      rewrite Hacts, nth_error_app1.
      * now apply set_stage_nth_same.
      * rewrite set_stage_length. apply nth_error_Some. rewrite E. discriminate.
    + apply (st_new _ _ _ _ (inv_struct _ _ _ _ I'')).
    + intros Hres Hnet.
      pose proof (inv_calls _ _ _ _ I'') as Hc.
      rewrite (count_none (threw net)) in Hc.
      * unfold resolved in Hres. apply Nat.ltb_lt in Hres. lia.
      * intros b Hb. apply Hnet. eapply activation_closure_in; eauto.
    + intros Hcap.
      destruct (finishing_run maxRequests acts w'' I'' Hcap) as (es' & w3 & Hr3 & Hd3).
      exists es', w3. split; [exact Hr3|]. split; [exact Hd3|].
      exists (newMagazines (this w3)). split.
      * unfold scrape_result. now rewrite Hd3.
      * apply (st_new _ _ _ _ (inv_struct _ _ _ _
                 (run_Inv _ _ _ _ _ I'' Hr3))).
Qed.


(** X28 (how far the cap holds).  In every world of a run the requests
    started and not completed are the downloads in flight, and
    [runningRequests] counts them.  For every integer [L >= 0] that passes the
    test [L >= maxRequests] they are at most [L] more than there are closures
    whose [request.get] threw inside the call; with an integer cap [N] and no
    such closure in the batch they are at most [N].  A pass of [startNext]
    that finds the counter at the cap calls no closure. *)
Theorem concurrency_bound (maxRequests : Number) (acts : list Action) (w : World) :
  reachable maxRequests acts w ->
  started_not_completed w = in_flight w /\
  runningRequests (this w) = Z.of_nat (in_flight w) /\
  (forall L : nat, running_ge (Z.of_nat L) maxRequests = true ->
     (in_flight w <= L + count (threw net) (activations w))%nat) /\
  (forall N : nat, maxRequests = integer (Z.of_nat N) ->
     (forall c, In c acts -> get_throws (uri c) = false) ->
     (in_flight w <= N)%nat) /\
  (forall w0,
     running_ge (runningRequests (this w0)) (_maxRequests (this w0)) = true ->
     this (startNext w0) = this w0 /\ activations (startNext w0) = activations w0).
Proof.
  intros R. pose proof (reachable_Inv _ _ _ R) as I.
  pose proof (st_running _ _ _ _ (inv_struct _ _ _ _ I)) as Hrun.
  fold (in_flight w) in Hrun.
  assert (Hb : forall L : nat, running_ge (Z.of_nat L) maxRequests = true ->
             (in_flight w <= L + count (threw net) (activations w))%nat).
  { intros L HL. pose proof (inv_cap _ _ _ _ I (Z.of_nat L) ltac:(lia) HL). lia. }
  split; [exact (started_not_completed_in_flight _ _ _ I)|].
  split; [exact Hrun|]. split; [exact Hb|]. split.
  - intros N -> Hnet.
    assert (HN : running_ge (Z.of_nat N) (integer (Z.of_nat N)) = true)
      by (rewrite running_ge_integer; apply Z.leb_refl).
    specialize (Hb N HN). rewrite (count_none (threw net)) in Hb; [lia|].
    intros a Ha. apply Hnet. eapply activation_closure_in; eauto.
  - intros w0 H0. destruct (startNext_idle w0 (or_introl H0)) as (H1 & H2 & _).
    now split.
Qed.

End Composition.

Lemma startNext_idempotent_witness :
  reachable (net := reliable) (integer 2) five_issues five_issues_midway /\
  this (startNext (net := reliable) five_issues_midway) = this five_issues_midway.
Proof.
  assert (R : reachable (net := reliable) (integer 2) five_issues five_issues_midway)
    by (exists (firstn 4 third_fails); vm_compute; reflexivity).
  split; [exact R|].
  exact (proj1 (startNext_idempotent (net := reliable) (integer 2) five_issues
                  five_issues_midway R)).
Defined.

Lemma all_fulfilled_all_reported_witness :
  let net := reliable in
  let acts := [issue "1.pdf"; issue "2.pdf"] in
  let es := [mkEvent 1 true; mkEvent 0 true; mkEvent 1 true; mkEvent 1 true;
             mkEvent 0 true; mkEvent 0 true] in
  let w := world_after (integer 2) acts es in
  (forall c, In c acts -> get_throws (uri c) = false) /\
  run (dispatch (integer 2) acts) es = Some w /\
  (forall e, In e es -> ev_ok e = true) /\
  resolved w = true /\
  Permutation (newMagazines (this w)) (map filename acts).
Proof.
  intros net acts es w.
  assert (H0 : forall c, In c acts -> get_throws (uri c) = false)
    by (intros c _; reflexivity).
  assert (H1 : run (dispatch (integer 2) acts) es = Some w) by (vm_compute; reflexivity).
  assert (H2 : forall e, In e es -> ev_ok e = true).
  { intros e He. repeat (destruct He as [<-|He]; [reflexivity|]). destruct He. }
  assert (H3 : resolved w = true) by (vm_compute; reflexivity).
  split; [exact H0|]. split; [exact H1|]. split; [exact H2|]. split; [exact H3|].
  exact (all_fulfilled_all_reported (integer 2) acts es w H0 H1 H2 H3).
Defined.

Lemma setter_takes_effect_witness :
  let node := posix (js "/app") in
  let net := reliable in
  let requests := Finite (5 # 2) in
  Scraper_scrape (Ok my_magazines) (fun _ => false)
    (set_maxRequests requests ProgrammerMagazineScraper_new) [] true =
    Ok (dispatch requests [mkAction (js "https://example.com/issue/2020-01.pdf")
                             (js "/app/programista/2020-01")
                             (js "/app/programista/2020-01/2020-01.pdf")]) /\
  running_ge (Z.of_nat 3) requests = true /\
  (in_flight (dispatch requests
                [mkAction (js "https://example.com/issue/2020-01.pdf")
                          (js "/app/programista/2020-01")
                          (js "/app/programista/2020-01/2020-01.pdf")]) <=
   3 + count (threw net)
         (activations (dispatch requests
                [mkAction (js "https://example.com/issue/2020-01.pdf")
                          (js "/app/programista/2020-01")
                          (js "/app/programista/2020-01/2020-01.pdf")])))%nat.
Proof.
  intros node net requests.
  set (w := dispatch requests [mkAction (js "https://example.com/issue/2020-01.pdf")
                             (js "/app/programista/2020-01")
                             (js "/app/programista/2020-01/2020-01.pdf")]).
  assert (H1 : Scraper_scrape (Ok my_magazines) (fun _ => false)
                 (set_maxRequests requests ProgrammerMagazineScraper_new) [] true =
               Ok w) by (vm_compute; reflexivity).
  assert (H2 : run w [] = Some w) by reflexivity.
  assert (H3 : running_ge (Z.of_nat 3) requests = true) by reflexivity.
  split; [exact H1|]. split; [exact H3|].
  exact (proj1 (setter_takes_effect requests (Ok my_magazines) (fun _ => false)
                  ProgrammerMagazineScraper_new [] true [] _ _ H1 H2) 3%nat H3).
Defined.

Lemma failure_containment_witness :
  reachable (net := reliable) (integer 2) five_issues five_issues_midway /\
  nth_error (activations five_issues_midway) 2 =
    Some (mkActivation 2 (issue "3.pdf") AwaitGet) /\
  settled (mkActivation 2 (issue "3.pdf") AwaitGet) = false /\
  exists w',
    resume (net := reliable) five_issues_midway (mkEvent 2 false) = Some w' /\
    newMagazines (this w') = newMagazines (this five_issues_midway).
Proof.
  assert (R : reachable (net := reliable) (integer 2) five_issues five_issues_midway)
    by (exists (firstn 4 third_fails); vm_compute; reflexivity).
  assert (E : nth_error (activations five_issues_midway) 2 =
              Some (mkActivation 2 (issue "3.pdf") AwaitGet)) by reflexivity.
  split; [exact R|]. split; [exact E|]. split; [reflexivity|].
  destruct (failure_containment (net := reliable) (integer 2) five_issues
              five_issues_midway 2 _ R E eq_refl) as (w' & H1 & H2 & _).
  exists w'. split; [exact H1|exact H2].
Defined.

Lemma concurrency_bound_witness :
  reachable (net := reliable) (integer 2) five_issues five_issues_midway /\
  integer 2 = integer (Z.of_nat 2) /\
  (forall c, In c five_issues -> get_throws (Network := reliable) (uri c) = false) /\
  (in_flight five_issues_midway <= 2)%nat.
Proof.
  assert (R : reachable (net := reliable) (integer 2) five_issues five_issues_midway)
    by (exists (firstn 4 third_fails); vm_compute; reflexivity).
  assert (H1 : integer 2 = integer (Z.of_nat 2)) by reflexivity.
  assert (H2 : forall c, In c five_issues ->
                         get_throws (Network := reliable) (uri c) = false)
    by (intros c _; reflexivity).
  split; [exact R|]. split; [exact H1|]. split; [exact H2|].
  exact (proj1 (proj2 (proj2 (proj2
           (concurrency_bound (net := reliable) (integer 2) five_issues
              five_issues_midway R)))) 2%nat H1 H2).
Defined.


(** The batch of five tasks whose third download is rejected resolves with
    the four other paths, and [resolve] is called once. *)
Example partial_failure_batch :
  run (net := reliable) (dispatch (net := reliable) (integer 2) five_issues)
      third_fails = Some five_issues_done /\
  nth_error (activations five_issues_done) 2 =
    Some (mkActivation 2 (issue "3.pdf") (Settled false)) /\
  scrape_result five_issues_done =
    Some (map js ["out/2020/1.pdf"; "out/2020/2.pdf";
                  "out/2020/5.pdf"; "out/2020/4.pdf"]%string) /\
  resolveCalls five_issues_done = 1%nat.
Proof. vm_compute. repeat split. Qed.
